(** * Distributed inference platform: batch worker, model router, gateway

    A shallow embedding of the Go services of the platform and the
    properties their specification states about them.

    - [storage]  : services/batch-worker/internal/storage (postgres.go, minio.go)
    - [worker]   : services/batch-worker/internal/worker  (pool.go)
    - [consumer] : services/batch-worker/internal/consumer (kafka.go)
    - [gobreaker]: the circuit breaker package the router imports
    - [router]   : services/model-router/internal/router and handlers
    - [gateway]  : services/api-gateway/internal/handlers and middleware

    Conventions.  A Go [int]/[int64] is a [Z]; the counters below are bounded
    by slice lengths, so no wrap-around is reachable and none is written.  A Go
    [map[string]interface{}] holding decoded JSON is a [payload]; a map with a
    fixed set of keys is a record.  Calls that leave the process (database,
    object store, message log, HTTP) take their outcome as an argument, so
    every operation is a function that can be evaluated.  Goroutines are a
    labelled transition system whose schedule is an argument as well. *)

From stdpp Require Import gmap strings list pretty.

#[local] Open Scope Z_scope.

(** ** Decoded JSON *)

#[local] Unset Elimination Schemes.
Inductive json : Type :=
| JNull
| JBool (b : bool)
| JNum (n : Z)
| JStr (s : string)
| JArr (xs : list json)
| JObj (kvs : list (string * json)).
#[local] Set Elimination Schemes.

(** [map[string]interface{}] as produced by [encoding/json]. *)
Definition payload : Type := list (string * json).

(** [m[k]] on a decoded object: the first binding of [k]. *)
Fixpoint jget (k : string) (m : payload) : option json :=
  match m with
  | [] => None
  | (k', v) :: m' => if bool_decide (k' = k) then Some v else jget k m'
  end.

(** [v, _ := m[k].(string)]: the zero value unless [m[k]] is a string. *)
Definition jstring (k : string) (m : payload) : string :=
  match jget k m with
  | Some (JStr s) => s
  | _ => ""
  end.

(** Outcome of a statement sent to the database driver. *)
Inductive db_outcome : Type :=
| DbOk
| DbErr (msg : string).

(** Two readings of [time.Now()] taken by one store operation. *)
Definition clock : Type := (Z * Z)%type.

(** ** Job store and object store (batch-worker/internal/storage) *)

Module storage.

Inductive JobStatus : Type :=
| StatusPending
| StatusProcessing
| StatusCompleted
| StatusFailed.

#[global] Instance JobStatus_eq_dec : EqDecision JobStatus.
Proof. solve_decision. Defined.

(** [progress] is the float64 quotient [completed / total]; it is kept as the
    pair the quotient is taken of. *)
Definition fraction : Type := (Z * Z)%type.

Record BatchJob : Type := {
  ID : string;
  Model : string;
  Version : string;
  Inputs : list payload;
  Status : JobStatus;
  Progress : fraction;
  TotalItems : Z;
  Completed : Z;
  ResultURL : string;
  ErrorMsg : string;
  CreatedAt : Z;
  UpdatedAt : Z;
  CompletedAt : option Z
}.

(** A row of table [batch_jobs]; the nullable columns are options. *)
Record row : Type := {
  r_id : string;
  r_model : string;
  r_version : string;
  r_inputs : list payload;
  r_status : JobStatus;
  r_progress : fraction;
  r_total_items : Z;
  r_completed : Z;
  r_result_url : option string;
  r_error_msg : option string;
  r_created_at : Z;
  r_updated_at : Z;
  r_completed_at : option Z
}.

(** The table, keyed by its primary key [id]. *)
Abbreviation table := (gmap string row).

(** [CreateJob]: a plain INSERT.  [progress] and [completed] take their
    column defaults, the nullable columns stay NULL.  [initSchema] declares
    [id VARCHAR(255) PRIMARY KEY], so the database rejects a second row with
    the same [id]. *)
Definition CreateJob (exec : db_outcome) (job : BatchJob) (t : table)
  : table * option string :=
  match exec with
  | DbErr e => (t, Some ("failed to create job: " +:+ e))
  | DbOk =>
      match t !! ID job with
      | Some _ =>
          (t, Some "failed to create job: pq: duplicate key value violates unique constraint")
      | None =>
          (<[ID job := {| r_id := ID job; r_model := Model job;
                          r_version := Version job; r_inputs := Inputs job;
                          r_status := Status job; r_progress := (0, 1);
                          r_total_items := TotalItems job; r_completed := 0;
                          r_result_url := None; r_error_msg := None;
                          r_created_at := CreatedAt job;
                          r_updated_at := UpdatedAt job;
                          r_completed_at := None |}]> t, None)
      end
  end.

Definition set_progress (completed : Z) (progress : fraction) (now : Z) (r : row) : row :=
  {| r_id := r_id r; r_model := r_model r; r_version := r_version r;
     r_inputs := r_inputs r; r_status := r_status r; r_progress := progress;
     r_total_items := r_total_items r; r_completed := completed;
     r_result_url := r_result_url r; r_error_msg := r_error_msg r;
     r_created_at := r_created_at r; r_updated_at := now;
     r_completed_at := r_completed_at r |}.

(** [UpdateJobProgress]: UPDATE ... WHERE id = $4 (no row: no change, no error). *)
Definition UpdateJobProgress (exec : db_outcome) (now : Z) (jobID : string)
    (completed : Z) (progress : fraction) (t : table) : table * option string :=
  match exec with
  | DbErr e => (t, Some ("failed to update job progress: " +:+ e))
  | DbOk => (alter (set_progress completed progress now) jobID t, None)
  end.

Definition set_status (status : JobStatus) (resultURL errorMsg : string)
    (updatedAt : Z) (completedAt : option Z) (r : row) : row :=
  {| r_id := r_id r; r_model := r_model r; r_version := r_version r;
     r_inputs := r_inputs r; r_status := status; r_progress := r_progress r;
     r_total_items := r_total_items r; r_completed := r_completed r;
     r_result_url := Some resultURL; r_error_msg := Some errorMsg;
     r_created_at := r_created_at r; r_updated_at := updatedAt;
     r_completed_at := completedAt |}.

(** [UpdateJobStatus]: [completed_at] is set for the two terminal statuses
    and reset to NULL otherwise; [result_url] and [error_msg] are always
    overwritten with the arguments. *)
Definition UpdateJobStatus (exec : db_outcome) (now : clock) (jobID : string)
    (status : JobStatus) (resultURL errorMsg : string) (t : table)
  : table * option string :=
  let completedAt :=
    if bool_decide (status = StatusCompleted) || bool_decide (status = StatusFailed)
    then Some (fst now) else None in
  match exec with
  | DbErr e => (t, Some ("failed to update job status: " +:+ e))
  | DbOk => (alter (set_status status resultURL errorMsg (snd now) completedAt) jobID t, None)
  end.

(** The struct [GetJob] scans a row into: NULL text columns read as [""]. *)
Definition scan (r : row) : BatchJob :=
  {| ID := r_id r; Model := r_model r; Version := r_version r;
     Inputs := r_inputs r; Status := r_status r; Progress := r_progress r;
     TotalItems := r_total_items r; Completed := r_completed r;
     ResultURL := default "" (r_result_url r);
     ErrorMsg := default "" (r_error_msg r);
     CreatedAt := r_created_at r; UpdatedAt := r_updated_at r;
     CompletedAt := r_completed_at r |}.

Definition GetJob (exec : db_outcome) (jobID : string) (t : table)
  : BatchJob + string :=
  match exec with
  | DbErr e => inr ("failed to get job: " +:+ e)
  | DbOk =>
      match t !! jobID with
      | Some r => inl (scan r)
      | None => inr ("job not found: " +:+ jobID)
      end
  end.

Definition terminal (s : JobStatus) : bool :=
  bool_decide (s = StatusCompleted) || bool_decide (s = StatusFailed).

(** The two optional terminal fields, as [GetJob] reads them back. *)
Definition has_result (r : row) : Prop := ResultURL (scan r) ≠ "".
Definition has_error (r : row) : Prop := ErrorMsg (scan r) ≠ "".

(** Rows that differ in the columns [UpdateJobProgress] writes, at most. *)
Definition progress_only (r r' : row) : Prop :=
  r' = set_progress (r_completed r') (r_progress r') (r_updated_at r') r.

End storage.

(** ** Worker pool (batch-worker/internal/worker/pool.go) *)

Module worker.
Import storage.

Record InferenceResult : Type := {
  Input : payload;
  Prediction : option payload;
  Latency : Z;
  Error : string
}.

(** What the orchestrator call of [processInference] runs into. *)
Inductive call_outcome : Type :=
| MarshalFails (e : string)
| NewRequestFails (e : string)
| DoFails (e : string) (elapsed : Z)
| Responds (status : Z) (body : option payload + string) (elapsed : Z).

(** [processInference]: every branch returns the input it was given. *)
Definition processInference (input : payload) (o : call_outcome) : InferenceResult :=
  match o with
  | MarshalFails e =>
      {| Input := input; Prediction := None; Latency := 0;
         Error := "failed to marshal request: " +:+ e |}
  | NewRequestFails e =>
      {| Input := input; Prediction := None; Latency := 0;
         Error := "failed to create request: " +:+ e |}
  | DoFails e ms =>
      {| Input := input; Prediction := None; Latency := ms;
         Error := "request failed: " +:+ e |}
  | Responds status body ms =>
      if bool_decide (status ≠ 200) then
        {| Input := input; Prediction := None; Latency := ms;
           Error := "inference failed with status " +:+ pretty status |}
      else
        match body with
        | inr e =>
            {| Input := input; Prediction := None; Latency := ms;
               Error := "failed to decode response: " +:+ e |}
        | inl prediction =>
            {| Input := input; Prediction := prediction; Latency := ms;
               Error := "" |}
        end
  end.

(** The map [resultData] built for one received result; the key ["error"]
    is present only for a non-empty error. *)
Record ResultData : Type := {
  rd_input : payload;
  rd_prediction : option payload;
  rd_latency_ms : Z;
  rd_error : option string
}.

Definition resultData (r : InferenceResult) : ResultData :=
  {| rd_input := Input r; rd_prediction := Prediction r;
     rd_latency_ms := Latency r;
     rd_error := if bool_decide (Error r ≠ "") then Some (Error r) else None |}.

(** The slice [results]: a slot is [None] (a nil map) until it is written. *)
Abbreviation manifest := (list (option ResultData)).

(** A worker goroutine is waiting on [inputChan], holds a result it is
    about to send on [resultChan], or has returned. *)
Inductive wstate : Type :=
| Idle
| Holding (index : nat) (result : InferenceResult)
| Done.

Definition is_done (w : wstate) : bool :=
  match w with Done => true | _ => false end.

(** State of one [ProcessJob] call between starting the goroutines and
    leaving the collection loop. *)
Record pstate : Type := {
  ctx_done : bool;
  sender : option (list (nat * payload));
  inputChan : list (nat * payload);
  inputClosed : bool;
  workers : list wstate;
  resultChan : list (nat * InferenceResult);
  results : manifest;
  completed : Z;
  errorCount : Z;
  pg : table;
  panicked : bool
}.

Definition indexed (inputs : list payload) : list (nat * payload) :=
  imap (λ i x, (i, x)) inputs.

Definition init (size : Z) (job : BatchJob) (t : table) : pstate :=
  {| ctx_done := false;
     sender := Some (indexed (Inputs job));
     inputChan := []; inputClosed := false;
     workers := replicate (Z.to_nat size) Idle;
     resultChan := [];
     results := replicate (length (Inputs job)) None;
     completed := 0; errorCount := 0;
     pg := t; panicked := false |}.

(** What the scheduler lets happen next. *)
Inductive action : Type :=
| Cancel
| Send
| SenderStop
| CloseInput
| Receive (w : nat) (o : call_outcome)
| Emit (w : nat)
| Exit (w : nat)
| Abandon (w : nat)
| Collect (exec : db_outcome) (now : Z).

Definition set_ctx_done (s : pstate) : pstate :=
  {| ctx_done := true; sender := sender s; inputChan := inputChan s;
     inputClosed := inputClosed s; workers := workers s;
     resultChan := resultChan s; results := results s;
     completed := completed s; errorCount := errorCount s;
     pg := pg s; panicked := panicked s |}.

Definition set_input (snd : option (list (nat * payload)))
    (ch : list (nat * payload)) (closed : bool) (s : pstate) : pstate :=
  {| ctx_done := ctx_done s; sender := snd; inputChan := ch;
     inputClosed := closed; workers := workers s;
     resultChan := resultChan s; results := results s;
     completed := completed s; errorCount := errorCount s;
     pg := pg s; panicked := panicked s |}.

Definition set_worker (w : nat) (st : wstate) (s : pstate) : pstate :=
  {| ctx_done := ctx_done s; sender := sender s; inputChan := inputChan s;
     inputClosed := inputClosed s; workers := <[w := st]> (workers s);
     resultChan := resultChan s; results := results s;
     completed := completed s; errorCount := errorCount s;
     pg := pg s; panicked := panicked s |}.

Definition set_resultChan (ch : list (nat * InferenceResult)) (s : pstate) : pstate :=
  {| ctx_done := ctx_done s; sender := sender s; inputChan := inputChan s;
     inputClosed := inputClosed s; workers := workers s;
     resultChan := ch; results := results s;
     completed := completed s; errorCount := errorCount s;
     pg := pg s; panicked := panicked s |}.

Definition max (a b : Z) : Z := if bool_decide (a > b) then a else b.

(** One iteration of [for result := range resultChan]. *)
Definition collect (job : BatchJob) (exec : db_outcome) (now : Z)
    (index : nat) (result : InferenceResult) (rest : list (nat * InferenceResult))
    (s : pstate) : pstate :=
  let completed' := completed s + 1 in
  let progress := (completed', TotalItems job) in
  let errorCount' :=
    if bool_decide (Error result ≠ "") then errorCount s + 1 else errorCount s in
  if bool_decide (index < length (results s))%nat then
    let pg' :=
      if bool_decide (Z.rem completed' (max 1 (Z.quot (TotalItems job) 10)) = 0)
         || bool_decide (completed' = TotalItems job)
      then fst (UpdateJobProgress exec now (ID job) completed' progress (pg s))
      else pg s in
    {| ctx_done := ctx_done s; sender := sender s; inputChan := inputChan s;
       inputClosed := inputClosed s; workers := workers s;
       resultChan := rest;
       results := <[index := Some (resultData result)]> (results s);
       completed := completed'; errorCount := errorCount';
       pg := pg'; panicked := false |}
  else
    (* index out of range: the goroutine panics *)
    {| ctx_done := ctx_done s; sender := sender s; inputChan := inputChan s;
       inputClosed := inputClosed s; workers := workers s;
       resultChan := rest; results := results s;
       completed := completed'; errorCount := errorCount';
       pg := pg s; panicked := true |}.

(** [step job a s] is the state after [a], or [None] when [a] cannot
    happen in [s].  Both channels are buffered with capacity
    [len(job.Inputs)]; a send needs room. *)
Definition step (job : BatchJob) (a : action) (s : pstate) : option pstate :=
  if panicked s then None else
  let cap := length (Inputs job) in
  match a with
  | Cancel => Some (set_ctx_done s)
  | Send =>
      match sender s with
      | Some (x :: rest) =>
          if bool_decide (length (inputChan s) < cap)%nat
          then Some (set_input (Some rest) (inputChan s ++ [x]) (inputClosed s) s)
          else None
      | _ => None
      end
  | SenderStop =>
      match sender s with
      | Some (_ :: _) =>
          if ctx_done s then Some (set_input None (inputChan s) (inputClosed s) s)
          else None
      | _ => None
      end
  | CloseInput =>
      match sender s with
      | Some [] => Some (set_input None (inputChan s) true s)
      | _ => None
      end
  | Receive w o =>
      match workers s !! w, inputChan s with
      | Some Idle, (i, x) :: rest =>
          Some (set_worker w (Holding i (processInference x o))
                  (set_input (sender s) rest (inputClosed s) s))
      | _, _ => None
      end
  | Emit w =>
      match workers s !! w with
      | Some (Holding i r) =>
          if bool_decide (length (resultChan s) < cap)%nat
          then Some (set_worker w Idle (set_resultChan (resultChan s ++ [(i, r)]) s))
          else None
      | _ => None
      end
  | Exit w =>
      match workers s !! w, inputChan s with
      | Some Idle, [] =>
          if inputClosed s then Some (set_worker w Done s) else None
      | _, _ => None
      end
  | Abandon w =>
      match workers s !! w with
      | Some Idle | Some (Holding _ _) =>
          if ctx_done s then Some (set_worker w Done s) else None
      | _ => None
      end
  | Collect exec now =>
      match resultChan s with
      | (i, r) :: rest => Some (collect job exec now i r rest s)
      | [] => None
      end
  end.

(** Running a schedule. *)
Fixpoint run (job : BatchJob) (sched : list action) (s : pstate) : option pstate :=
  match sched with
  | [] => Some s
  | a :: sched' =>
      match step job a s with
      | Some s' => run job sched' s'
      | None => None
      end
  end.

(** [wg.Wait()] has returned, [resultChan] is closed and drained: the
    collection loop is left. *)
Definition drained (s : pstate) : bool :=
  forallb is_done (workers s) && bool_decide (resultChan s = []) && negb (panicked s).

(** What [UploadResults] returns through [MinIOStoreInterface]. *)
Inductive upload_outcome : Type :=
| Uploaded (url : string)
| UploadFails (err : string).

(** The calls made on the object store: job id and manifest passed. *)
Abbreviation upload_log := (list (string * manifest)).

Record Pool : Type := { size : Z }.

(** Everything outside the process that one [ProcessJob] call meets. *)
Record environment : Type := {
  exec_processing : db_outcome;
  now_processing : clock;
  schedule : list action;
  upload : upload_outcome;
  exec_final : db_outcome;
  now_final : clock
}.

Record world : Type := { jobs : table; uploads : upload_log }.

Definition finalStatus (errorCount totalItems : Z) : JobStatus :=
  if bool_decide (errorCount > 0) && bool_decide (errorCount = totalItems)
  then StatusFailed else StatusCompleted.

Definition errorMsg (errorCount totalItems : Z) : string :=
  if bool_decide (errorCount > 0)
  then pretty errorCount +:+ "/" +:+ pretty totalItems +:+ " items failed"
  else "".

(** [ProcessJob].  The result is [None] when [schedule] is not an execution
    of the goroutines that leaves the collection loop; otherwise the new
    world, the state in which the loop was left (if it was entered) and the
    returned error. *)
Definition ProcessJob (p : Pool) (env : environment) (job : BatchJob) (w : world)
  : option (world * option pstate * option string) :=
  match UpdateJobStatus (exec_processing env) (now_processing env)
          (ID job) StatusProcessing "" "" (jobs w) with
  | (_, Some err) => Some (w, None, Some ("failed to update job status: " +:+ err))
  | (t1, None) =>
      match run job (schedule env) (init (size p) job t1) with
      | None => None
      | Some s =>
          if negb (drained s) then None else
          let log := uploads w ++ [(ID job, results s)] in
          match upload env with
          | UploadFails err =>
              let t2 := fst (UpdateJobStatus (exec_final env) (now_final env)
                               (ID job) StatusFailed "" err (pg s)) in
              Some ({| jobs := t2; uploads := log |}, Some s,
                    Some ("failed to upload results: " +:+ err))
          | Uploaded resultURL =>
              match UpdateJobStatus (exec_final env) (now_final env) (ID job)
                      (finalStatus (errorCount s) (TotalItems job)) resultURL
                      (errorMsg (errorCount s) (TotalItems job)) (pg s) with
              | (t2, Some err) =>
                  Some ({| jobs := t2; uploads := log |}, Some s,
                        Some ("failed to update final status: " +:+ err))
              | (t2, None) => Some ({| jobs := t2; uploads := log |}, Some s, None)
              end
          end
      end
  end.

End worker.

(** ** Invariants of the pool's transition system *)

Module pool_inv.
Import storage worker.

Definition holding (ws : list wstate) : list (nat * InferenceResult) :=
  omap (λ w, match w with Holding i r => Some (i, r) | _ => None end) ws.

Definition unsent (s : pstate) : list (nat * payload) := default [] (sender s).

Definition item (ir : nat * InferenceResult) : nat * payload := (ir.1, Input ir.2).

(** The items that are somewhere between the sender and the collector,
    each with the input it was created from. *)
Definition pending (s : pstate) : list (nat * payload) :=
  unsent s ++ inputChan s ++ (item <$> holding (workers s)) ++ (item <$> resultChan s).

Definition filled (o : option ResultData) : bool :=
  match o with Some _ => true | None => false end.

Definition errored (o : option ResultData) : bool :=
  match o with
  | Some d => match rd_error d with Some _ => true | None => false end
  | None => false
  end.

Definition count {A} (f : A → bool) (l : list A) : Z :=
  Z.of_nat (length (List.filter f l)).

Record inv (job : BatchJob) (s : pstate) : Prop := {
  inv_length : length (results s) = length (Inputs job);
  inv_nodup : NoDup (pending s).*1;
  inv_item : ∀ i x, (i, x) ∈ pending s →
             Inputs job !! i = Some x ∧ results s !! i = Some None;
  inv_slot : ∀ i d, results s !! i = Some (Some d) → Inputs job !! i = Some (rd_input d);
  inv_completed : completed s = count filled (results s);
  inv_errorCount : errorCount s = count errored (results s);
  inv_panicked : panicked s = false;
  inv_closed : inputClosed s = true → sender s = None;
  inv_cover : ctx_done s = false → ∀ i, (i < length (Inputs job))%nat →
              i ∈ (pending s).*1 ∨ ∃ d, results s !! i = Some (Some d);
  inv_exit : ctx_done s = false → Done ∈ workers s →
             sender s = None ∧ inputChan s = []
}.

(** What the final [UpdateJobStatus] of [ProcessJob] is called with. *)
Definition verdict (env : environment) (job : BatchJob) (s : pstate)
  : JobStatus * string * string :=
  match upload env with
  | UploadFails err => (StatusFailed, "", err)
  | Uploaded resultURL =>
      (finalStatus (errorCount s) (TotalItems job), resultURL,
       errorMsg (errorCount s) (TotalItems job))
  end.

(** The table the goroutines start from: the job's row reset to [processing]. *)
Definition processing_table (env : environment) (job : BatchJob) (t : table) : table :=
  alter (set_status StatusProcessing "" "" (snd (now_processing env)) None) (ID job) t.

(** What an action other than [Collect] leaves untouched. *)
Definition frame (s s' : pstate) : Prop :=
  results s' = results s ∧ completed s' = completed s ∧
  errorCount s' = errorCount s ∧ panicked s' = panicked s ∧
  length (workers s') = length (workers s).

(** The schedule in which the sender first fills [inputChan], worker 0
    then serves the items one after the other, each result being collected
    before the next item is taken, and finally every worker returns.  A pool
    without workers has nothing to schedule. *)
Definition serve (o : call_outcome) : list action :=
  [Receive 0 o; Emit 0; Collect DbOk 0].

Definition sequential (size : Z) (n : nat) (os : list call_outcome) : list action :=
  if bool_decide (0 < size) then
    replicate n Send ++ [CloseInput] ++ (os ≫= serve)
    ++ (Exit <$> seq 0 (Z.to_nat size))
  else [].

End pool_inv.

(** ** Go's [time] package *)

Module gotime.

(** Go's [time.Duration]: a count of nanoseconds. *)
Definition Duration : Type := Z.
Definition Nanosecond : Duration := 1.
Definition Microsecond : Duration := 1000 * Nanosecond.
Definition Millisecond : Duration := 1000 * Microsecond.
Definition Second : Duration := 1000 * Millisecond.
Definition Minute : Duration := 60 * Second.
Definition Hour : Duration := 60 * Minute.

End gotime.

(** ** Object store (batch-worker/internal/storage/minio.go) *)

Module objstore.
Import gotime.

(** A presigned GET URL: what it points at and for how many seconds the
    signature is accepted (the [X-Amz-Expires] query parameter). *)
Record signed_url : Type := {
  su_bucket : string;
  su_object : string;
  su_expires_seconds : Z
}.

(** [PresignedGetObject] of the minio-go v7 client the store imports (a
    dependency, not part of the repository): its [expires] parameter is a
    [time.Duration]; the client turns it into whole seconds and refuses a
    value under one second or over seven days. *)
Definition PresignedGetObject (bucket object : string) (expires : Duration)
  : signed_url + string :=
  let expireSeconds := Z.quot expires Second in
  if bool_decide (expireSeconds < 1) then
    inr "Expires cannot be lesser than 1 second."
  else if bool_decide (expireSeconds > 604800) then
    inr "Expires cannot be greater than 7 days."
  else inl {| su_bucket := bucket; su_object := object;
              su_expires_seconds := expireSeconds |}.

(** The bucket: object name to stored manifest. *)
Record MinIOStore (M : Type) : Type := {
  bucket : string;
  objects : gmap string M
}.
Arguments bucket {M} _.
Arguments objects {M} _.

(** Outcomes of [json.MarshalIndent] and of the client's [PutObject]. *)
Record upload_env : Type := {
  marshal_error : option string;
  put_error : option string
}.

(** The expiry argument of the source, [7*24*3600]: an untyped constant
    converted to the parameter's type [time.Duration]. *)
Definition presign_expires : Duration := 7 * 24 * 3600.

(** [UploadResults]: marshal, put under [results/{jobID}.json], presign.
    The Go function returns [url.String()]; the signed URL is kept as a
    record here. *)
Definition UploadResults {M} (env : upload_env) (jobID : string) (results : M)
    (s : MinIOStore M) : MinIOStore M * (signed_url + string) :=
  match marshal_error env with
  | Some e => (s, inr ("failed to marshal results: " +:+ e))
  | None =>
      let objectName := "results/" +:+ jobID +:+ ".json" in
      match put_error env with
      | Some e => (s, inr ("failed to upload results: " +:+ e))
      | None =>
          let s' := {| bucket := bucket s;
                       objects := <[objectName := results]> (objects s) |} in
          match PresignedGetObject (bucket s) objectName presign_expires with
          | inr e => (s', inr ("failed to generate presigned URL: " +:+ e))
          | inl url => (s', inl url)
          end
      end
  end.

(** What the pool sees of [UploadResults] through [MinIOStoreInterface]:
    the rendered URL or the error text. *)
Definition rendered (render : signed_url → string) (r : signed_url + string)
  : string + string :=
  match r with
  | inl u => inl (render u)
  | inr e => inr e
  end.

Definition as_outcome (r : string + string) : worker.upload_outcome :=
  match r with
  | inl u => worker.Uploaded u
  | inr e => worker.UploadFails e
  end.

(** [GetResults].  [GetObject] of the client opens the object lazily: it
    fails for a malformed bucket or object name only ([get_error]); a
    missing object is noticed by the first read, that is by the JSON
    decoder.  What the bucket holds was written by [UploadResults], so the
    stored bytes decode to the manifest that was marshalled. *)
Definition GetResults {M} (get_error : option string) (jobID : string)
    (s : MinIOStore M) : M + string :=
  let objectName := "results/" +:+ jobID +:+ ".json" in
  match get_error with
  | Some e => inr ("failed to get object: " +:+ e)
  | None =>
      match objects s !! objectName with
      | Some results => inl results
      | None => inr "failed to decode results: The specified key does not exist."
      end
  end.

End objstore.

(** ** Job consumer (batch-worker/internal/consumer/kafka.go) *)

Module consumer.
Import storage worker.

(** A log message: [Value] is what [json.Unmarshal] makes of the bytes,
    [None] when it fails. *)
Record ConsumerMessage : Type := {
  Key : string;
  Value : option payload;
  Offset : Z
}.

(** [inputsRaw, _ := jobMsg["inputs"].([]interface{})] and the conversion
    loop, which keeps the elements that are objects. *)
Definition inputs_of (jobMsg : payload) : list payload :=
  match jget "inputs" jobMsg with
  | Some (JArr inputsRaw) =>
      omap (λ input, match input with JObj inputMap => Some inputMap | _ => None end)
           inputsRaw
  | _ => []
  end.

(** The job record built from a descriptor. *)
Definition job_of (jobMsg : payload) (now : clock) : BatchJob :=
  let inputs := inputs_of jobMsg in
  {| ID := jstring "job_id" jobMsg;
     Model := jstring "model" jobMsg;
     Version := jstring "version" jobMsg;
     Inputs := inputs;
     Status := StatusPending;
     Progress := (0, 1);
     TotalItems := Z.of_nat (length inputs);
     Completed := 0;
     ResultURL := ""; ErrorMsg := "";
     CreatedAt := fst now; UpdatedAt := snd now;
     CompletedAt := None |}.

Record environment : Type := {
  now_create : clock;
  exec_create : db_outcome;
  process : worker.environment
}.

(** The session: offsets marked as processed. *)
Record session : Type := { marked : list Z; store : world }.

(** One iteration of the loop of [ConsumeClaim] on a received message.
    [None] only when the schedule inside [process] is not an execution. *)
Definition ConsumeClaim (pool : Pool) (env : environment) (message : ConsumerMessage)
    (s : session) : option session :=
  let mark w := {| marked := marked s ++ [Offset message]; store := w |} in
  match Value message with
  | None => Some (mark (store s))
  | Some jobMsg =>
      let job := job_of jobMsg (now_create env) in
      match CreateJob (exec_create env) job (jobs (store s)) with
      | (_, Some _) => Some (mark (store s))
      | (t, None) =>
          match ProcessJob pool (process env) job
                  {| jobs := t; uploads := uploads (store s) |} with
          | None => None
          | Some (w', _, _) => Some (mark w')
          end
      end
  end.

(** The loop of [ConsumeClaim] over the messages a claim delivers, each
    with what its handling meets. *)
Fixpoint ConsumeClaims (pool : Pool) (deliveries : list (environment * ConsumerMessage))
    (s : session) : option session :=
  match deliveries with
  | [] => Some s
  | (env, message) :: rest =>
      match ConsumeClaim pool env message s with
      | Some s' => ConsumeClaims pool rest s'
      | None => None
      end
  end.

End consumer.

(** ** Circuit breaker (github.com/sony/gobreaker, imported by the router)

    The breaker is the router's dependency (v0.5.0 in model-router/go.mod),
    not part of the repository; the router fixes its settings and the
    function it protects.  The module follows the package: a generation of
    counters per state, cleared every [Interval] while closed; open for
    [Timeout]; at most [MaxRequests] calls admitted while half-open.  It is
    the state machine of section 4.1 of the specification. *)

Module gobreaker.
Import gotime.

Inductive State : Type :=
| StateClosed
| StateHalfOpen
| StateOpen.

#[global] Instance State_eq_dec : EqDecision State.
Proof. solve_decision. Defined.

(** [uint32] arithmetic wraps. *)
Definition u32 (x : Z) : Z := x mod 2 ^ 32.
Definition u64 (x : Z) : Z := x mod 2 ^ 64.

Record Counts : Type := {
  Requests : Z;
  TotalSuccesses : Z;
  TotalFailures : Z;
  ConsecutiveSuccesses : Z;
  ConsecutiveFailures : Z
}.

Definition Counts_onRequest (c : Counts) : Counts :=
  {| Requests := u32 (Requests c + 1);
     TotalSuccesses := TotalSuccesses c; TotalFailures := TotalFailures c;
     ConsecutiveSuccesses := ConsecutiveSuccesses c;
     ConsecutiveFailures := ConsecutiveFailures c |}.

Definition Counts_onSuccess (c : Counts) : Counts :=
  {| Requests := Requests c;
     TotalSuccesses := u32 (TotalSuccesses c + 1); TotalFailures := TotalFailures c;
     ConsecutiveSuccesses := u32 (ConsecutiveSuccesses c + 1);
     ConsecutiveFailures := 0 |}.

Definition Counts_onFailure (c : Counts) : Counts :=
  {| Requests := Requests c;
     TotalSuccesses := TotalSuccesses c; TotalFailures := u32 (TotalFailures c + 1);
     ConsecutiveSuccesses := 0;
     ConsecutiveFailures := u32 (ConsecutiveFailures c + 1) |}.

Definition Counts_clear : Counts :=
  {| Requests := 0; TotalSuccesses := 0; TotalFailures := 0;
     ConsecutiveSuccesses := 0; ConsecutiveFailures := 0 |}.

(** The fields of [Settings] the router can set; an unset function is [None]. *)
Record Settings : Type := {
  Name : string;
  MaxRequests : Z;
  Interval : Duration;
  Timeout : Duration;
  ReadyToTrip : option (Counts → bool);
  IsSuccessful : option (option string → bool)
}.

Record CircuitBreaker : Type := {
  name : string;
  maxRequests : Z;
  interval : Duration;
  timeout : Duration;
  readyToTrip : Counts → bool;
  isSuccessful : option string → bool;
  state : State;
  generation : Z;
  counts : Counts;
  expiry : option Z
}.

Definition defaultInterval : Duration := 0 * Second.
Definition defaultTimeout : Duration := 60 * Second.
Definition defaultReadyToTrip (c : Counts) : bool := bool_decide (ConsecutiveFailures c > 5).

(** Without [IsSuccessful] a request succeeded exactly when its error is nil. *)
Definition defaultIsSuccessful (err : option string) : bool :=
  match err with None => true | Some _ => false end.

Definition ErrTooManyRequests : string := "too many requests".
Definition ErrOpenState : string := "circuit breaker is open".

Definition toNewGeneration (cb : CircuitBreaker) (now : Z) : CircuitBreaker :=
  {| name := name cb; maxRequests := maxRequests cb; interval := interval cb;
     timeout := timeout cb; readyToTrip := readyToTrip cb;
     isSuccessful := isSuccessful cb; state := state cb;
     generation := u64 (generation cb + 1);
     counts := Counts_clear;
     expiry :=
       match state cb with
       | StateClosed =>
           if bool_decide (interval cb = 0) then None else Some (now + interval cb)
       | StateOpen => Some (now + timeout cb)
       | StateHalfOpen => None
       end |}.

Definition with_state (cb : CircuitBreaker) (st : State) : CircuitBreaker :=
  {| name := name cb; maxRequests := maxRequests cb; interval := interval cb;
     timeout := timeout cb; readyToTrip := readyToTrip cb;
     isSuccessful := isSuccessful cb; state := st;
     generation := generation cb; counts := counts cb; expiry := expiry cb |}.

Definition with_counts (cb : CircuitBreaker) (c : Counts) : CircuitBreaker :=
  {| name := name cb; maxRequests := maxRequests cb; interval := interval cb;
     timeout := timeout cb; readyToTrip := readyToTrip cb;
     isSuccessful := isSuccessful cb; state := state cb;
     generation := generation cb; counts := c; expiry := expiry cb |}.

Definition setState (cb : CircuitBreaker) (st : State) (now : Z) : CircuitBreaker :=
  if bool_decide (state cb = st) then cb
  else toNewGeneration (with_state cb st) now.

Definition NewCircuitBreaker (st : Settings) (now : Z) : CircuitBreaker :=
  toNewGeneration
    {| name := Name st;
       maxRequests := if bool_decide (MaxRequests st = 0) then 1 else MaxRequests st;
       interval := if bool_decide (Interval st <= 0) then defaultInterval else Interval st;
       timeout := if bool_decide (Timeout st <= 0) then defaultTimeout else Timeout st;
       readyToTrip := default defaultReadyToTrip (ReadyToTrip st);
       isSuccessful := default defaultIsSuccessful (IsSuccessful st);
       state := StateClosed; generation := 0; counts := Counts_clear;
       expiry := None |}
    now.

(** [currentState]: a closed breaker whose interval has expired starts a
    new generation; an open one whose timeout has expired becomes half-open. *)
Definition currentState (cb : CircuitBreaker) (now : Z) : CircuitBreaker :=
  match state cb, expiry cb with
  | StateClosed, Some e => if bool_decide (e < now) then toNewGeneration cb now else cb
  | StateOpen, Some e => if bool_decide (e < now) then setState cb StateHalfOpen now else cb
  | StateOpen, None => setState cb StateHalfOpen now
  | _, _ => cb
  end.

Definition beforeRequest (cb : CircuitBreaker) (now : Z)
  : CircuitBreaker * Z * option string :=
  let cb := currentState cb now in
  if bool_decide (state cb = StateOpen) then (cb, generation cb, Some ErrOpenState)
  else if bool_decide (state cb = StateHalfOpen)
          && bool_decide (Requests (counts cb) >= maxRequests cb)
  then (cb, generation cb, Some ErrTooManyRequests)
  else (with_counts cb (Counts_onRequest (counts cb)), generation cb, None).

Definition onSuccess (cb : CircuitBreaker) (now : Z) : CircuitBreaker :=
  match state cb with
  | StateClosed => with_counts cb (Counts_onSuccess (counts cb))
  | StateHalfOpen =>
      let cb := with_counts cb (Counts_onSuccess (counts cb)) in
      if bool_decide (ConsecutiveSuccesses (counts cb) >= maxRequests cb)
      then setState cb StateClosed now else cb
  | StateOpen => cb
  end.

Definition onFailure (cb : CircuitBreaker) (now : Z) : CircuitBreaker :=
  match state cb with
  | StateClosed =>
      let cb := with_counts cb (Counts_onFailure (counts cb)) in
      if readyToTrip cb (counts cb) then setState cb StateOpen now else cb
  | StateHalfOpen => setState cb StateOpen now
  | StateOpen => cb
  end.

Definition afterRequest (cb : CircuitBreaker) (now : Z) (before : Z) (success : bool)
  : CircuitBreaker :=
  let cb := currentState cb now in
  if bool_decide (generation cb ≠ before) then cb
  else if success then onSuccess cb now else onFailure cb now.

(** [Execute]: [req] returns a value and an error, as the Go closure does;
    [t0] and [t1] are the clock before and after it ran. *)
Definition Execute {A} (cb : CircuitBreaker) (t0 t1 : Z) (req : unit → A * option string)
  : CircuitBreaker * option A * option string :=
  match beforeRequest cb t0 with
  | (cb, _, Some err) => (cb, None, Some err)
  | (cb, generation, None) =>
      let '(result, err) := req () in
      (afterRequest cb t1 generation (isSuccessful cb err), Some result, err)
  end.

End gobreaker.

(** ** Model router (model-router/internal/router/router.go, handlers) *)

(** An HTTP response as a handler writes it: status code and JSON body. *)
Record http_response : Type := { status : Z; body : json }.

(** [gin.H{"error": msg}] *)
Definition error_body (msg : string) : json := JObj [("error", JStr msg)].

Module router.
Import gotime.

Record Backend : Type := {
  URL : string;
  CircuitBreaker : gobreaker.CircuitBreaker;
  HealthStatus : bool;
  LastCheck : Z;
  AvgLatency : Duration
}.

(** [backends]: model -> version -> backends. *)
Abbreviation ModelRouter := (gmap string (gmap string (list Backend))).

Definition NewModelRouter : ModelRouter := ∅.

(** The [ReadyToTrip] closure.  The source compares the float64 quotient
    [TotalFailures / Requests] with [0.6]; for 32-bit counters the rounded
    comparison agrees with the exact one, which is written here. *)
Definition readyToTrip (counts : gobreaker.Counts) : bool :=
  bool_decide (gobreaker.Requests counts >= 3)
  && bool_decide (5 * gobreaker.TotalFailures counts >= 3 * gobreaker.Requests counts).

(** The [Settings] literal of [RegisterBackend]: no [IsSuccessful]. *)
Definition settings (model version : string) : gobreaker.Settings :=
  {| gobreaker.Name := model +:+ "-" +:+ version;
     gobreaker.MaxRequests := 3;
     gobreaker.Interval := 10 * Second;
     gobreaker.Timeout := 30 * Second;
     gobreaker.ReadyToTrip := Some readyToTrip;
     gobreaker.IsSuccessful := None |}.

(** [RegisterBackend]: always appends a fresh backend to the list of the key. *)
Definition RegisterBackend (now : Z) (model version url : string) (r : ModelRouter)
  : ModelRouter :=
  let versions := default ∅ (r !! model) in
  let cb := gobreaker.NewCircuitBreaker (settings model version) now in
  let backend := {| URL := url; CircuitBreaker := cb; HealthStatus := true;
                    LastCheck := now; AvgLatency := 0 |} in
  <[model := <[version := default [] (versions !! version) ++ [backend]]> versions]> r.

(** The list a request for [(model, version)] is routed over. *)
Definition lookup (model version : string) (r : ModelRouter) : option (list Backend) :=
  r !! model ≫= λ versions, versions !! version.

(** What the HTTP call of [executeRequest] runs into. *)
Inductive http_outcome : Type :=
| MarshalError (e : string)
| RequestError (e : string)
| TransportError (e : string)
| Response (code : Z) (raw : string) (decoded : payload + string).

Record call_env : Type := {
  pick : nat;
  outcome : http_outcome;
  t_before : Z;
  t_after : Z;
  latency : Duration
}.

Definition with_health (b : Backend) (h : bool) : Backend :=
  {| URL := URL b; CircuitBreaker := CircuitBreaker b; HealthStatus := h;
     LastCheck := LastCheck b; AvgLatency := AvgLatency b |}.

Definition with_breaker (b : Backend) (cb : gobreaker.CircuitBreaker) : Backend :=
  {| URL := URL b; CircuitBreaker := cb; HealthStatus := HealthStatus b;
     LastCheck := LastCheck b; AvgLatency := AvgLatency b |}.

(** [executeRequest]: the backend as the call leaves it, the result and the
    error.  Every status other than 200 is returned as an error. *)
Definition executeRequest (env : call_env) (backend : Backend)
  : Backend * option payload * option string :=
  match outcome env with
  | MarshalError e => (backend, None, Some e)
  | RequestError e => (backend, None, Some e)
  | TransportError e => (with_health backend false, None, Some e)
  | Response code raw decoded =>
      if bool_decide (code ≠ 200) then
        (backend, None,
         Some ("backend returned status " +:+ pretty code +:+ ": " +:+ raw))
      else
        match decoded with
        | inr e => (backend, None, Some e)
        | inl result =>
            ({| URL := URL backend; CircuitBreaker := CircuitBreaker backend;
                HealthStatus := true; LastCheck := t_after env;
                AvgLatency := latency env |}, Some result, None)
        end
  end.

(** The outcomes for which [executeRequest] returns an error: all but a
    200 response whose body decodes. *)
Definition fails (o : http_outcome) : bool :=
  match o with
  | Response code _ (inl _) => bool_decide (code ≠ 200)
  | _ => true
  end.

(** [selectBackend]: [rand.Intn(len(backends))]. *)
Definition selectBackend (env : call_env) (backends : list Backend) : nat :=
  (pick env mod length backends)%nat.

(** [backend.CircuitBreaker.Execute(func() { return r.executeRequest(...) })]:
    the breaker afterwards, what the closure returned if it ran, the error. *)
Definition guarded (env : call_env) (backend : Backend)
  : gobreaker.CircuitBreaker * option (Backend * option payload) * option string :=
  gobreaker.Execute (CircuitBreaker backend) (t_before env) (t_after env)
    (λ _, let '(b, res, err) := executeRequest env backend in ((b, res), err)).

(** [RouteRequest]. *)
Definition RouteRequest (env : call_env) (model version : string) (r : ModelRouter)
  : ModelRouter * (payload + string) :=
  match r !! model with
  | None => (r, inr ("model not found: " +:+ model))
  | Some versions =>
      match versions !! version with
      | None | Some [] =>
          (r, inr ("version not found: " +:+ model +:+ "/" +:+ version))
      | Some backends =>
          let i := selectBackend env backends in
          match backends !! i with
          | None => (r, inr "index out of range") (* i < len(backends): not reached *)
          | Some backend =>
              let '(cb, result, err) := guarded env backend in
              let backend' :=
                match result with
                | Some (b, _) => with_breaker b cb
                | None => with_breaker backend cb
                end in
              let r' := <[model := <[version := <[i := backend']> backends]> versions]> r in
              match err, result with
              | Some e, _ => (r', inr e)
              | None, Some (_, Some res) => (r', inl res)
              | None, _ => (r', inl [])
              end
          end
      end
  end.

(** The body of [POST /v1/route] after JSON decoding; [Input] is [None]
    for a nil map (key absent or null). *)
Record RouteBody : Type := {
  RequestID : string;
  Model : string;
  Version : string;
  Input : option payload
}.

(** [binding:"required"] as gin's validator implements it: a string must
    be non-empty, a map non-nil. *)
Definition bind (req : option RouteBody) : option RouteBody :=
  match req with
  | Some b =>
      if bool_decide (Model b ≠ "") && bool_decide (Input b ≠ None)
      then Some b else None
  | None => None
  end.

(** [RouteInference]: every routing error is answered with 503. *)
Definition RouteInference (env : call_env) (req : option RouteBody) (r : ModelRouter)
  : ModelRouter * http_response :=
  match bind req with
  | None => (r, {| status := 400; body := error_body "invalid request" |})
  | Some b =>
      let version := if bool_decide (Version b = "") then "v1" else Version b in
      match RouteRequest env (Model b) version r with
      | (r', inr err) => (r', {| status := 503; body := error_body err |})
      | (r', inl result) => (r', {| status := 200; body := JObj result |})
      end
  end.

End router.

(** ** API gateway (api-gateway/internal/handlers, middleware) *)

Module gateway.
Import gotime.

(** [InferenceRequest] after JSON decoding. *)
Record InferenceRequest : Type := {
  Model : string;
  Version : string;
  Input : option payload
}.

(** [BatchInferenceRequest] after JSON decoding; [Inputs] is [None] for a
    nil slice (key absent or null) and [Some []] for an empty array. *)
Record BatchInferenceRequest : Type := {
  bModel : string;
  bVersion : string;
  Inputs : option (list payload)
}.

Record InferenceHandler : Type := {
  routerURL : string;
  kafkaTopic : string
}.

(** The message of the validator for a field that fails [required]. *)
Definition required_error (struct field : string) : string :=
  "Key: '" +:+ struct +:+ "." +:+ field +:+ "' Error:Field validation for '"
  +:+ field +:+ "' failed on the 'required' tag".

Definition newline : string := String (Ascii.ascii_of_nat 10) "".

Definition join_errors (errs : list string) : string :=
  match errs with
  | [] => ""
  | e :: es => foldl (λ acc x, acc +:+ newline +:+ x) e es
  end.

(** [ShouldBindJSON] on [InferenceRequest]: [required] asks for a non-empty
    string and for a map that is not nil.  The argument is the decoded body
    or the decoder's error. *)
Definition bind_infer (req : InferenceRequest + string) : InferenceRequest + string :=
  match req with
  | inr e => inr e
  | inl r =>
      let errs :=
        (if bool_decide (Model r = "") then [required_error "InferenceRequest" "Model"] else [])
        ++ (if bool_decide (Input r = None) then [required_error "InferenceRequest" "Input"] else []) in
      match errs with
      | [] => inl r
      | _ => inr (join_errors errs)
      end
  end.

(** [ShouldBindJSON] on [BatchInferenceRequest].  For a slice, map or
    pointer gin's validator takes [required] to mean "not nil": the empty
    array of a body decodes to an empty slice that is not nil and passes. *)
Definition bind_batch (req : BatchInferenceRequest + string)
  : BatchInferenceRequest + string :=
  match req with
  | inr e => inr e
  | inl r =>
      let errs :=
        (if bool_decide (bModel r = "") then [required_error "BatchInferenceRequest" "Model"] else [])
        ++ (if bool_decide (Inputs r = None) then [required_error "BatchInferenceRequest" "Inputs"] else []) in
      match errs with
      | [] => inl r
      | _ => inr (join_errors errs)
      end
  end.

(** [gin.H{"error": "invalid request", "details": err.Error()}] *)
Definition invalid_request (details : string) : json :=
  JObj [("details", JStr details); ("error", JStr "invalid request")].

Record infer_env : Type := {
  requestID : string;
  marshal_error : option string;
  request_error : option string;
  elapsed_ms : Z
}.

(** [RealTimeInference]. [forward] is the HTTP call to the router's
    [/v1/route]: the router's response or a transport error. *)
Definition RealTimeInference (h : InferenceHandler) (env : infer_env)
    (forward : router.RouteBody → http_response + string)
    (req : InferenceRequest + string) : http_response :=
  match bind_infer req with
  | inr details => {| status := 400; body := invalid_request details |}
  | inl r =>
      let version := if bool_decide (Version r = "") then "v1" else Version r in
      match marshal_error env, request_error env with
      | Some _, _ | None, Some _ =>
          {| status := 500; body := error_body "internal error" |}
      | None, None =>
          match forward {| router.RequestID := requestID env;
                           router.Model := Model r;
                           router.Version := version;
                           router.Input := Input r |} with
          | inr _ => {| status := 503; body := error_body "service unavailable" |}
          | inl resp =>
              if bool_decide (status resp ≠ 200) then
                {| status := status resp; body := error_body "inference failed" |}
              else
                match body resp with
                | JNull =>
                    {| status := 200;
                       body := JObj [("request_id", JStr (requestID env));
                                     ("model", JStr (Model r));
                                     ("version", JStr version);
                                     ("prediction", JNull);
                                     ("latency_ms", JNum (elapsed_ms env))] |}
                | JObj routerResp =>
                    {| status := 200;
                       body := JObj [("request_id", JStr (requestID env));
                                     ("model", JStr (Model r));
                                     ("version", JStr version);
                                     ("prediction", JObj routerResp);
                                     ("latency_ms", JNum (elapsed_ms env))] |}
                | _ => {| status := 500; body := error_body "internal error" |}
                end
          end
      end
  end.

(** A message on the job log. *)
Record ProducerMessage : Type := {
  Topic : string;
  Key : string;
  Value : payload
}.

Record batch_env : Type := {
  jobID : string;
  now_message : Z;
  now_response : Z;
  batch_marshal_error : option string;
  send_error : option string
}.

(** [BatchInference]: the log after the call and the response. *)
Definition BatchInference (h : InferenceHandler) (env : batch_env)
    (req : BatchInferenceRequest + string) (log : list ProducerMessage)
  : list ProducerMessage * http_response :=
  match bind_batch req with
  | inr details => (log, {| status := 400; body := invalid_request details |})
  | inl r =>
      let version := if bool_decide (bVersion r = "") then "v1" else bVersion r in
      let job := [("created_at", JNum (now_message env));
                  ("inputs", JArr (JObj <$> default [] (Inputs r)));
                  ("job_id", JStr (jobID env));
                  ("model", JStr (bModel r));
                  ("version", JStr version)] in
      match batch_marshal_error env with
      | Some _ => (log, {| status := 500; body := error_body "internal error" |})
      | None =>
          match send_error env with
          | Some _ => (log, {| status := 500; body := error_body "failed to submit job" |})
          | None =>
              (log ++ [{| Topic := kafkaTopic h; Key := jobID env; Value := job |}],
               {| status := 202;
                  body := JObj [("job_id", JStr (jobID env));
                                ("status", JStr "pending");
                                ("created_at", JNum (now_response env))] |})
          end
      end
  end.

(** The call to [/v1/route] when the router holds registry [r]: the
    transport fails, or the router's handler answers. *)
Definition via_router (transport_error : option string) (cenv : router.call_env)
    (r : router.ModelRouter) (b : router.RouteBody) : http_response + string :=
  match transport_error with
  | Some e => inr e
  | None => inl (router.RouteInference cenv (Some b) r).2
  end.

(** *** Rate limiting (middleware/ratelimit.go) *)

(** The counters of the rate-limit store and the expiry set on them. *)
Record redis : Type := {
  counters : gmap string Z;
  ttl : gmap string Duration
}.

(** [INCR]: a missing key counts from zero; a failed command changes nothing. *)
Definition Incr (err : option string) (key : string) (s : redis) : redis * (Z + string) :=
  match err with
  | Some e => (s, inr e)
  | None =>
      let count := default 0 (counters s !! key) + 1 in
      ({| counters := <[key := count]> (counters s); ttl := ttl s |}, inl count)
  end.

Definition Expire (key : string) (window : Duration) (s : redis) : redis :=
  {| counters := counters s; ttl := <[key := window]> (ttl s) |}.

(** What the middleware does with the request. *)
Inductive decision : Type :=
| Next (headers : list (string * string))
| Abort (code : Z) (headers : list (string * string)) (body : json).

Record limit_env : Type := {
  user_id : option string;
  ClientIP : string;
  incr_error : option string;
  now : Z
}.

(** [RateLimit]. *)
Definition RateLimit (limit : Z) (window : Duration) (env : limit_env) (s : redis)
  : redis * decision :=
  let userID := default (ClientIP env) (user_id env) in
  let key := "ratelimit:" +:+ userID in
  match Incr (incr_error env) key s with
  | (s, inr _) => (s, Next [])
  | (s, inl count) =>
      let s := if bool_decide (count = 1) then Expire key window s else s in
      if bool_decide (count > limit) then
        (s, Abort 429
              [("X-RateLimit-Limit", pretty limit);
               ("X-RateLimit-Remaining", "0");
               ("X-RateLimit-Reset", pretty ((now env + window) `div` Second))]
              (JObj [("error", JStr "rate limit exceeded");
                     ("retry_after", JNum (window `quot` Second))]))
      else
        (s, Next [("X-RateLimit-Limit", pretty limit);
                  ("X-RateLimit-Remaining", pretty (limit - count))])
  end.

(** The principal a request is counted for. *)
Definition principal (env : limit_env) : string :=
  default (ClientIP env) (user_id env).

Definition admitted (d : decision) : bool :=
  match d with Next _ => true | Abort _ _ _ => false end.

(** The middleware serving a sequence of requests on one store. *)
Fixpoint RateLimits (limit : Z) (window : Duration) (envs : list limit_env) (s : redis)
  : redis * list decision :=
  match envs with
  | [] => (s, [])
  | env :: rest =>
      let '(s1, d) := RateLimit limit window env s in
      let '(s2, ds) := RateLimits limit window rest s1 in
      (s2, d :: ds)
  end.

(** *** Authentication (middleware/auth.go) *)

(** [strings.Split(s, " ")]. *)
Fixpoint split_space (s : string) : list string :=
  match s with
  | EmptyString => [""]
  | String c s' =>
      if bool_decide (c = Ascii.Space) then "" :: split_space s'
      else match split_space s' with
           | p :: ps => String c p :: ps
           | [] => [String c ""]
           end
  end.

(** The token that is validated: the second part of ["Bearer <token>"],
    or the whole header. *)
Definition token_of (authHeader : string) : string :=
  match split_space authHeader with
  | [p0; p1] => if bool_decide (p0 = "Bearer") then p1 else authHeader
  | _ => authHeader
  end.

Inductive auth_decision : Type :=
| AuthAbort (code : Z) (body : json)
| AuthNext (user_id : option string).

(** [Auth].  [parse] is [jwt.ParseWithClaims] with the HMAC key function
    of the middleware: the claims of a token that is valid under the
    secret, [None] for any other token.  [authHeader] is [""] when the
    request has no [Authorization] header. *)
Definition Auth (parse : string → option payload) (authHeader : string) : auth_decision :=
  if bool_decide (authHeader = "") then
    AuthAbort 401 (error_body "missing authorization header")
  else
    let token := token_of authHeader in
    if bool_decide (token = "demo-token") then AuthNext (Some "demo-user")
    else
      match parse token with
      | None => AuthAbort 401 (error_body "invalid token")
      | Some claims =>
          match jget "user_id" claims with
          | Some (JStr userID) => AuthNext (Some userID)
          | _ => AuthNext None
          end
      end.

Fixpoint no_space (s : string) : bool :=
  match s with
  | EmptyString => true
  | String c s' => negb (bool_decide (c = Ascii.Space)) && no_space s'
  end.

End gateway.

(** ** Concrete jobs, schedules and environments *)

Module scenario.
Import storage worker.

Definition input (n : Z) : payload := [("data", JArr [JNum n])].

Definition job (id : string) (inputs : list payload) : BatchJob :=
  {| ID := id; Model := "m"; Version := "1"; Inputs := inputs;
     Status := StatusPending; Progress := (0, 1);
     TotalItems := Z.of_nat (length inputs); Completed := 0;
     ResultURL := ""; ErrorMsg := "";
     CreatedAt := 1; UpdatedAt := 1; CompletedAt := None |}.

(** The table after the consumer has created the job's row. *)
Definition created (j : BatchJob) : world :=
  {| jobs := (CreateJob DbOk j ∅).1; uploads := [] |}.

(** The orchestrator answers 200 with twice the input, or 500. *)
Definition doubled (n : Z) : call_outcome :=
  Responds 200 (inl (Some [("prediction", JArr [JNum (2 * n)])])) 5.
Definition broken : call_outcome := Responds 500 (inl None) 5.

Definition environment_of (sched : list action) (up : upload_outcome) : environment :=
  {| exec_processing := DbOk; now_processing := (10, 10); schedule := sched;
     upload := up; exec_final := DbOk; now_final := (20, 20) |}.

Definition url (id : string) : string := "http://minio/results/" +:+ id +:+ ".json".

(** Three items, two workers; the results reach the collector in the
    order 1, 2, 0. *)
Definition job3 : BatchJob := job "job-3" [input 1; input 2; input 3].
Definition out_of_order : list action :=
  [Send; Send; Send; CloseInput;
   Receive 0 (doubled 1); Receive 1 (doubled 2); Emit 1;
   Receive 1 (doubled 3); Emit 1; Emit 0;
   Collect DbOk 11; Collect DbOk 12; Collect DbOk 13; Exit 0; Exit 1].
Definition env3 : environment := environment_of out_of_order (Uploaded (url "job-3")).

(** Two items, one worker; the second call fails. *)
Definition job2 : BatchJob := job "job-2" [input 1; input 2].
Definition one_fails : list action :=
  [Send; Send; CloseInput;
   Receive 0 (doubled 1); Emit 0; Collect DbOk 11;
   Receive 0 broken; Emit 0; Collect DbOk 12; Exit 0].
Definition env2 : environment := environment_of one_fails (Uploaded (url "job-2")).

(** Two items, one worker; both calls fail. *)
Definition all_fail : list action :=
  [Send; Send; CloseInput;
   Receive 0 broken; Emit 0; Collect DbOk 11;
   Receive 0 broken; Emit 0; Collect DbOk 12; Exit 0].
Definition env2f : environment := environment_of all_fail (Uploaded (url "job-2")).

(** One item and a pool of size zero: nothing is scheduled. *)
Definition job1 : BatchJob := job "job-1" [input 1].
Definition env1 : environment := environment_of [] (Uploaded (url "job-1")).

(** One item, one worker; the context is cancelled before the item is sent. *)
Definition cancelled : list action := [Cancel; SenderStop; Abandon 0].
Definition env1c : environment := environment_of cancelled (Uploaded (url "job-1")).

(** A job without inputs. *)
Definition job0 : BatchJob := job "job-0" [].
Definition env0 : environment :=
  environment_of [CloseInput; Exit 0] (Uploaded (url "job-0")).

(** One item, one worker. *)
Definition single : list action :=
  [Send; CloseInput; Receive 0 (doubled 1); Emit 0; Collect DbOk 11; Exit 0].
Definition env1s : environment := environment_of single (Uploaded (url "job-1")).

(** The world left by a first, successful [ProcessJob] of [job1]. *)
Definition after_first_run : world :=
  match ProcessJob {| size := 1 |} env1s job1 (created job1) with
  | Some (w, _, _) => w
  | None => created job1
  end.

(** One item, one worker; the call fails. *)
Definition single_fails : list action :=
  [Send; CloseInput; Receive 0 broken; Emit 0; Collect DbOk 31; Exit 0].
Definition env1f : environment :=
  {| exec_processing := DbOk; now_processing := (30, 30); schedule := single_fails;
     upload := Uploaded (url "job-1"); exec_final := DbOk; now_final := (40, 40) |}.

Definition run_of (size : Z) (env : environment) (j : BatchJob) (w : world)
  : world * option pstate * option string :=
  default (w, None, None) (ProcessJob {| size := size |} env j w).

Definition state_of (size : Z) (env : environment) (j : BatchJob) (w : world) : pstate :=
  default (init size j (jobs w)) (run_of size env j w).1.2.

End scenario.

(** ** Concrete registries and requests *)

Module scenario_router.
Import gotime router.

Definition call_at (t : Z) (o : http_outcome) : call_env :=
  {| pick := 0; outcome := o; t_before := t * Second;
     t_after := t * Second + 5 * Millisecond; latency := 5 * Millisecond |}.

Definition not_found : http_outcome := Response 404 "no such item" (inr "unused").
Definition answer : http_outcome := Response 200 "{}" (inl [("prediction", JArr [JNum 1])]).

(** One backend registered for ("m", "1") at time 0. *)
Definition registry : ModelRouter := RegisterBackend 0 "m" "1" "http://b1:8082" NewModelRouter.

(** The registry after [n] requests, one per second, all answered 404. *)
Fixpoint after_404s (n : nat) : ModelRouter :=
  match n with
  | O => registry
  | S k => (RouteRequest (call_at (Z.of_nat n) not_found) "m" "1" (after_404s k)).1
  end.

(** The breaker of the only backend of ("m", "1"). *)
Definition breaker (r : ModelRouter) : option gobreaker.CircuitBreaker :=
  lookup "m" "1" r ≫= λ backends, CircuitBreaker <$> backends !! 0%nat.

(** The same target registered twice. *)
Definition twice : ModelRouter :=
  RegisterBackend 2 "m" "1" "http://b1:8082" registry.

(** The registry [main] of the router builds: one orchestrator registered
    for resnet18 v1 and v2. *)
Definition deployed : ModelRouter :=
  RegisterBackend 0 "resnet18" "v2" "http://localhost:8082"
    (RegisterBackend 0 "resnet18" "v1" "http://localhost:8082"
       NewModelRouter).

End scenario_router.

Module scenario_gateway.
Import gotime gateway.

Definition handler : InferenceHandler :=
  {| routerURL := "http://model-router:8081"; kafkaTopic := "batch-inference" |}.

(** [{"model": "m", "version": "1", "inputs": []}] *)
Definition empty_batch : BatchInferenceRequest :=
  {| bModel := "m"; bVersion := "1"; Inputs := Some [] |}.

(** [{"model": "m", "version": "1"}] *)
Definition absent_batch : BatchInferenceRequest :=
  {| bModel := "m"; bVersion := "1"; Inputs := None |}.

Definition submit : batch_env :=
  {| jobID := "7d9f2c1e-0001"; now_message := 100; now_response := 101;
     batch_marshal_error := None; send_error := None |}.

(** [{"model": "nope", "input": {"data": [1]}}] *)
Definition unknown_model : InferenceRequest :=
  {| Model := "nope"; Version := ""; Input := Some [("data", JArr [JNum 1])] |}.

(** The body of the integration test's case [missing model]:
    [{"model": "nonexistent", "version": "1", "input": {"data": [1.0]}}] *)
Definition missing_model : InferenceRequest :=
  {| Model := "nonexistent"; Version := "1"; Input := Some [("data", JArr [JNum 1])] |}.

Definition infer : infer_env :=
  {| requestID := "7d9f2c1e-0002"; marshal_error := None; request_error := None;
     elapsed_ms := 3 |}.

(** A principal whose counter is already at the limit of 3. *)
Definition at_limit : redis :=
  {| counters := {[ "ratelimit:demo-user" := 3 ]}; ttl := {[ "ratelimit:demo-user" := Minute ]} |}.

Definition store_down : limit_env :=
  {| user_id := Some "demo-user"; ClientIP := "10.0.0.1";
     incr_error := Some "dial tcp: connection refused"; now := 0 |}.

Definition store_up : limit_env :=
  {| user_id := Some "demo-user"; ClientIP := "10.0.0.1";
     incr_error := None; now := 0 |}.

Definition from (user : option string) (ip : string) : limit_env :=
  {| user_id := user; ClientIP := ip; incr_error := None; now := 0 |}.

(** Two principals, interleaved: an API user and an anonymous client. *)
Definition interleaved : list limit_env :=
  [from (Some "alice") "10.0.0.1"; from None "10.0.0.2";
   from (Some "alice") "10.0.0.3"; from None "10.0.0.2";
   from (Some "alice") "10.0.0.1"].

Definition empty_store : redis := {| counters := ∅; ttl := ∅ |}.

(** A validator that knows one token. *)
Definition parse (token : string) : option payload :=
  if bool_decide (token = "abc.def.ghi") then Some [("user_id", JStr "alice")] else None.

End scenario_gateway.

Module scenario_consumer.
Import storage worker consumer.

(** The descriptor of a one-item job, delivered at offset [o]. *)
Definition message (o : Z) : ConsumerMessage :=
  {| Key := "job-1";
     Value := Some [("created_at", JNum 100);
                    ("inputs", JArr [JObj (scenario.input 1)]);
                    ("job_id", JStr "job-1");
                    ("model", JStr "m");
                    ("version", JStr "1")];
     Offset := o |}.

Definition env : environment :=
  {| now_create := (1, 1); exec_create := DbOk; process := scenario.env1s |}.

Definition fresh : session := {| marked := []; store := {| jobs := ∅; uploads := [] |} |}.

(** The same descriptor delivered twice. *)
Definition redelivered : list (environment * ConsumerMessage) :=
  [(env, message 7); (env, message 8)].

End scenario_consumer.

(** The fields of a JSON object body. *)
Definition body_fields (resp : http_response) : payload :=
  match body resp with JObj kvs => kvs | _ => [] end.

(** ** Progress of the pool's goroutines *)

Module pool_progress.
Import storage worker pool_inv.

(** The states the goroutines of [ProcessJob] can be in. *)
Definition reachable (size : Z) (job : BatchJob) (t : table) (s : pstate) : Prop :=
  ∃ sched, run job sched (init size job t) = Some s.

Definition is_cancel (a : action) : bool :=
  match a with Cancel => true | _ => false end.

(** The actions of a schedule that are taken by a goroutine (the
    cancellation of the context comes from outside). *)
Definition moves (sched : list action) : nat :=
  length (List.filter (λ a, negb (is_cancel a)) sched).

Definition alive (w : wstate) : nat :=
  match w with Done => 0 | _ => 1 end.

(** A bound on the goroutine actions still to come: an unsent item is
    sent, received, emitted and collected; the sender and each worker return
    once. *)
Definition fuel (s : pstate) : nat :=
  4 * length (unsent s) + 3 * length (inputChan s)
  + 2 * length (holding (workers s)) + length (resultChan s)
  + match sender s with Some _ => 1 | None => 0 end + sum_list (alive <$> workers s).

(** The sender has returned without closing [inputChan] only after the
    context was cancelled. *)
Definition sender_inv (s : pstate) : Prop :=
  sender s = None → inputClosed s = true ∨ ctx_done s = true.

(** What the collector has written to the job's row cannot exceed what it
    has counted. *)
Definition progress_inv (job : BatchJob) (s : pstate) : Prop :=
  ∀ r, pg s !! ID job = Some r → r_completed r ≤ completed s.

(** [completed_at] is set exactly for the rows in a terminal status. *)
Definition stamped (r : row) : Prop :=
  terminal (r_status r) = true ↔ is_Some (r_completed_at r).

Definition all_stamped (t : table) : Prop :=
  ∀ id r, t !! id = Some r → stamped r.

Definition is_receive (a : action) : bool :=
  match a with Receive _ _ => true | _ => false end.

Definition is_collect (a : action) : bool :=
  match a with Collect _ _ => true | _ => false end.

(** The orchestrator calls made in a schedule, and the iterations of the
    collection loop. *)
Definition calls (sched : list action) : nat := length (List.filter is_receive sched).
Definition collections (sched : list action) : nat := length (List.filter is_collect sched).

(** The schedules in which every progress update reaches the database. *)
Definition progress_stored (a : action) : bool :=
  match a with Collect (DbErr _) _ => false | _ => true end.

(** Once the last result is counted, the row holds the full count. *)
Definition final_progress_inv (job : BatchJob) (s : pstate) : Prop :=
  completed s = TotalItems job →
  ∀ r, pg s !! ID job = Some r → r_completed r = TotalItems job.

End pool_progress.

(** * Properties *)

Module pool_facts.
Import storage worker pool_inv.

Lemma holding_insert_idle ws w st :
  ws !! w = Some Idle →
  holding (<[w := st]> ws) ≡ₚ holding [st] ++ holding ws.
Proof.
  intros Hw. rewrite <-(take_drop_middle ws w Idle) at 2 by done.
  rewrite insert_take_drop by (by eapply lookup_lt_Some).
  unfold holding. rewrite !omap_app. simpl.
  destruct st; simpl; try done.
  by rewrite Permutation_middle.
Qed.

Lemma holding_insert_holding ws w i r st :
  ws !! w = Some (Holding i r) →
  holding [st] ++ holding ws ≡ₚ (i, r) :: holding (<[w := st]> ws).
Proof.
  intros Hw. rewrite <-(take_drop_middle ws w (Holding i r)) at 1 by done.
  rewrite insert_take_drop by (by eapply lookup_lt_Some).
  unfold holding. rewrite !omap_app. simpl.
  destruct st; simpl.
  - by rewrite Permutation_middle.
  - rewrite <-!Permutation_middle. apply perm_swap.
  - by rewrite Permutation_middle.
Qed.

Lemma submseteq_NoDup {A} (l k : list A) : l ⊆+ k → NoDup k → NoDup l.
Proof.
  intros (l2 & Hsub & Hp)%submseteq_sublist_l Hk.
  rewrite <-Hp in Hk. by eapply sublist_NoDup.
Qed.

Lemma count_insert {A} (f : A → bool) (l : list A) i x y :
  l !! i = Some x →
  count f (<[i := y]> l) = count f l - Z.b2z (f x) + Z.b2z (f y).
Proof.
  unfold count. revert i. induction l as [|a l IH]; intros [|i] Hi; simplify_eq/=.
  - destruct (f x), (f y); simpl; lia.
  - specialize (IH _ Hi). destruct (f a); simpl; lia.
Qed.

Lemma holding_take ws w i r :
  ws !! w = Some Idle →
  holding (<[w := Holding i r]> ws) ≡ₚ (i, r) :: holding ws.
Proof. intros Hw. by rewrite holding_insert_idle. Qed.

Lemma holding_leave ws w :
  ws !! w = Some Idle → holding (<[w := Done]> ws) ≡ₚ holding ws.
Proof. intros Hw. by rewrite holding_insert_idle. Qed.

Lemma holding_give ws w i r st :
  ws !! w = Some (Holding i r) → st = Idle ∨ st = Done →
  holding ws ≡ₚ (i, r) :: holding (<[w := st]> ws).
Proof.
  intros Hw Hst. rewrite <-(holding_insert_holding _ _ _ _ st Hw).
  by destruct Hst as [-> | ->].
Qed.

Lemma processInference_Input x o : Input (processInference x o) = x.
Proof. destruct o; simpl; repeat case_match; done. Qed.

(** How each action moves the pending items. *)
Lemma step_pending job a s s' :
  step job a s = Some s' →
  match a with
  | Collect exec now =>
      ∃ i r rest, resultChan s = (i, r) :: rest ∧
                  s' = collect job exec now i r rest s ∧
                  pending s ≡ₚ item (i, r) :: pending (set_resultChan rest s)
  | Cancel => pending s' = pending s ∧ frame s s' ∧ ctx_done s' = true
  | SenderStop | Abandon _ =>
      pending s' ⊆+ pending s ∧ frame s s' ∧ ctx_done s' = true
  | _ => pending s' ≡ₚ pending s ∧ frame s s' ∧ ctx_done s' = ctx_done s
  end.
Proof.
  unfold step, frame. intros Hstep.
  destruct (panicked s) eqn:Hp; [done|].
  destruct a; repeat case_match; simplify_eq/=;
    rewrite ?length_insert, ?Hp; unfold pending, unsent; cbn [sender inputChan workers resultChan set_worker set_input set_resultChan set_ctx_done];
    repeat match goal with H : sender s = _ |- _ => rewrite H; clear H
                      | H : inputChan s = _ |- _ => rewrite H; clear H
                      | H : resultChan s = _ |- _ => rewrite H; clear H end;
    cbn [default].
  - done.
  - split_and!; try done.
    rewrite <-app_assoc. simpl. by rewrite <-!Permutation_middle.
  - split_and!; try done. by apply (submseteq_inserts_l (_ :: _)).
  - done.
  - split_and!; try done.
    rewrite holding_take by done. rewrite fmap_cons.
    unfold item at 1. simpl. rewrite processInference_Input.
    by rewrite <-!Permutation_middle.
  - split_and!; try done.
    match goal with H : workers s !! _ = Some (Holding _ _) |- _ =>
      rewrite (holding_give _ _ _ _ Idle H) by auto end.
    rewrite fmap_app, !fmap_cons. simpl.
    rewrite (Permutation_app_comm (item <$> resultChan s)). simpl.
    by rewrite <-!Permutation_middle.
  - split_and!; try done. by rewrite holding_leave.
  - split_and!; try done. by rewrite holding_leave.
  - split_and!; try done.
    match goal with H : workers s !! _ = Some (Holding _ _) |- _ =>
      rewrite (holding_give _ _ _ _ Done H) by auto end.
    rewrite fmap_cons, <-app_comm_cons, <-!Permutation_middle.
    by apply submseteq_cons.
  - eexists _, _, _. split_and!; try done.
    rewrite fmap_cons. by rewrite <-!Permutation_middle.
Qed.

Lemma imap_pair_fst (l : list payload) k :
  (imap (λ i x, ((k + i)%nat, x)) l).*1 = seq k (length l).
Proof.
  revert k. induction l as [|x l IH]; intros k; [done|].
  simpl. f_equal; [lia|]. rewrite <-(IH (S k)). f_equal.
  apply imap_ext. intros i y _. simpl. f_equal. lia.
Qed.

Lemma indexed_fst (l : list payload) : (indexed l).*1 = seq 0 (length l).
Proof. apply (imap_pair_fst l 0). Qed.

Lemma count_replicate_None {A} (f : option A → bool) n :
  f None = false → count f (replicate n None) = 0.
Proof. intros Hf. unfold count. induction n; simpl; [done|]. by rewrite Hf. Qed.

Lemma elem_of_insert_ne {A} (l : list A) i x y :
  y ∈ <[i := x]> l → y ≠ x → y ∈ l.
Proof.
  intros [j Hj]%list_elem_of_lookup Hne. apply list_elem_of_lookup.
  destruct (decide (i = j)) as [->|].
  - destruct (decide (j < length l)%nat).
    + rewrite list_lookup_insert_eq in Hj by done. congruence.
    + rewrite list_insert_ge in Hj by lia. eauto.
  - rewrite list_lookup_insert_ne in Hj by done. eauto.
Qed.

Lemma pending_init size job t : pending (init size job t) = indexed (Inputs job).
Proof.
  unfold pending, unsent, init; cbn [sender inputChan workers resultChan default].
  assert (holding (replicate (Z.to_nat size) Idle) = []) as ->.
  { induction (Z.to_nat size); [done|]. by rewrite replicate_S. }
  by rewrite !app_nil_r.
Qed.

Lemma inv_init size job t : inv job (init size job t).
Proof.
  split; rewrite ?pending_init; cbn [init results completed errorCount panicked
    inputClosed ctx_done workers sender inputChan].
  - by rewrite length_replicate.
  - rewrite indexed_fst. apply NoDup_seq.
  - intros i x Hix.
    apply elem_of_lookup_imap in Hix as (j & y & [= -> ->] & Hy).
    split; [done|]. apply lookup_replicate_2. by eapply lookup_lt_Some.
  - intros i d [? ?]%lookup_replicate_1. done.
  - by rewrite count_replicate_None.
  - by rewrite count_replicate_None.
  - done.
  - done.
  - intros _ i Hi. left. rewrite indexed_fst. apply elem_of_seq. lia.
  - intros _ [? ?]%elem_of_replicate. done.
Qed.

Lemma inv_frame job s s' :
  inv job s → pending s' ⊆+ pending s → frame s s' →
  (inputClosed s' = true → sender s' = None) →
  (ctx_done s' = false → ctx_done s = false ∧ pending s ⊆+ pending s') →
  (ctx_done s' = false → Done ∈ workers s' → sender s' = None ∧ inputChan s' = []) →
  inv job s'.
Proof.
  intros [] Hsub (Hres & Hc & He & Hp & _) Hclosed Hctx Hexit.
  split; rewrite ?Hres, ?Hc, ?He, ?Hp; try done.
  - eapply submseteq_NoDup; [|done]. by apply fmap_submseteq.
  - intros i x Hix. apply inv_item0. by eapply elem_of_submseteq.
  - intros Hd i Hi. destruct (Hctx Hd) as [Hd' Hsup].
    destruct (inv_cover0 Hd' i Hi) as [Hin|]; [left|by right].
    eapply elem_of_submseteq; [done|]. by apply fmap_submseteq.
Qed.

Lemma inv_collect job exec now i r rest s :
  inv job s → resultChan s = (i, r) :: rest →
  inv job (collect job exec now i r rest s).
Proof.
  intros I Hch.
  assert (pending s ≡ₚ item (i, r) :: pending (set_resultChan rest s)) as Hperm.
  { unfold pending, unsent. simpl. rewrite Hch, fmap_cons.
    by rewrite <-!Permutation_middle. }
  destruct I. pose proof inv_nodup0 as Hnd.
  rewrite Hperm, fmap_cons in Hnd. apply NoDup_cons in Hnd as [Hni Hnd].
  destruct (inv_item0 i (Input r)) as [Hin Hnone].
  { rewrite Hperm. apply list_elem_of_here. }
  assert (i < length (results s))%nat as Hlt by (by eapply lookup_lt_Some).
  unfold collect. rewrite bool_decide_true by done.
  match goal with |- inv _ ?s' =>
    assert (pending s' = pending (set_resultChan rest s)) as Hpe by done end.
  split; rewrite ?Hpe; cbn [results completed errorCount panicked inputClosed
    ctx_done workers sender inputChan resultChan].
  - by rewrite length_insert.
  - done.
  - intros j x Hjx. destruct (inv_item0 j x) as [? ?].
    { rewrite Hperm. by apply list_elem_of_further. }
    split; [done|]. rewrite list_lookup_insert_ne; [done|].
    intros ->. apply Hni. by apply (list_elem_of_fmap_2' fst _ (j, x)).
  - intros j d Hj. destruct (decide (i = j)) as [->|].
    + rewrite list_lookup_insert_eq in Hj by done. by simplify_eq.
    + rewrite list_lookup_insert_ne in Hj by done. eauto.
  - rewrite (count_insert _ _ _ None) by done. simpl. lia.
  - rewrite (count_insert _ _ _ None) by done. simpl.
    case_bool_decide; simpl; lia.
  - done.
  - done.
  - intros Hd j Hj. destruct (inv_cover0 Hd j Hj) as [Hp|[d Hd']].
    + rewrite Hperm, fmap_cons in Hp. apply elem_of_cons in Hp as [->|Hp].
      * right. eexists. by apply list_lookup_insert_eq.
      * by left.
    + right. exists d. rewrite list_lookup_insert_ne; [done|]. congruence.
  - done.
Qed.

Lemma inv_step job a s s' : inv job s → step job a s = Some s' → inv job s'.
Proof.
  intros I Hstep. pose proof (step_pending _ _ _ _ Hstep) as Hpend.
  pose proof (inv_closed _ _ I) as Hcl. pose proof (inv_exit _ _ I) as Hex.
  unfold step in Hstep. rewrite (inv_panicked _ _ I) in Hstep.
  destruct a; try destruct Hpend as (Hsub & Hfr & Hctx);
    try (repeat case_match; simplify_eq/=;
         (refine (inv_frame _ s _ I _ Hfr _ _ _); simpl;
          [try done; by rewrite Hsub
          |try done
          |try done; try congruence; try (intros Hd; split; [done|]; by rewrite Hsub)
          |try done; try congruence])).
  - intros Hc. specialize (Hcl Hc). congruence.
  - intros Hd Hw. destruct (Hex Hd Hw). congruence.
  - intros Hd Hw. destruct (Hex Hd Hw). congruence.
  - intros Hd Hw. apply elem_of_insert_ne in Hw; [|done].
    destruct (Hex Hd Hw). congruence.
  - intros Hd Hw. apply elem_of_insert_ne in Hw; [|done]. auto.
  - auto.
  - intros Hd Hw. auto.
  - destruct Hctx as (rest & Hch & -> & _). by apply inv_collect.
Qed.

Lemma inv_run job sched s s' : inv job s → run job sched s = Some s' → inv job s'.
Proof.
  revert s. induction sched as [|a sched IH]; intros s I Hrun; simplify_eq/=; [done|].
  destruct (step job a s) as [s1|] eqn:Hs; [|done]. eauto using inv_step.
Qed.

Lemma run_workers_length job sched s s' :
  run job sched s = Some s' → length (workers s') = length (workers s).
Proof.
  revert s. induction sched as [|a sched IH]; intros s Hrun; simplify_eq/=; [done|].
  destruct (step job a s) as [s1|] eqn:Hs; [|done].
  rewrite (IH _ Hrun). pose proof (step_pending _ _ _ _ Hs) as Hp.
  destruct a; try (by destruct Hp as (_ & (_ & _ & _ & _ & ?) & _)).
  destruct Hp as (i & r & rest & _ & -> & _). unfold collect. by case_bool_decide.
Qed.

Lemma drained_pending s :
  drained s = true → sender s = None → inputChan s = [] → pending s = [].
Proof.
  unfold drained. intros [[Hw Hr%bool_decide_eq_true]%andb_prop _]%andb_prop Hs Hi.
  unfold pending, unsent. rewrite Hs, Hi, Hr. simpl.
  assert (holding (workers s) = []) as ->; [|done].
  induction (workers s) as [|w ws IH]; [done|]. simpl in Hw.
  apply andb_prop in Hw as [Hd Hw]. destruct w; try done. by apply IH.
Qed.

Lemma drained_has_done s :
  drained s = true → (0 < length (workers s))%nat → Done ∈ workers s.
Proof.
  unfold drained. intros [[Hw _]%andb_prop _]%andb_prop Hlen.
  destruct (workers s) as [|w ws]; simpl in *; [lia|].
  apply andb_prop in Hw as [Hd _]. destruct w; try done. apply list_elem_of_here.
Qed.

(** When the loop is left with a live context and at least one worker, every
    slot holds the result of the input at the same position. *)
Lemma drained_complete job s :
  inv job s → drained s = true → ctx_done s = false →
  (0 < length (workers s))%nat →
  ∀ i x, Inputs job !! i = Some x →
         ∃ d, results s !! i = Some (Some d) ∧ rd_input d = x.
Proof.
  intros I Hdr Hctx Hw i x Hix.
  destruct (inv_exit _ _ I Hctx (drained_has_done _ Hdr Hw)) as [Hs Hi].
  pose proof (drained_pending _ Hdr Hs Hi) as Hp.
  destruct (inv_cover _ _ I Hctx i) as [Hin|[d Hd]].
  - by eapply lookup_lt_Some.
  - rewrite Hp in Hin. by apply elem_of_nil in Hin.
  - exists d. split; [done|]. pose proof (inv_slot _ _ I _ _ Hd). congruence.
Qed.

Lemma step_pg job a s s' id :
  step job a s = Some s' → option_Forall2 progress_only (pg s !! id) (pg s' !! id).
Proof.
  assert (∀ t : table, option_Forall2 progress_only (t !! id) (t !! id)) as Hrefl.
  { intros t. destruct (t !! id) as [[]|]; by constructor. }
  unfold step. intros Hstep. destruct (panicked s); [done|].
  destruct a; repeat case_match; simplify_eq/=; try apply Hrefl.
  unfold collect. repeat case_match; simpl; try apply Hrefl.
  all: unfold UpdateJobProgress; destruct exec; simpl; try apply Hrefl.
  all: destruct (decide (ID job = id)) as [->|];
    [rewrite lookup_alter_eq; destruct (pg s !! id) as [[]|]; by constructor
    |rewrite lookup_alter_ne by done; apply Hrefl].
Qed.

Lemma progress_only_trans r1 r2 r3 :
  progress_only r1 r2 → progress_only r2 r3 → progress_only r1 r3.
Proof. unfold progress_only. intros -> ->. by destruct r1. Qed.

Lemma run_pg job sched s s' id :
  run job sched s = Some s' → option_Forall2 progress_only (pg s !! id) (pg s' !! id).
Proof.
  revert s. induction sched as [|a sched IH]; intros s Hrun; simplify_eq/=.
  - destruct (pg s' !! id) as [[]|]; by constructor.
  - destruct (step job a s) as [s1|] eqn:Hs; [|done].
    pose proof (step_pg _ _ _ _ id Hs) as H1. pose proof (IH _ Hrun) as H2.
    destruct H1; inversion H2; simplify_eq; constructor.
    by eapply progress_only_trans.
Qed.

Lemma ProcessJob_ran p env job w w' s ret :
  ProcessJob p env job w = Some (w', Some s, ret) →
  exec_processing env = DbOk ∧
  run job (schedule env) (init (size p) job (processing_table env job (jobs w))) = Some s ∧
  drained s = true ∧
  uploads w' = uploads w ++ [(ID job, results s)] ∧
  jobs w' = (UpdateJobStatus (exec_final env) (now_final env) (ID job)
               (verdict env job s).1.1 (verdict env job s).1.2 (verdict env job s).2
               (pg s)).1.
Proof.
  unfold ProcessJob, verdict, processing_table, UpdateJobStatus.
  destruct (exec_processing env); [|done]. simpl.
  destruct (run _ _ _) as [s1|]; [|done].
  destruct (drained s1) eqn:Hd; [|done]. simpl.
  destruct (upload env); destruct (exec_final env); intros; simplify_eq/=; done.
Qed.

Lemma ProcessJob_refused p env job w w' ret :
  ProcessJob p env job w = Some (w', None, ret) →
  w' = w ∧ ∃ e, exec_processing env = DbErr e.
Proof.
  unfold ProcessJob, UpdateJobStatus.
  destruct (exec_processing env); simpl.
  - destruct (run _ _ _) as [s1|]; [|done]. destruct (drained s1); [|done]. simpl.
    destruct (upload env); destruct (exec_final env); intros; simplify_eq/=.
  - intros; simplify_eq. eauto.
Qed.

(** The job's row when the collection loop is left: still [processing]. *)
Lemma run_row env p job t s r0 :
  run job (schedule env) (init (size p) job (processing_table env job t)) = Some s →
  t !! ID job = Some r0 →
  ∃ r1, pg s !! ID job = Some r1 ∧
        progress_only (set_status StatusProcessing "" "" (snd (now_processing env)) None r0) r1.
Proof.
  intros Hrun Hr0. pose proof (run_pg _ _ _ _ (ID job) Hrun) as H.
  simpl in H. unfold processing_table in H. rewrite lookup_alter_eq, Hr0 in H.
  inversion H; simplify_eq. eauto.
Qed.

Lemma run_row_None env p job t s :
  run job (schedule env) (init (size p) job (processing_table env job t)) = Some s →
  t !! ID job = None → pg s !! ID job = None.
Proof.
  intros Hrun Hr0. pose proof (run_pg _ _ _ _ (ID job) Hrun) as H.
  simpl in H. unfold processing_table in H. rewrite lookup_alter_eq, Hr0 in H.
  by inversion H.
Qed.

Lemma append_slash_nonempty a b : a +:+ "/" +:+ b ≠ "".
Proof. by destruct a. Qed.

Lemma errorMsg_nonempty e n : errorMsg e n ≠ "" ↔ 0 < e.
Proof.
  unfold errorMsg. case_bool_decide.
  - split; [lia|]. intros _. apply append_slash_nonempty.
  - split; [done|lia].
Qed.

Lemma count_bounds {A} (f : A → bool) (l : list A) :
  0 ≤ count f l ≤ Z.of_nat (length l).
Proof.
  unfold count. induction l as [|x l IH]; simpl; [lia|].
  destruct (f x); simpl; lia.
Qed.

Lemma ProcessJob_inv p env job w w' s ret :
  ProcessJob p env job w = Some (w', Some s, ret) → inv job s.
Proof.
  intros (_ & Hrun & _)%ProcessJob_ran. eapply inv_run; [|done]. apply inv_init.
Qed.

(** With at least one worker and a live context, the loop is left with
    every slot filled from the input at its position. *)
Lemma manifest_order_aux p env job w w' s ret :
  ProcessJob p env job w = Some (w', Some s, ret) →
  0 < size p → ctx_done s = false →
  ∀ i x, Inputs job !! i = Some x →
         ∃ d, results s !! i = Some (Some d) ∧ rd_input d = x.
Proof.
  intros HP Hsize Hctx. pose proof (ProcessJob_inv _ _ _ _ _ _ _ HP) as I.
  destruct (ProcessJob_ran _ _ _ _ _ _ _ HP) as (_ & Hrun & Hdr & Hup & _).
  apply drained_complete; try done.
  rewrite (run_workers_length _ _ _ _ Hrun). simpl. rewrite length_replicate. lia.
Qed.

(** *** Every job can be drained *)

Lemma run_app job a b s :
  run job (a ++ b) s = run job a s ≫= run job b.
Proof.
  revert s. induction a as [|x a IH]; intros s; simpl; [done|].
  destruct (step job x s); simpl; [apply IH|done].
Qed.

(** No more items are in flight than the job has inputs: the two channels,
    of capacity [len(job.Inputs)], never block a sender. *)
Lemma pending_length job s : inv job s → (length (pending s) ≤ length (Inputs job))%nat.
Proof.
  intros I. rewrite <-(length_fmap fst), <-(length_seq (length (Inputs job)) 0).
  apply submseteq_length, NoDup_submseteq; [by apply (inv_nodup job)|].
  intros i [[j x] [-> Hin]]%list_elem_of_fmap. simpl.
  destruct (inv_item _ _ I _ _ Hin) as [Hi _]. apply lookup_lt_Some in Hi.
  apply elem_of_seq. lia.
Qed.

Lemma send_all job l : ∀ s,
  inv job s → sender s = Some l →
  ∃ s', run job (replicate (length l) Send) s = Some s' ∧ inv job s' ∧
        sender s' = Some [] ∧ inputChan s' = inputChan s ++ l ∧
        workers s' = workers s ∧ resultChan s' = resultChan s ∧
        inputClosed s' = inputClosed s ∧ ctx_done s' = ctx_done s.
Proof.
  induction l as [|x l IH]; intros s I Hs.
  - exists s. rewrite app_nil_r. by split_and!.
  - assert (step job Send s
            = Some (set_input (Some l) (inputChan s ++ [x]) (inputClosed s) s)) as Hstep.
    { unfold step. rewrite (inv_panicked _ _ I), Hs.
      rewrite bool_decide_true; [done|].
      pose proof (pending_length _ _ I) as Hlen. unfold pending, unsent in Hlen.
      rewrite Hs in Hlen. simpl in Hlen. rewrite !length_app in Hlen. lia. }
    destruct (IH _ (inv_step _ _ _ _ I Hstep) eq_refl)
      as (s' & Hrun & I' & ? & Hch & ? & ? & ? & ?).
    exists s'. simpl. rewrite Hstep. split_and!; try done.
    rewrite Hch. simpl. by rewrite <-app_assoc.
Qed.

Lemma serve_all job c : ∀ os s,
  inv job s → inputChan s = c → length os = length c →
  workers s !! 0%nat = Some Idle → resultChan s = [] →
  ∃ s', run job (os ≫= serve) s = Some s' ∧ inv job s' ∧
        inputChan s' = [] ∧ workers s' = workers s ∧ resultChan s' = [] ∧
        sender s' = sender s ∧ inputClosed s' = inputClosed s ∧
        ctx_done s' = ctx_done s.
Proof.
  induction c as [|[i x] c IH]; intros os s I Hc Hlen Hw Hr.
  - destruct os; [|done]. exists s. by split_and!.
  - destruct os as [|o os]; [done|]. simplify_eq/=.
    assert (0 < length (workers s))%nat as Hlw by (by eapply lookup_lt_Some).
    assert (0 < length (Inputs job))%nat as Hcap.
    { destruct (inv_item _ _ I i x) as [Hi _].
      - unfold pending. rewrite Hc. apply elem_of_app. right.
        apply elem_of_app. left. apply list_elem_of_here.
      - apply lookup_lt_Some in Hi. lia. }
    set (r := processInference x o).
    set (s1 := set_worker 0 (Holding i r) (set_input (sender s) c (inputClosed s) s)).
    assert (step job (Receive 0 o) s = Some s1) as H1.
    { unfold step. by rewrite (inv_panicked _ _ I), Hw, Hc. }
    pose proof (inv_step _ _ _ _ I H1) as I1.
    set (s2 := set_worker 0 Idle (set_resultChan [(i, r)] s1)).
    assert (step job (Emit 0) s1 = Some s2) as H2.
    { unfold step. rewrite (inv_panicked _ _ I1). simpl.
      rewrite list_lookup_insert_eq by done. rewrite Hr. simpl.
      by rewrite bool_decide_true by done. }
    pose proof (inv_step _ _ _ _ I1 H2) as I2.
    set (s3 := collect job DbOk 0 i r [] s2).
    assert (step job (Collect DbOk 0) s2 = Some s3) as H3.
    { unfold step. by rewrite (inv_panicked _ _ I2). }
    pose proof (inv_step _ _ _ _ I2 H3) as I3.
    assert (workers s3 = workers s) as Hw3.
    { unfold s3, collect. case_bool_decide; simpl;
        by rewrite list_insert_insert_eq, list_insert_id. }
    destruct (IH os s3 I3) as (s' & Hrun & I' & ? & Hws & ? & Hsn & Hcl & Hctx).
    { unfold s3, collect. by case_bool_decide. }
    { done. }
    { by rewrite Hw3. }
    { unfold s3, collect. by case_bool_decide. }
    exists s'. rewrite H1. simpl. rewrite H2. simpl. rewrite H3.
    split_and!; try done.
    + by rewrite Hws.
    + rewrite Hsn. unfold s3, collect. by case_bool_decide.
    + rewrite Hcl. unfold s3, collect. by case_bool_decide.
    + rewrite Hctx. unfold s3, collect. by case_bool_decide.
Qed.

Lemma exit_all job m : ∀ k s,
  panicked s = false → inputChan s = [] → inputClosed s = true →
  workers s = replicate k Done ++ replicate m Idle →
  ∃ s', run job (Exit <$> seq k m) s = Some s' ∧
        workers s' = replicate (k + m) Done ∧ resultChan s' = resultChan s ∧
        panicked s' = false ∧ ctx_done s' = ctx_done s.
Proof.
  induction m as [|m IH]; intros k s Hp Hi Hcl Hw.
  - exists s. rewrite Hw, app_nil_r, Nat.add_0_r. by split_and!.
  - assert (workers s !! k = Some Idle) as Hk.
    { rewrite Hw, lookup_app_r by (by rewrite length_replicate).
      by rewrite length_replicate, Nat.sub_diag. }
    assert (step job (Exit k) s = Some (set_worker k Done s)) as Hstep.
    { unfold step. by rewrite Hp, Hk, Hi, Hcl. }
    destruct (IH (S k) (set_worker k Done s)) as (s' & Hrun & Hws & ? & ? & ?);
      try done.
    { simpl. rewrite Hw. rewrite insert_app_r_alt by (by rewrite length_replicate).
      rewrite length_replicate, Nat.sub_diag. simpl.
      clear. induction k as [|k IHk]; simpl; [done|]. by rewrite IHk. }
    exists s'. simpl. rewrite Hstep. split_and!; try done.
    rewrite Hws. f_equal. lia.
Qed.

(** Whatever the orchestrator answers for each item, the goroutines have
    an execution that leaves the collection loop, with the context live. *)
Lemma sequential_drains size job t os :
  length os = length (Inputs job) →
  ∃ s, run job (sequential size (length (Inputs job)) os) (init size job t) = Some s ∧
       drained s = true ∧ ctx_done s = false.
Proof.
  intros Hlen. unfold sequential. case_bool_decide as Hsize.
  2:{ exists (init size job t). split_and!; try done.
      unfold drained. simpl. replace (Z.to_nat size) with 0%nat by lia. done. }
  pose proof (inv_init size job t) as I0.
  destruct (send_all job (indexed (Inputs job)) _ I0 eq_refl)
    as (s1 & H1 & I1 & Hs1 & Hc1 & Hw1 & Hr1 & Hcl1 & Hx1).
  assert (length (indexed (Inputs job)) = length (Inputs job)) as Hli.
  { by rewrite <-(length_fmap fst), indexed_fst, length_seq. }
  rewrite Hli in H1.
  set (s2 := set_input None (inputChan s1) true s1).
  assert (step job CloseInput s1 = Some s2) as H2.
  { unfold step. by rewrite (inv_panicked _ _ I1), Hs1. }
  pose proof (inv_step _ _ _ _ I1 H2) as I2.
  destruct (serve_all job (inputChan s1) os s2 I2) as (s3 & H3 & I3 & Hc3 & Hw3 & Hr3 & _ & Hcl3 & Hx3).
  { done. }
  { rewrite Hc1. simpl. by rewrite Hli. }
  { simpl. rewrite Hw1. simpl. apply lookup_replicate_2. lia. }
  { simpl. by rewrite Hr1. }
  destruct (exit_all job (Z.to_nat size) 0 s3) as (s4 & H4 & Hw4 & Hr4 & Hp4 & Hx4).
  { by apply inv_panicked with job. }
  { done. }
  { by rewrite Hcl3. }
  { rewrite Hw3. simpl. by rewrite Hw1. }
  exists s4. rewrite run_app, H1. simpl. rewrite H2. rewrite run_app, H3. simpl.
  split_and!; [done| |].
  - unfold drained. rewrite Hw4, Hr4, Hr3, Hp4. simpl.
    rewrite andb_true_r. clear. induction (Z.to_nat size); simpl; done.
  - rewrite Hx4, Hx3. simpl. by rewrite Hx1.
Qed.

(** In a reachable state neither channel is full when a goroutine wants
    to send on it. *)
Lemma Send_never_blocks job s x l :
  inv job s → sender s = Some (x :: l) → is_Some (step job Send s).
Proof.
  intros I Hs. unfold step. rewrite (inv_panicked _ _ I), Hs.
  rewrite bool_decide_true; [done|].
  pose proof (pending_length _ _ I) as Hlen. unfold pending, unsent in Hlen.
  rewrite Hs in Hlen. simpl in Hlen. rewrite !length_app in Hlen. lia.
Qed.

Lemma Emit_never_blocks job s w i r :
  inv job s → workers s !! w = Some (Holding i r) → is_Some (step job (Emit w) s).
Proof.
  intros I Hw. unfold step. rewrite (inv_panicked _ _ I), Hw.
  rewrite bool_decide_true; [done|].
  pose proof (pending_length _ _ I) as Hlen. unfold pending in Hlen.
  rewrite (holding_give _ _ _ _ Idle Hw) in Hlen by auto.
  rewrite !length_app, fmap_cons, !length_fmap in Hlen. simpl in Hlen. lia.
Qed.

(** [ProcessJob] returns for every job, pool and store outcome. *)
Lemma ProcessJob_returns p job w os up now1 ex2 now2 :
  length os = length (Inputs job) →
  ∃ w' s ret,
    ProcessJob p
      {| exec_processing := DbOk; now_processing := now1;
         schedule := sequential (size p) (length (Inputs job)) os;
         upload := up; exec_final := ex2; now_final := now2 |} job w
    = Some (w', Some s, ret) ∧ ctx_done s = false.
Proof.
  intros Hlen. unfold ProcessJob, UpdateJobStatus. simpl.
  destruct (sequential_drains (size p) job
              (alter (set_status StatusProcessing "" "" now1.2 None) (ID job) (jobs w))
              os Hlen) as (s & -> & -> & Hctx).
  simpl. destruct up, ex2; simpl; eauto.
Qed.

End pool_facts.


(** ** The worker pool *)

Module pool_claims.
Import storage worker pool_inv pool_facts.

(** C2, as amended.  For a pool of at least one worker whose context is
    not cancelled, whatever the schedule of the goroutines: the manifest
    passed to the one [UploadResults] call has one slot per input, and slot
    [i] holds a result whose input is [Inputs[i]]. *)
Theorem manifest_preserves_input_order p env job w w' s ret :
  ProcessJob p env job w = Some (w', Some s, ret) →
  0 < size p →
  ctx_done s = false →
  ∃ m, uploads w' = uploads w ++ [(ID job, m)] ∧
       length m = length (Inputs job) ∧
       ∀ i x, Inputs job !! i = Some x →
              ∃ d, m !! i = Some (Some d) ∧ rd_input d = x.
Proof.
  intros HP Hsize Hctx. pose proof (ProcessJob_inv _ _ _ _ _ _ _ HP) as I.
  destruct (ProcessJob_ran _ _ _ _ _ _ _ HP) as (_ & Hrun & Hdr & Hup & _).
  exists (results s). split_and!; [done|by apply inv_length|].
  by eapply manifest_order_aux.
Qed.

Lemma manifest_preserves_input_order_witness :
  ∃ m, uploads (scenario.run_of 2 scenario.env3 scenario.job3
                  (scenario.created scenario.job3)).1.1
       = uploads (scenario.created scenario.job3) ++ [(ID scenario.job3, m)] ∧
       length m = length (Inputs scenario.job3) ∧
       ∀ i x, Inputs scenario.job3 !! i = Some x →
              ∃ d, m !! i = Some (Some d) ∧ rd_input d = x.
Proof.
  eapply (manifest_preserves_input_order {| size := 2 |} scenario.env3 scenario.job3).
  - vm_compute. reflexivity.
  - simpl. lia.
  - reflexivity.
Defined.

(** C2, counterexample.  A pool of size 0 starts no worker: the loop is
    left at once, the job is marked completed and the uploaded manifest has
    an empty slot for the only input. *)
Lemma empty_pool_uploads_blank_manifest :
  ∃ w' s, ProcessJob {| size := 0 |} scenario.env1 scenario.job1
            (scenario.created scenario.job1) = Some (w', Some s, None) ∧
          r_status <$> jobs w' !! "job-1" = Some StatusCompleted ∧
          Inputs scenario.job1 !! 0%nat = Some (scenario.input 1) ∧
          uploads w' = [("job-1", [None])].
Proof. eexists _, _. split_and!; [vm_compute; reflexivity|done..]. Qed.

(** The same happens with workers when the context is cancelled early. *)
Lemma cancelled_pool_uploads_blank_manifest :
  ∃ w' s, ProcessJob {| size := 1 |} scenario.env1c scenario.job1
            (scenario.created scenario.job1) = Some (w', Some s, None) ∧
          ctx_done s = true ∧
          r_status <$> jobs w' !! "job-1" = Some StatusCompleted ∧
          uploads w' = [("job-1", [None])].
Proof. eexists _, _. split_and!; [vm_compute; reflexivity|done..]. Qed.

(** The row of a job whose [ProcessJob] entered the loop, afterwards. *)
Lemma ProcessJob_row p env job w w' s ret r :
  ProcessJob p env job w = Some (w', Some s, ret) →
  jobs w' !! ID job = Some r →
  ∃ r1, (r_status r1 = StatusProcessing ∧ r_result_url r1 = Some "" ∧
         r_error_msg r1 = Some "" ∧ r_completed_at r1 = None) ∧
        match exec_final env with
        | DbErr _ => r = r1
        | DbOk =>
            let '(st, resultURL, msg) := verdict env job s in
            r = set_status st resultURL msg (snd (now_final env))
                  (if terminal st then Some (fst (now_final env)) else None) r1
        end.
Proof.
  intros HP Hr.
  destruct (ProcessJob_ran _ _ _ _ _ _ _ HP) as (_ & Hrun & _ & _ & Hjobs).
  destruct (jobs w !! ID job) as [r0|] eqn:Hr0.
  - destruct (run_row _ _ _ _ _ _ Hrun Hr0) as (r1 & Hr1 & Hpo).
    exists r1. split; [by rewrite Hpo|].
    clear Hpo. rewrite Hjobs in Hr. unfold UpdateJobStatus in Hr.
    destruct (exec_final env); simpl in Hr.
    + rewrite lookup_alter_eq, Hr1 in Hr. simplify_eq/=.
      by destruct (verdict env job s) as [[[] ?] ?].
    + congruence.
  - pose proof (run_row_None _ _ _ _ _ Hrun Hr0) as Hn.
    rewrite Hjobs in Hr. unfold UpdateJobStatus in Hr.
    destruct (exec_final env); simpl in Hr.
    + rewrite lookup_alter_eq, Hn in Hr. done.
    + congruence.
Qed.

(** C1, as amended.  For a job the pool has driven to a terminal status
    (the object store returning non-empty URLs and error texts): a completed
    job has a result-manifest reference, and an error summary exactly when
    some item errored; a failed job has an error summary, and a
    result-manifest reference exactly when the upload succeeded.  Never
    neither; both for partial and for total item failure. *)
Theorem terminal_fields p env job w w' s ret r :
  ProcessJob p env job w = Some (w', Some s, ret) →
  jobs w' !! ID job = Some r →
  terminal (r_status r) = true →
  (∀ u, upload env = Uploaded u → u ≠ "") →
  (∀ e, upload env = UploadFails e → e ≠ "") →
  (r_status r = StatusCompleted →
     has_result r ∧ (has_error r ↔ 0 < count errored (results s)))
  ∧ (r_status r = StatusFailed →
     has_error r ∧ (has_result r ↔ ∃ u, upload env = Uploaded u)).
Proof.
  intros HP Hr Hterm Hurl Herr.
  pose proof (ProcessJob_inv _ _ _ _ _ _ _ HP) as I.
  destruct (ProcessJob_row _ _ _ _ _ _ _ _ HP Hr) as (r1 & (Hst & _) & Hrow).
  destruct (exec_final env).
  2:{ subst r. rewrite Hst in Hterm. done. }
  unfold verdict in Hrow. rewrite <-(inv_errorCount _ _ I).
  unfold has_result, has_error.
  destruct (upload env) as [u|e]; subst r; simpl.
  - specialize (Hurl u eq_refl). split.
    + intros _. split; [done|]. apply errorMsg_nonempty.
    + intros Hf. split.
      * apply errorMsg_nonempty. unfold finalStatus in Hf.
        case_bool_decide; [lia|]. simpl in Hf. done.
      * split; eauto.
  - specialize (Herr e eq_refl). split; [done|].
    intros _. split; [done|]. split; [done|]. intros [u ?]. done.
Qed.

Lemma terminal_fields_witness :
  let r := {| r_id := "job-2"; r_model := "m"; r_version := "1";
              r_inputs := [scenario.input 1; scenario.input 2];
              r_status := StatusFailed; r_progress := (2, 2);
              r_total_items := 2; r_completed := 2;
              r_result_url := Some (scenario.url "job-2");
              r_error_msg := Some "2/2 items failed";
              r_created_at := 1; r_updated_at := 20;
              r_completed_at := Some 20 |} in
  let s := scenario.state_of 1 scenario.env2f scenario.job2
             (scenario.created scenario.job2) in
  (r_status r = StatusCompleted →
     has_result r ∧ (has_error r ↔ 0 < count errored (results s)))
  ∧ (r_status r = StatusFailed →
     has_error r ∧ (has_result r ↔ ∃ u, upload scenario.env2f = Uploaded u)).
Proof.
  intros r s.
  eapply (terminal_fields {| size := 1 |} scenario.env2f scenario.job2
            (scenario.created scenario.job2)).
  - vm_compute. reflexivity.
  - vm_compute. reflexivity.
  - reflexivity.
  - intros u [= <-]. done.
  - intros e [=].
Defined.

(** C1, counterexample.  One of two items fails: the job is completed and
    carries both a result-manifest reference and an error summary. *)
Lemma partial_failure_sets_both_fields :
  ∃ w' s r, ProcessJob {| size := 1 |} scenario.env2 scenario.job2
              (scenario.created scenario.job2) = Some (w', Some s, None) ∧
            jobs w' !! "job-2" = Some r ∧
            r_status r = StatusCompleted ∧
            ResultURL (scan r) = "http://minio/results/job-2.json" ∧
            ErrorMsg (scan r) = "1/2 items failed".
Proof. eexists _, _, _. split_and!; [vm_compute; reflexivity|vm_compute; reflexivity|done..]. Qed.

(** Every item fails: the job is failed and carries both fields as well. *)
Lemma total_failure_sets_both_fields :
  ∃ w' s r, ProcessJob {| size := 1 |} scenario.env2f scenario.job2
              (scenario.created scenario.job2) = Some (w', Some s, None) ∧
            jobs w' !! "job-2" = Some r ∧
            r_status r = StatusFailed ∧
            ResultURL (scan r) = "http://minio/results/job-2.json" ∧
            ErrorMsg (scan r) = "2/2 items failed".
Proof. eexists _, _, _. split_and!; [vm_compute; reflexivity|vm_compute; reflexivity|done..]. Qed.

(** C3, as amended.  When the pool has drained a job of [N] items whose
    manifest holds [E] errored results, it has made exactly one
    [UploadResults] call; if the upload and the status update succeed, the
    job is failed exactly when [E = N] and [N > 0], and completed otherwise
    (that is when [E < N] or the job is empty), with error summary
    ["E/N items failed"] when [E > 0] and an empty one when [E = 0]. *)
Theorem drain_outcome p env job w w' s ret r0 u :
  ProcessJob p env job w = Some (w', Some s, ret) →
  TotalItems job = Z.of_nat (length (Inputs job)) →
  jobs w !! ID job = Some r0 →
  upload env = Uploaded u →
  exec_final env = DbOk →
  let N := TotalItems job in
  let E := count errored (results s) in
  uploads w' = uploads w ++ [(ID job, results s)] ∧
  ∃ r, jobs w' !! ID job = Some r ∧
       r_result_url r = Some u ∧
       (r_status r = StatusFailed ↔ E = N ∧ 0 < N) ∧
       (r_status r = StatusCompleted ↔ E < N ∨ N = 0) ∧
       (0 < E → r_error_msg r = Some (pretty E +:+ "/" +:+ pretty N +:+ " items failed")) ∧
       (E = 0 → r_error_msg r = Some "").
Proof.
  intros HP HN Hr0 Hup Hex N E.
  pose proof (ProcessJob_inv _ _ _ _ _ _ _ HP) as I.
  destruct (ProcessJob_ran _ _ _ _ _ _ _ HP) as (_ & Hrun & _ & Hlog & Hjobs).
  split; [done|].
  destruct (run_row _ _ _ _ _ _ Hrun Hr0) as (r1 & Hr1 & _).
  rewrite Hjobs, Hex. unfold UpdateJobStatus, verdict. rewrite Hup. simpl.
  rewrite lookup_alter_eq, Hr1. simpl. eexists. split; [done|]. simpl.
  rewrite (inv_errorCount _ _ I). fold E. fold N.
  assert (0 ≤ E ≤ N) as HE.
  { pose proof (count_bounds errored (results s)) as Hb.
    rewrite (inv_length _ _ I) in Hb. unfold E, N. lia. }
  unfold finalStatus, errorMsg.
  split_and!; try done; repeat case_bool_decide; simpl; try done;
    try (split; intros; try done; lia); try lia.
Qed.

Lemma drain_outcome_witness :
  let w := scenario.created scenario.job2 in
  let w' := (scenario.run_of 1 scenario.env2 scenario.job2 w).1.1 in
  let s := scenario.state_of 1 scenario.env2 scenario.job2 w in
  let N := TotalItems scenario.job2 in
  let E := count errored (results s) in
  uploads w' = uploads w ++ [(ID scenario.job2, results s)] ∧
  ∃ r, jobs w' !! ID scenario.job2 = Some r ∧
       r_result_url r = Some (scenario.url "job-2") ∧
       (r_status r = StatusFailed ↔ E = N ∧ 0 < N) ∧
       (r_status r = StatusCompleted ↔ E < N ∨ N = 0) ∧
       (0 < E → r_error_msg r = Some (pretty E +:+ "/" +:+ pretty N +:+ " items failed")) ∧
       (E = 0 → r_error_msg r = Some "").
Proof.
  intros w w' s.
  eapply (drain_outcome {| size := 1 |} scenario.env2 scenario.job2 w).
  - vm_compute. reflexivity.
  - reflexivity.
  - vm_compute. reflexivity.
  - reflexivity.
  - reflexivity.
Defined.

(** C3, counterexample.  A job without inputs has [E = N = 0]; it is
    drained, its (empty) manifest is uploaded and it is completed, not
    failed. *)
Lemma empty_job_is_completed :
  ∃ w' s r, ProcessJob {| size := 1 |} scenario.env0 scenario.job0
              (scenario.created scenario.job0) = Some (w', Some s, None) ∧
            jobs w' !! "job-0" = Some r ∧
            count errored (results s) = TotalItems scenario.job0 ∧
            r_status r = StatusCompleted.
Proof. eexists _, _, _. split_and!; [vm_compute; reflexivity|vm_compute; reflexivity|done..]. Qed.

(** C5, as amended.  [ProcessJob] has no guard on the stored status.  When
    it is invoked for a job whose row is stored (terminal or not) and its
    first status update succeeds, the goroutines start from a row reset to
    [processing] with empty result URL and error message and no completion
    time; exactly one [UploadResults] call is made; and with at least one
    worker and a live context every input is processed again. *)
Theorem ProcessJob_reexecutes p env job w w' so ret r0 :
  ProcessJob p env job w = Some (w', so, ret) →
  jobs w !! ID job = Some r0 →
  exec_processing env = DbOk →
  ∃ s r1,
    so = Some s ∧
    run job (schedule env) (init (size p) job (processing_table env job (jobs w))) = Some s ∧
    processing_table env job (jobs w) !! ID job = Some r1 ∧
    r_status r1 = StatusProcessing ∧ r_result_url r1 = Some "" ∧
    r_error_msg r1 = Some "" ∧ r_completed_at r1 = None ∧
    uploads w' = uploads w ++ [(ID job, results s)] ∧
    (0 < size p → ctx_done s = false →
     ∀ i x, Inputs job !! i = Some x →
            ∃ d, results s !! i = Some (Some d) ∧ rd_input d = x).
Proof.
  intros HP Hr0 Hex. destruct so as [s|].
  2:{ apply ProcessJob_refused in HP as (_ & e & He). congruence. }
  destruct (ProcessJob_ran _ _ _ _ _ _ _ HP) as (_ & Hrun & Hdr & Hlog & _).
  eexists s, _. split_and!; try done.
  - unfold processing_table. by rewrite lookup_alter_eq, Hr0.
  - done.
  - done.
  - done.
  - done.
  - intros Hsize Hctx.
    by eapply manifest_order_aux.
Qed.

Lemma ProcessJob_reexecutes_witness :
  let w := scenario.after_first_run in
  let out := scenario.run_of 1 scenario.env1f scenario.job1 w in
  ∃ s r1,
    out.1.2 = Some s ∧
    run scenario.job1 (schedule scenario.env1f)
      (init 1 scenario.job1 (processing_table scenario.env1f scenario.job1 (jobs w))) = Some s ∧
    processing_table scenario.env1f scenario.job1 (jobs w) !! ID scenario.job1 = Some r1 ∧
    r_status r1 = StatusProcessing ∧ r_result_url r1 = Some "" ∧
    r_error_msg r1 = Some "" ∧ r_completed_at r1 = None ∧
    uploads out.1.1 = uploads w ++ [(ID scenario.job1, results s)] ∧
    (0 < 1 → ctx_done s = false →
     ∀ i x, Inputs scenario.job1 !! i = Some x →
            ∃ d, results s !! i = Some (Some d) ∧ rd_input d = x).
Proof.
  intros w out.
  eapply (ProcessJob_reexecutes {| size := 1 |} scenario.env1f scenario.job1 w).
  - vm_compute. reflexivity.
  - vm_compute. reflexivity.
  - reflexivity.
Defined.

(** C5, counterexample.  The stored job is completed; invoking the
    executor for it again (the backend now failing) dispatches the item,
    uploads a second manifest and turns the stored record into a failed one. *)
Lemma rerun_overwrites_completed_job :
  ∃ r w' s r',
    jobs scenario.after_first_run !! "job-1" = Some r ∧
    r_status r = StatusCompleted ∧
    ProcessJob {| size := 1 |} scenario.env1f scenario.job1 scenario.after_first_run
      = Some (w', Some s, None) ∧
    jobs w' !! "job-1" = Some r' ∧
    r_status r' = StatusFailed ∧
    r_error_msg r' = Some "1/1 items failed" ∧
    length (uploads scenario.after_first_run) = 1%nat ∧
    length (uploads w') = 2%nat ∧
    completed s = 1.
Proof.
  eexists _, _, _, _.
  split_and!; [vm_compute; reflexivity|done|vm_compute; reflexivity
              |vm_compute; reflexivity|done..].
Qed.


End pool_claims.

(** ** The consumer *)

Module consumer_facts.
Import storage worker consumer.

(** The consumer builds jobs whose [TotalItems] is the number of inputs. *)
Lemma job_of_TotalItems jobMsg now :
  TotalItems (job_of jobMsg now) = Z.of_nat (length (Inputs (job_of jobMsg now))).
Proof. reflexivity. Qed.

(** A descriptor whose job id is already stored, in whatever status, is
    acknowledged without the executor being invoked: [CreateJob] is a plain
    INSERT and fails on the primary key. *)
Lemma ConsumeClaim_existing_id pool env message s jobMsg r0 :
  Value message = Some jobMsg →
  jobs (store s) !! jstring "job_id" jobMsg = Some r0 →
  ConsumeClaim pool env message s
  = Some {| marked := marked s ++ [Offset message]; store := store s |}.
Proof.
  intros Hv Hr0. unfold ConsumeClaim, CreateJob. rewrite Hv. simpl.
  destruct (exec_create env); [|done]. simpl in *. by rewrite Hr0.
Qed.

(** A malformed message is acknowledged and dropped. *)
Lemma ConsumeClaim_malformed pool env message s :
  Value message = None →
  ConsumeClaim pool env message s
  = Some {| marked := marked s ++ [Offset message]; store := store s |}.
Proof. intros Hv. unfold ConsumeClaim. by rewrite Hv. Qed.

End consumer_facts.

(** ** The router *)

Module router_claims.
Import gotime router.

Lemma executeRequest_error env backend :
  (executeRequest env backend).2 ≠ None ↔ fails (outcome env) = true.
Proof.
  unfold executeRequest, fails. destruct (outcome env) as [| | |code raw [res|e]]; simpl;
    try case_bool_decide; simpl; naive_solver.
Qed.

Lemma currentState_closed cb now e :
  gobreaker.state cb = gobreaker.StateClosed → gobreaker.expiry cb = Some e →
  now ≤ e → gobreaker.currentState cb now = cb.
Proof.
  intros Hs He Hle. unfold gobreaker.currentState. rewrite Hs, He.
  by rewrite bool_decide_false by lia.
Qed.

(** C4, as amended.  The breaker is handed the bare error of
    [executeRequest] and built without [IsSuccessful]: on a closed breaker
    within its interval a call is a success only for a 200 response whose
    body decodes; every other outcome (a transport error, a 5xx and equally
    a 4xx response) increments the failure counters and is fed to the trip
    predicate, opening the breaker when it holds. *)
Theorem breaker_counts_every_error env backend e :
  let cb := CircuitBreaker backend in
  gobreaker.isSuccessful cb = gobreaker.defaultIsSuccessful →
  gobreaker.readyToTrip cb = readyToTrip →
  gobreaker.state cb = gobreaker.StateClosed →
  gobreaker.expiry cb = Some e →
  t_before env ≤ e → t_after env ≤ e →
  let c1 := gobreaker.Counts_onRequest (gobreaker.counts cb) in
  (guarded env backend).1.1 =
    (if fails (outcome env) then
       if readyToTrip (gobreaker.Counts_onFailure c1)
       then gobreaker.setState
              (gobreaker.with_counts cb (gobreaker.Counts_onFailure c1))
              gobreaker.StateOpen (t_after env)
       else gobreaker.with_counts cb (gobreaker.Counts_onFailure c1)
     else gobreaker.with_counts cb (gobreaker.Counts_onSuccess c1))
  ∧ (∀ code raw decoded, outcome env = Response code raw decoded →
       code ≠ 200 → fails (outcome env) = true).
Proof.
  intros cb Hsucc Htrip Hst Hexp Hb Ha c1. split.
  2:{ intros code raw decoded -> Hc. simpl. destruct decoded; [|done].
      by apply bool_decide_eq_true. }
  unfold guarded, gobreaker.Execute, gobreaker.beforeRequest.
  fold cb. rewrite (currentState_closed cb _ e) by done.
  rewrite Hst. simpl.
  pose proof (executeRequest_error env backend) as Herr.
  destruct (executeRequest env backend) as [[b res] err]. simpl in *.
  unfold gobreaker.afterRequest.
  rewrite (currentState_closed _ _ e) by done. simpl.
  rewrite bool_decide_false by (intros H; by apply H).
  rewrite Hsucc. destruct err as [msg|]; simpl.
  - rewrite (proj1 Herr) by done.
    unfold gobreaker.onFailure. simpl. rewrite Hst, Htrip. done.
  - destruct (fails (outcome env)); [by destruct (proj2 Herr)|].
    unfold gobreaker.onSuccess. simpl. by rewrite Hst.
Qed.

Lemma breaker_counts_every_error_witness :
  ∃ backend, lookup "m" "1" (scenario_router.after_404s 2) = Some [backend] ∧
  let env := scenario_router.call_at 3 scenario_router.not_found in
  let cb := CircuitBreaker backend in
  let c1 := gobreaker.Counts_onRequest (gobreaker.counts cb) in
  (guarded env backend).1.1 =
    (if fails (outcome env) then
       if readyToTrip (gobreaker.Counts_onFailure c1)
       then gobreaker.setState
              (gobreaker.with_counts cb (gobreaker.Counts_onFailure c1))
              gobreaker.StateOpen (t_after env)
       else gobreaker.with_counts cb (gobreaker.Counts_onFailure c1)
     else gobreaker.with_counts cb (gobreaker.Counts_onSuccess c1))
  ∧ (∀ code raw decoded, outcome env = Response code raw decoded →
       code ≠ 200 → fails (outcome env) = true).
Proof.
  eexists. split; [vm_compute; reflexivity|].
  apply (breaker_counts_every_error _ _ (10 * Second)).
  - reflexivity.
  - reflexivity.
  - reflexivity.
  - reflexivity.
  - vm_compute. discriminate.
  - vm_compute. discriminate.
Defined.

(** C4, counterexample.  A backend answers 404 to three requests: the
    failure counter reaches 2 after the second, the third trips the breaker,
    and a fourth request is refused without reaching the backend. *)
Lemma three_404s_open_the_breaker :
  gobreaker.TotalFailures ∘ gobreaker.counts <$>
    scenario_router.breaker (scenario_router.after_404s 2) = Some 2 ∧
  gobreaker.state <$> scenario_router.breaker (scenario_router.after_404s 3)
    = Some gobreaker.StateOpen ∧
  (RouteRequest (scenario_router.call_at 4 scenario_router.answer) "m" "1"
     (scenario_router.after_404s 3)).2 = inr "circuit breaker is open".
Proof. split_and!; vm_compute; reflexivity. Qed.

Lemma lookup_RegisterBackend now model version url r :
  lookup model version (RegisterBackend now model version url r)
  = Some (default [] (lookup model version r)
          ++ [{| URL := url;
                 CircuitBreaker := gobreaker.NewCircuitBreaker (settings model version) now;
                 HealthStatus := true; LastCheck := now; AvgLatency := 0 |}]).
Proof.
  unfold lookup, RegisterBackend. rewrite lookup_insert_eq. simpl.
  rewrite lookup_insert_eq. by destruct (r !! model).
Qed.

(** C8, as amended.  [RegisterBackend] always appends: registering the
    same target twice under one key puts two endpoints with that target
    address at the end of the key's list, after whatever it held. *)
Theorem RegisterBackend_appends now1 now2 model version url r :
  ∃ b1 b2, URL b1 = url ∧ URL b2 = url ∧
    lookup model version
      (RegisterBackend now2 model version url (RegisterBackend now1 model version url r))
    = Some (default [] (lookup model version r) ++ [b1; b2]).
Proof.
  eexists _, _. rewrite !lookup_RegisterBackend. simpl.
  rewrite <-app_assoc. simpl. split_and!; [| |reflexivity]; done.
Qed.

(** C8, counterexample.  Registered twice in an empty registry, the target
    is listed twice. *)
Lemma duplicate_target_is_listed_twice :
  fmap (M := list) URL <$> lookup "m" "1" scenario_router.twice
  = Some ["http://b1:8082"; "http://b1:8082"] ∧
  ¬ NoDup ["http://b1:8082"; "http://b1:8082"].
Proof.
  split; [vm_compute; reflexivity|].
  intros [Hn _]%NoDup_cons. apply Hn, list_elem_of_here.
Qed.

End router_claims.

(** ** The gateway *)

Module gateway_claims.
Import gotime gateway.

Lemma bind_batch_nil r : Inputs r = None → ∃ details, bind_batch (inl r) = inr details.
Proof.
  intros H. unfold bind_batch. rewrite H. simpl.
  case_bool_decide; simpl; eauto.
Qed.

Lemma bind_batch_ok r :
  bModel r ≠ "" → Inputs r ≠ None → bind_batch (inl r) = inl r.
Proof.
  intros Hm Hi. unfold bind_batch.
  by rewrite !bool_decide_false by done.
Qed.

(** C6, as amended.  A batch submission that names a model is rejected
    with 400, nothing being published, when its [inputs] is absent or null;
    when [inputs] is an array, empty or not, and the publish succeeds, it is
    answered 202 and one descriptor carrying exactly those inputs is
    appended to the log. *)
Theorem batch_admission h env r log :
  bModel r ≠ "" →
  batch_marshal_error env = None →
  send_error env = None →
  match Inputs r with
  | None =>
      (BatchInference h env (inl r) log).1 = log ∧
      status (BatchInference h env (inl r) log).2 = 400
  | Some inputs =>
      ∃ descriptor,
        (BatchInference h env (inl r) log).1
        = log ++ [{| Topic := kafkaTopic h; Key := jobID env; Value := descriptor |}] ∧
        jget "inputs" descriptor = Some (JArr (JObj <$> inputs)) ∧
        status (BatchInference h env (inl r) log).2 = 202
  end.
Proof.
  intros Hm Hmar Hsend. destruct (Inputs r) as [inputs|] eqn:Hi.
  - unfold BatchInference. rewrite bind_batch_ok by (done || congruence).
    rewrite Hmar, Hsend, Hi. simpl. eexists. split_and!; reflexivity.
  - destruct (bind_batch_nil r Hi) as [d Hd]. unfold BatchInference. by rewrite Hd.
Qed.

Lemma batch_admission_witness :
  ∃ descriptor,
    (BatchInference scenario_gateway.handler scenario_gateway.submit
       (inl scenario_gateway.empty_batch) []).1
    = [] ++ [{| Topic := "batch-inference"; Key := "7d9f2c1e-0001"; Value := descriptor |}] ∧
    jget "inputs" descriptor = Some (JArr (JObj <$> [])) ∧
    status (BatchInference scenario_gateway.handler scenario_gateway.submit
              (inl scenario_gateway.empty_batch) []).2 = 202.
Proof.
  apply (batch_admission scenario_gateway.handler scenario_gateway.submit
           scenario_gateway.empty_batch []).
  - simpl. discriminate.
  - reflexivity.
  - reflexivity.
Defined.

(** C6, counterexample.  A submission with [inputs: []] is answered 202
    and its descriptor, with no inputs, is published. *)
Lemma empty_batch_is_published :
  BatchInference scenario_gateway.handler scenario_gateway.submit
    (inl scenario_gateway.empty_batch) []
  = ([{| Topic := "batch-inference"; Key := "7d9f2c1e-0001";
         Value := [("created_at", JNum 100); ("inputs", JArr []);
                   ("job_id", JStr "7d9f2c1e-0001"); ("model", JStr "m");
                   ("version", JStr "1")] |}],
     {| status := 202;
        body := JObj [("job_id", JStr "7d9f2c1e-0001"); ("status", JStr "pending");
                      ("created_at", JNum 101)] |}).
Proof. reflexivity. Qed.

(** The descriptor published for an empty array is a job of zero items
    for the consumer. *)
Lemma empty_batch_is_consumed_as_empty_job :
  Inputs scenario_gateway.empty_batch = Some [] ∧
  storage.TotalItems
    (consumer.job_of [("created_at", JNum 100); ("inputs", JArr []);
                      ("job_id", JStr "7d9f2c1e-0001"); ("model", JStr "m");
                      ("version", JStr "1")] (0, 0)) = 0.
Proof. split; reflexivity. Qed.

Lemma RouteRequest_unknown cenv model version r :
  default [] (router.lookup model version r) = [] →
  ∃ err, router.RouteRequest cenv model version r = (r, inr err) ∧
         (err = "model not found: " +:+ model ∨
          err = "version not found: " +:+ model +:+ "/" +:+ version).
Proof.
  unfold router.lookup, router.RouteRequest. intros H.
  destruct (r !! model) as [versions|]; simpl in *; [|eauto].
  destruct (versions !! version) as [[|b bs]|]; simpl in *; eauto. done.
Qed.

(** C7, the code's divergence.  The specification surfaces an unknown
    target as 404, and the case [missing model] of the integration test
    [TestRealtimeInference] asserts [http.StatusNotFound].  The code does
    not: for every synchronous request the gateway admits and forwards,
    naming a (model, version) without registered backends, the router's
    handler answers 503 with the error ["model not found: m"] or
    ["version not found: m/v"], and the client receives HTTP 503 (with the
    body of any other failed inference), whether or not the router was
    reached. *)
Theorem unknown_target_is_503 h env transport cenv registry r :
  let version := if bool_decide (Version r = "") then "v1" else Version r in
  default [] (router.lookup (Model r) version registry) = [] →
  bind_infer (inl r) = inl r →
  marshal_error env = None →
  request_error env = None →
  (∃ err, (router.RouteInference cenv
             (Some {| router.RequestID := requestID env; router.Model := Model r;
                      router.Version := version; router.Input := Input r |}) registry).2
          = {| status := 503; body := error_body err |} ∧
          (err = "model not found: " +:+ Model r ∨
           err = "version not found: " +:+ Model r +:+ "/" +:+ version))
  ∧ status (RealTimeInference h env (via_router transport cenv registry) (inl r)) = 503.
Proof.
  intros version Hun Hbind Hmar Hreq.
  assert (Model r ≠ "" ∧ Input r ≠ None) as [Hm Hi].
  { unfold bind_infer in Hbind. repeat case_bool_decide; simpl in Hbind; done. }
  assert (version ≠ "") as Hv by (unfold version; by case_bool_decide).
  destruct (RouteRequest_unknown cenv (Model r) version registry Hun) as (err & Hroute & Herr).
  assert ((router.RouteInference cenv
             (Some {| router.RequestID := requestID env; router.Model := Model r;
                      router.Version := version; router.Input := Input r |}) registry).2
          = {| status := 503; body := error_body err |}) as Hresp.
  { unfold router.RouteInference, router.bind. simpl.
    rewrite !bool_decide_true by done. simpl.
    rewrite bool_decide_false by done. by rewrite Hroute. }
  split; [eauto|].
  unfold RealTimeInference. rewrite Hbind, Hmar, Hreq. fold version.
  unfold via_router. destruct transport; [done|]. by rewrite Hresp.
Qed.

Lemma unknown_target_is_503_witness :
  (∃ err, (router.RouteInference (scenario_router.call_at 1 scenario_router.answer)
             (Some {| router.RequestID := "7d9f2c1e-0002"; router.Model := "nope";
                      router.Version := "v1";
                      router.Input := Some [("data", JArr [JNum 1])] |})
             scenario_router.registry).2
          = {| status := 503; body := error_body err |} ∧
          (err = "model not found: " +:+ "nope" ∨
           err = "version not found: " +:+ "nope" +:+ "/" +:+ "v1"))
  ∧ status (RealTimeInference scenario_gateway.handler scenario_gateway.infer
              (via_router None (scenario_router.call_at 1 scenario_router.answer)
                 scenario_router.registry)
              (inl scenario_gateway.unknown_model)) = 503.
Proof.
  apply (unknown_target_is_503 scenario_gateway.handler scenario_gateway.infer None
           (scenario_router.call_at 1 scenario_router.answer)
           scenario_router.registry scenario_gateway.unknown_model).
  - vm_compute. reflexivity.
  - reflexivity.
  - reflexivity.
  - reflexivity.
Defined.

(** C7, on an empty registry.  No backend is registered for ["nope"]: the
    client receives 503 and the body of every failed inference, not 404. *)
Lemma unknown_model_is_not_404 :
  RealTimeInference scenario_gateway.handler scenario_gateway.infer
    (via_router None (scenario_router.call_at 1 scenario_router.answer)
       router.NewModelRouter)
    (inl scenario_gateway.unknown_model)
  = {| status := 503; body := JObj [("error", JStr "inference failed")] |}.
Proof. vm_compute. reflexivity. Qed.

(** C7, the failing input.  The request of the integration test's case
    [missing model], sent to the registry [main] builds: the test expects
    404, the gateway answers 503 with the fixed body. *)
Lemma missing_model_test_gets_503 :
  let resp := RealTimeInference scenario_gateway.handler scenario_gateway.infer
                (via_router None (scenario_router.call_at 1 scenario_router.answer)
                   scenario_router.deployed)
                (inl scenario_gateway.missing_model) in
  resp = {| status := 503; body := JObj [("error", JStr "inference failed")] |}
  ∧ status resp ≠ 404.
Proof. split; [vm_compute; reflexivity|vm_compute; discriminate]. Qed.

(** C10.  When the increment against the rate-limit store returns an
    error, the request is passed on, no counter changes and no rate-limit
    header is set; in particular it is not answered 429. *)
Theorem ratelimit_fails_open limit window env s e :
  incr_error env = Some e →
  RateLimit limit window env s = (s, Next []).
Proof. intros H. unfold RateLimit, Incr. by rewrite H. Qed.

Lemma ratelimit_fails_open_witness :
  RateLimit 3 Minute scenario_gateway.store_down scenario_gateway.at_limit
  = (scenario_gateway.at_limit, Next []).
Proof.
  apply (ratelimit_fails_open 3 Minute scenario_gateway.store_down
           scenario_gateway.at_limit "dial tcp: connection refused").
  reflexivity.
Defined.

(** A 429 is only ever produced from a count the store returned. *)
Lemma ratelimit_429_needs_count limit window env s s' code headers b :
  RateLimit limit window env s = (s', Abort code headers b) →
  incr_error env = None ∧ code = 429 ∧
  limit < default 0 (counters s !! ("ratelimit:" +:+ default (ClientIP env) (user_id env))) + 1.
Proof.
  unfold RateLimit, Incr. destruct (incr_error env); [done|].
  case_bool_decide; [|done]. intros [= <- <- <- <-]. split_and!; [done..|lia].
Qed.

(** With the store answering, the same principal is throttled. *)
Lemma ratelimit_throttles_when_store_answers :
  ∃ s' headers b,
    RateLimit 3 Minute scenario_gateway.store_up scenario_gateway.at_limit
    = (s', Abort 429 headers b).
Proof. eexists _, _, _. vm_compute. reflexivity. Qed.

End gateway_claims.

(** ** The object store *)

Module objstore_claims.
Import gotime objstore.

(** The expiry handed to the client is 604800 nanoseconds: under a
    millisecond, not seven days. *)
Lemma presign_expires_value :
  presign_expires = 604800 * Nanosecond ∧
  presign_expires < Millisecond ∧
  presign_expires ≠ 7 * 24 * Hour ∧
  7 * 24 * Hour = presign_expires * Second.
Proof. vm_compute. split_and!; done. Qed.

Lemma presign_refused b o :
  PresignedGetObject b o presign_expires
  = inr "Expires cannot be lesser than 1 second.".
Proof. reflexivity. Qed.

Lemma UploadResults_fails {M} env jobID (results : M) s :
  ∃ err, (UploadResults env jobID results s).2 = inr err.
Proof.
  unfold UploadResults. rewrite presign_refused.
  destruct (marshal_error env), (put_error env); eauto.
Qed.

(** C9.  [UploadResults] never returns a retrieval reference: the expiry it
    asks for is rejected by the client, after the manifest has been stored. *)
Theorem UploadResults_returns_no_url {M} env jobID (results : M) s :
  ∃ err, (UploadResults env jobID results s).2 = inr err ∧
         (marshal_error env = None → put_error env = None →
          err = "failed to generate presigned URL: Expires cannot be lesser than 1 second."
          ∧ objects (UploadResults env jobID results s).1
              !! ("results/" +:+ jobID +:+ ".json") = Some results).
Proof.
  unfold UploadResults.
  destruct (marshal_error env); [eexists; split; [done|done]|].
  destruct (put_error env); [eexists; split; [done|done]|].
  simpl. eexists. split; [done|]. intros _ _. split; [done|].
  apply lookup_insert_eq.
Qed.

(** With seven days passed as a duration the reference is valid for
    604800 seconds. *)
Lemma seven_days_would_be_accepted b o :
  PresignedGetObject b o (7 * 24 * Hour)
  = inl {| su_bucket := b; su_object := o; su_expires_seconds := 604800 |}.
Proof. reflexivity. Qed.

(** Behind the pool, the store therefore fails every job: a [ProcessJob]
    whose upload goes through [UploadResults] returns an error and never
    leaves the job completed. *)
Lemma pool_on_MinIOStore_never_completes {M} p env job w w' s ret r
    uenv (results : M) st render :
  worker.upload env
  = as_outcome (rendered render (UploadResults uenv (storage.ID job) results st).2) →
  worker.ProcessJob p env job w = Some (w', Some s, ret) →
  worker.jobs w' !! storage.ID job = Some r →
  storage.r_status r ≠ storage.StatusCompleted ∧ storage.r_result_url r = Some "".
Proof.
  intros Hup HP Hr.
  destruct (UploadResults_fails uenv (storage.ID job) results st) as (e & He).
  rewrite He in Hup. simpl in Hup.
  destruct (pool_claims.ProcessJob_row _ _ _ _ _ _ _ _ HP Hr)
    as (r1 & (Hst & Hurl & _) & Hrow).
  unfold pool_inv.verdict in Hrow. rewrite Hup in Hrow.
  destruct (worker.exec_final env); subst r; simpl; [done|].
  by rewrite Hst, Hurl.
Qed.

End objstore_claims.

(** * Further properties *)

(** ** The goroutines of the pool *)

Module pool_extras.
Import storage worker pool_inv pool_facts pool_progress.

Lemma reachable_inv size job t s : reachable size job t s → inv job s.
Proof. intros [sched Hrun]. eapply inv_run; [apply inv_init|done]. Qed.

Lemma reachable_step size job t a s s' :
  reachable size job t s → step job a s = Some s' → reachable size job t s'.
Proof.
  intros [sched Hrun] Hstep. exists (sched ++ [a]).
  rewrite run_app, Hrun. simpl. by rewrite Hstep.
Qed.

(** X1.  The collector never writes outside [results] and never writes a
    slot twice: the index of every result waiting on [resultChan] is in
    range, its slot is still nil, and the result carries the input of that
    index. *)
Theorem collector_writes_fresh_slot size job t s i r rest :
  reachable size job t s →
  resultChan s = (i, r) :: rest →
  (i < length (results s))%nat ∧ results s !! i = Some None ∧
  Inputs job !! i = Some (Input r) ∧
  panicked (collect job DbOk 0 i r rest s) = false.
Proof.
  intros I%reachable_inv Hch.
  destruct (inv_item _ _ I i (Input r)) as [Hin Hnone].
  { unfold pending. rewrite Hch, fmap_cons. rewrite !elem_of_app. do 3 right.
    apply list_elem_of_here. }
  assert (i < length (results s))%nat as Hlt by (by eapply lookup_lt_Some).
  split_and!; try done. unfold collect. by rewrite bool_decide_true.
Qed.

Lemma collector_writes_fresh_slot_witness :
  let job := scenario.job3 in
  let s := default (init 2 job ∅)
             (run job (take 10 scenario.out_of_order) (init 2 job ∅)) in
  let r := processInference (scenario.input 2) (scenario.doubled 2) in
  (1 < length (results s))%nat ∧ results s !! 1%nat = Some None ∧
  Inputs job !! 1%nat = Some (Input r) ∧
  panicked (collect job DbOk 0 1 r
              [(2%nat, processInference (scenario.input 3) (scenario.doubled 3));
               (0%nat, processInference (scenario.input 1) (scenario.doubled 1))] s) = false.
Proof.
  intros job s r.
  apply (collector_writes_fresh_slot 2 job ∅).
  - exists (take 10 scenario.out_of_order). vm_compute. reflexivity.
  - vm_compute. reflexivity.
Defined.

Lemma errored_filled (l : list (option ResultData)) : count errored l ≤ count filled l.
Proof.
  unfold count. induction l as [|[d|] l IH]; simpl; [lia| |lia].
  destruct (rd_error d); simpl; lia.
Qed.

Lemma counters_reach size job t s :
  reachable size job t s →
  0 ≤ errorCount s ≤ completed s ∧
  completed s ≤ Z.of_nat (length (Inputs job)).
Proof.
  intros I%reachable_inv.
  rewrite (inv_errorCount _ _ I), (inv_completed _ _ I).
  pose proof (count_bounds errored (results s)).
  pose proof (count_bounds filled (results s)) as Hf.
  rewrite (inv_length _ _ I) in Hf.
  pose proof (errored_filled (results s)). lia.
Qed.

(** X2.  In every state of a [ProcessJob] call the counters satisfy
    [0 <= errorCount <= completed <= len(job.Inputs)], and [completed] is
    the number of slots of [results] that are filled. *)
Theorem counters_bounded size job t s :
  reachable size job t s →
  0 ≤ errorCount s ≤ completed s ∧
  completed s ≤ Z.of_nat (length (Inputs job)) ∧
  completed s = count filled (results s).
Proof.
  intros I%reachable_inv.
  rewrite (inv_errorCount _ _ I), (inv_completed _ _ I).
  pose proof (count_bounds errored (results s)).
  pose proof (count_bounds filled (results s)) as Hf.
  rewrite (inv_length _ _ I) in Hf.
  pose proof (errored_filled (results s)). lia.
Qed.

Lemma counters_bounded_witness :
  let s := scenario.state_of 1 scenario.env2 scenario.job2
             (scenario.created scenario.job2) in
  0 ≤ errorCount s ≤ completed s ∧
  completed s ≤ Z.of_nat (length (Inputs scenario.job2)) ∧
  completed s = count filled (results s).
Proof.
  intros s.
  apply (counters_bounded 1 scenario.job2
           (processing_table scenario.env2 scenario.job2
              (jobs (scenario.created scenario.job2)))).
  exists scenario.one_fails. vm_compute. reflexivity.
Defined.

(** X3.  The two channels, made with capacity [len(job.Inputs)], never
    block: in every state the sender can send its next item and a worker
    holding a result can send it. *)
Theorem channels_never_block size job t s :
  reachable size job t s →
  (∀ x l, sender s = Some (x :: l) → is_Some (step job Send s)) ∧
  (∀ w i r, workers s !! w = Some (Holding i r) → is_Some (step job (Emit w) s)).
Proof.
  intros I%reachable_inv. split.
  - intros x l. by apply Send_never_blocks.
  - intros w i r. by apply Emit_never_blocks.
Qed.

Lemma channels_never_block_witness :
  let job := scenario.job3 in
  let s := default (init 2 job ∅)
             (run job (take 6 scenario.out_of_order) (init 2 job ∅)) in
  (∀ x l, sender s = Some (x :: l) → is_Some (step job Send s)) ∧
  (∀ w i r, workers s !! w = Some (Holding i r) → is_Some (step job (Emit w) s)).
Proof.
  intros job s. apply (channels_never_block 2 job ∅).
  exists (take 6 scenario.out_of_order). vm_compute. reflexivity.
Defined.

Lemma sum_alive_insert ws w st0 st :
  ws !! w = Some st0 →
  (sum_list (alive <$> <[w := st]> ws) + alive st0
   = sum_list (alive <$> ws) + alive st)%nat.
Proof.
  revert w. induction ws as [|x ws IH]; intros [|w] Hw; simplify_eq/=; [lia|].
  specialize (IH _ Hw). lia.
Qed.

Lemma fuel_step job a s s' :
  step job a s = Some s' →
  (fuel s' + (if is_cancel a then 0 else 1) ≤ fuel s)%nat.
Proof.
  unfold step. destruct (panicked s); [done|].
  destruct a as [| | | |w o|w|w|w|exec now]; simpl.
  - intros [= <-]. unfold fuel, unsent. simpl. lia.
  - destruct (sender s) as [[|x rest]|] eqn:Hs; try done.
    case_bool_decide; [|done]. intros [= <-].
    unfold fuel, unsent. simpl. rewrite Hs, length_app. simpl. lia.
  - destruct (sender s) as [[|x rest]|] eqn:Hs; try done.
    destruct (ctx_done s); [|done]. intros [= <-].
    unfold fuel, unsent. simpl. rewrite Hs. simpl. lia.
  - destruct (sender s) as [[|x rest]|] eqn:Hs; try done.
    intros [= <-]. unfold fuel, unsent. simpl. rewrite Hs. simpl. lia.
  - destruct (workers s !! w) as [[| |]|] eqn:Hw; try done.
    destruct (inputChan s) as [|[i x] rest] eqn:Hc; [done|]. intros [= <-].
    unfold fuel, unsent. simpl. rewrite Hc. simpl.
    pose proof (sum_alive_insert _ _ _ (Holding i (processInference x o)) Hw).
    pose proof (Permutation_length (holding_take _ _ i (processInference x o) Hw)).
    simpl in *. lia.
  - destruct (workers s !! w) as [[|i r|]|] eqn:Hw; try done.
    case_bool_decide; [|done]. intros [= <-].
    unfold fuel, unsent. simpl. rewrite length_app. simpl.
    pose proof (sum_alive_insert _ _ _ Idle Hw).
    pose proof (Permutation_length (holding_give _ _ _ _ Idle Hw (or_introl eq_refl))).
    simpl in *. lia.
  - destruct (workers s !! w) as [[| |]|] eqn:Hw; try done.
    destruct (inputChan s) eqn:Hc; [|done].
    destruct (inputClosed s); [|done]. intros [= <-].
    unfold fuel, unsent. simpl. rewrite Hc. simpl.
    pose proof (sum_alive_insert _ _ _ Done Hw).
    pose proof (Permutation_length (holding_leave _ _ Hw)).
    simpl in *. lia.
  - destruct (workers s !! w) as [[|i r|]|] eqn:Hw; try done;
      (destruct (ctx_done s); [|done]); intros [= <-];
      unfold fuel, unsent; simpl;
      pose proof (sum_alive_insert _ _ _ Done Hw).
    + pose proof (Permutation_length (holding_leave _ _ Hw)). simpl in *. lia.
    + pose proof (Permutation_length (holding_give _ _ _ _ Done Hw (or_intror eq_refl))).
      simpl in *. lia.
  - destruct (resultChan s) as [|[i r] rest] eqn:Hc; [done|]. intros [= <-].
    unfold fuel, unsent, collect. rewrite Hc.
    case_bool_decide; simpl; lia.
Qed.

Lemma fuel_run job sched : ∀ s s',
  run job sched s = Some s' → (moves sched + fuel s' ≤ fuel s)%nat.
Proof.
  induction sched as [|a sched IH]; intros s s'; simpl.
  - intros [= <-]. unfold moves. simpl. lia.
  - destruct (step job a s) as [s1|] eqn:Hstep; [|done]. intros Hrun.
    apply IH in Hrun. apply fuel_step in Hstep.
    unfold moves in *. simpl. destruct (is_cancel a); simpl in *; lia.
Qed.

Lemma sum_alive_replicate n : sum_list (alive <$> replicate n Idle) = n.
Proof. induction n as [|n IH]; [done|]. cbn. by f_equal. Qed.

Lemma holding_replicate_Idle n : holding (replicate n Idle) = [].
Proof. induction n; simpl; done. Qed.

Lemma fuel_init size job t :
  fuel (init size job t) = (4 * length (Inputs job) + Z.to_nat size + 1)%nat.
Proof.
  unfold fuel, unsent, init, indexed. simpl.
  rewrite length_imap, sum_alive_replicate, holding_replicate_Idle. simpl. lia.
Qed.

(** X4.  [ProcessJob] cannot loop: whatever the order of the goroutines and
    however often the context is cancelled, the sender, the [size] workers
    and the collector together take at most [4 * len(job.Inputs) + size + 1]
    steps (every item is sent, received, emitted and collected at most once;
    the sender and every worker return at most once). *)
Theorem goroutines_take_boundedly_many_steps size job t sched s :
  run job sched (init size job t) = Some s →
  (moves sched + fuel s ≤ 4 * length (Inputs job) + Z.to_nat size + 1)%nat.
Proof. intros Hrun%fuel_run. by rewrite fuel_init in Hrun. Qed.

Lemma goroutines_take_boundedly_many_steps_witness :
  let s := default (init 2 scenario.job3 ∅)
             (run scenario.job3 scenario.out_of_order (init 2 scenario.job3 ∅)) in
  (moves scenario.out_of_order + fuel s
   ≤ 4 * length (Inputs scenario.job3) + Z.to_nat 2 + 1)%nat.
Proof.
  intros s.
  apply (goroutines_take_boundedly_many_steps 2 scenario.job3 ∅).
  vm_compute. reflexivity.
Defined.

Lemma sender_inv_step job a s s' :
  sender_inv s → step job a s = Some s' → sender_inv s'.
Proof.
  unfold sender_inv, step. intros I. destruct (panicked s); [done|].
  destruct a as [| | | |w o|w|w|w|exec now]; simpl.
  - intros [= <-]. simpl. auto.
  - destruct (sender s) as [[|x rest]|]; try done.
    case_bool_decide; [|done]. intros [= <-]; simpl; try done; auto.
  - destruct (sender s) as [[|x rest]|]; try done.
    destruct (ctx_done s) eqn:Hc; [|done]. intros [= <-]. simpl. auto.
  - destruct (sender s) as [[|x rest]|]; try done. intros [= <-]. simpl. auto.
  - destruct (workers s !! w) as [[| |]|]; try done.
    destruct (inputChan s) as [|[i x] rest]; [done|]. intros [= <-]; simpl; try done; auto.
  - destruct (workers s !! w) as [[|i r|]|]; try done.
    case_bool_decide; [|done]. intros [= <-]; simpl; try done; auto.
  - destruct (workers s !! w) as [[| |]|]; try done.
    destruct (inputChan s); [|done]. destruct (inputClosed s) eqn:Hcl; [|done].
    intros [= <-]; simpl; try done; auto.
  - destruct (workers s !! w) as [[|i r|]|]; try done;
      (destruct (ctx_done s) eqn:Hctx; [|done]); intros [= <-]; simpl; try done; auto.
  - destruct (resultChan s) as [|[i r] rest]; [done|]. intros [= <-].
    unfold collect. case_bool_decide; simpl; auto.
Qed.

Lemma sender_inv_run job sched : ∀ s s',
  sender_inv s → run job sched s = Some s' → sender_inv s'.
Proof.
  induction sched as [|a sched IH]; intros s s' I; simpl; [by intros [= <-]|].
  destruct (step job a s) as [s1|] eqn:Hstep; [|done].
  eapply IH, sender_inv_step; eauto.
Qed.

Lemma not_all_done ws :
  forallb is_done ws = false → ∃ w st, ws !! w = Some st ∧ is_done st = false.
Proof.
  induction ws as [|x ws IH]; simpl; [done|].
  destruct (is_done x) eqn:Hx; simpl.
  - intros (w & st & ? & ?)%IH. by exists (S w), st.
  - intros _. by exists 0%nat, x.
Qed.

(** X5.  The goroutines of [ProcessJob] cannot deadlock: in every state
    reached before the collection loop is left, the sender, a worker or the
    collector can take a step, without any help from a cancellation. *)
Theorem goroutines_never_deadlock size job t s :
  reachable size job t s → drained s = false →
  ∃ a, is_cancel a = false ∧ is_Some (step job a s).
Proof.
  intros Hr Hd. pose proof (reachable_inv _ _ _ _ Hr) as I.
  assert (sender_inv s) as Hs.
  { destruct Hr as [sched Hrun]. eapply sender_inv_run; [|done]. by intros ?. }
  pose proof (inv_panicked _ _ I) as Hp.
  unfold drained in Hd. rewrite Hp in Hd. simpl in Hd.
  rewrite andb_true_r in Hd. apply andb_false_iff in Hd as [Hd|Hd].
  - apply not_all_done in Hd as (w & st & Hw & Hst).
    destruct st as [|i r|]; [|exists (Emit w); split; [done|by eapply Emit_never_blocks]|done].
    destruct (inputChan s) as [|[i x] rest] eqn:Hc.
    + destruct (sender s) as [[|x l]|] eqn:Hsnd.
      * exists CloseInput. split; [done|]. unfold step. by rewrite Hp, Hsnd.
      * exists Send. split; [done|]. by eapply Send_never_blocks.
      * destruct (Hs Hsnd) as [Hcl|Hctx].
        -- exists (Exit w). split; [done|]. unfold step. by rewrite Hp, Hw, Hc, Hcl.
        -- exists (Abandon w). split; [done|]. unfold step. by rewrite Hp, Hw, Hctx.
    + exists (Receive w (MarshalFails "")). split; [done|]. unfold step.
      by rewrite Hp, Hw, Hc.
  - apply bool_decide_eq_false in Hd.
    destruct (resultChan s) as [|[i r] rest] eqn:Hc; [done|].
    exists (Collect DbOk 0). split; [done|]. unfold step. by rewrite Hp, Hc.
Qed.

Lemma goroutines_never_deadlock_witness :
  let job := scenario.job3 in
  let s := default (init 2 job ∅)
             (run job (take 6 scenario.out_of_order) (init 2 job ∅)) in
  ∃ a, is_cancel a = false ∧ is_Some (step job a s).
Proof.
  intros job s. apply (goroutines_never_deadlock 2 job ∅).
  - exists (take 6 scenario.out_of_order). vm_compute. reflexivity.
  - vm_compute. reflexivity.
Defined.

Lemma step_pg_other job a s s' id :
  step job a s = Some s' → id ≠ ID job → pg s' !! id = pg s !! id.
Proof.
  unfold step. intros Hstep Hid. destruct (panicked s); [done|].
  destruct a; repeat case_match; simplify_eq/=; try done.
  unfold collect. repeat case_match; simpl; try done.
  all: unfold UpdateJobProgress; destruct exec; simpl; try done.
  all: by rewrite lookup_alter_ne.
Qed.

Lemma run_pg_other job sched id : ∀ s s',
  run job sched s = Some s' → id ≠ ID job → pg s' !! id = pg s !! id.
Proof.
  induction sched as [|a sched IH]; intros s s' Hrun Hid; simplify_eq/=; [done|].
  destruct (step job a s) as [s1|] eqn:Hs; [|done].
  rewrite (IH _ _ Hrun Hid). by eapply step_pg_other.
Qed.

Lemma UpdateJobStatus_other exec now jobID st u e t id :
  id ≠ jobID → (UpdateJobStatus exec now jobID st u e t).1 !! id = t !! id.
Proof.
  intros Hid. unfold UpdateJobStatus. destruct exec; simpl; [|done].
  by rewrite lookup_alter_ne.
Qed.

Lemma ProcessJob_other p env job w w' os ret id :
  ProcessJob p env job w = Some (w', os, ret) → id ≠ ID job →
  jobs w' !! id = jobs w !! id.
Proof.
  intros HP Hid. destruct os as [s|].
  - destruct (ProcessJob_ran _ _ _ _ _ _ _ HP) as (_ & Hrun & _ & _ & ->).
    rewrite UpdateJobStatus_other by done.
    rewrite (run_pg_other _ _ _ _ _ Hrun Hid). simpl.
    unfold processing_table. by rewrite lookup_alter_ne.
  - by destruct (ProcessJob_refused _ _ _ _ _ _ HP) as [-> _].
Qed.

Lemma ProcessJob_dom p env job w w' os ret id :
  ProcessJob p env job w = Some (w', os, ret) →
  is_Some (jobs w' !! id) ↔ is_Some (jobs w !! id).
Proof.
  intros HP. destruct (decide (id = ID job)) as [->|Hid].
  2:{ by rewrite (ProcessJob_other _ _ _ _ _ _ _ _ HP Hid). }
  destruct os as [s|].
  2:{ by destruct (ProcessJob_refused _ _ _ _ _ _ HP) as [-> _]. }
  destruct (ProcessJob_ran _ _ _ _ _ _ _ HP) as (_ & Hrun & _ & _ & ->).
  pose proof (run_pg _ _ _ _ (ID job) Hrun) as H. simpl in H.
  unfold processing_table in H. rewrite lookup_alter_eq in H.
  assert (is_Some (pg s !! ID job) ↔ is_Some (jobs w !! ID job)) as Hiff.
  { inversion H as [r1 r2 Hpo H1 H2|H1 H2]; destruct (jobs w !! ID job);
      simplify_eq/=; split; intros [? ?]; simplify_eq; eauto. }
  unfold UpdateJobStatus. destruct (exec_final env); simpl; [|done].
  by rewrite lookup_alter_eq, fmap_is_Some.
Qed.

Lemma ProcessJob_uploads p env job w w' os ret :
  ProcessJob p env job w = Some (w', os, ret) →
  ∃ calls, uploads w' = uploads w ++ calls ∧ (length calls ≤ 1)%nat ∧
           ∀ c, c ∈ calls → c.1 = ID job.
Proof.
  intros HP. destruct os as [s|].
  - destruct (ProcessJob_ran _ _ _ _ _ _ _ HP) as (_ & _ & _ & -> & _).
    eexists. split; [done|]. split; [simpl; lia|].
    by intros c ->%list_elem_of_singleton.
  - destruct (ProcessJob_refused _ _ _ _ _ _ HP) as [-> _].
    exists []. rewrite app_nil_r. split; [done|]. split; [simpl; lia|].
    by intros c ?%elem_of_nil.
Qed.

(** X6.  [ProcessJob] is confined to its own job: whatever the goroutines,
    the stores and the backend do, the row of every other job id is left as
    it was, no row is added or removed, and the object store sees at most
    one new call, made for this job's id, after the calls it had seen. *)
Theorem ProcessJob_touches_only_its_job p env job w w' os ret :
  ProcessJob p env job w = Some (w', os, ret) →
  (∀ id, id ≠ ID job → jobs w' !! id = jobs w !! id) ∧
  (∀ id, is_Some (jobs w' !! id) ↔ is_Some (jobs w !! id)) ∧
  ∃ calls, uploads w' = uploads w ++ calls ∧ (length calls ≤ 1)%nat ∧
           ∀ c, c ∈ calls → c.1 = ID job.
Proof.
  intros HP. split_and!.
  - intros id Hid. by eapply ProcessJob_other.
  - intros id. by eapply ProcessJob_dom.
  - by eapply ProcessJob_uploads.
Qed.

Lemma ProcessJob_touches_only_its_job_witness :
  let w := scenario.created scenario.job2 in
  let w' := (scenario.run_of 1 scenario.env2 scenario.job2 w).1.1 in
  (∀ id, id ≠ ID scenario.job2 → jobs w' !! id = jobs w !! id) ∧
  (∀ id, is_Some (jobs w' !! id) ↔ is_Some (jobs w !! id)) ∧
  ∃ calls, uploads w' = uploads w ++ calls ∧ (length calls ≤ 1)%nat ∧
           ∀ c, c ∈ calls → c.1 = ID scenario.job2.
Proof.
  intros w w'.
  apply (ProcessJob_touches_only_its_job {| size := 1 |} scenario.env2 scenario.job2 w w'
           (scenario.run_of 1 scenario.env2 scenario.job2 w).1.2
           (scenario.run_of 1 scenario.env2 scenario.job2 w).2).
  vm_compute. reflexivity.
Defined.

Lemma stamped_set_status st u e now r :
  stamped (set_status st u e (snd now)
             (if bool_decide (st = StatusCompleted) || bool_decide (st = StatusFailed)
              then Some (fst now) else None) r).
Proof.
  unfold stamped, terminal. simpl.
  destruct (bool_decide _ || bool_decide _); split; try done; by intros [? ?].
Qed.

Lemma stamped_progress_only r r' : progress_only r r' → stamped r → stamped r'.
Proof. unfold progress_only, stamped. intros ->. done. Qed.

Lemma stamped_UpdateJobStatus exec now jobID st u e t :
  all_stamped t → all_stamped (UpdateJobStatus exec now jobID st u e t).1.
Proof.
  intros Ht id r. unfold UpdateJobStatus. destruct exec; simpl; [|apply Ht].
  destruct (decide (id = jobID)) as [->|Hid].
  - rewrite lookup_alter_eq. destruct (t !! jobID); intros; simplify_eq/=.
    apply stamped_set_status.
  - rewrite lookup_alter_ne by done. apply Ht.
Qed.

Lemma stamped_run job sched s s' :
  run job sched s = Some s' → all_stamped (pg s) → all_stamped (pg s').
Proof.
  intros Hrun Ht id r' Hr'. pose proof (run_pg _ _ _ _ id Hrun) as H.
  rewrite Hr' in H. inversion H as [r ? Hpo Hr|]; simplify_eq.
  eapply stamped_progress_only; [done|]. by eapply Ht.
Qed.

Lemma all_stamped_empty : all_stamped ∅.
Proof. intros id r. by rewrite lookup_empty. Qed.

Lemma stamped_CreateJob exec job t :
  all_stamped t → terminal (Status job) = false → all_stamped (CreateJob exec job t).1.
Proof.
  intros Ht Hst. unfold CreateJob. destruct exec; [|done].
  destruct (t !! ID job) eqn:Hrow; [done|]. simpl. intros id r.
  destruct (decide (id = ID job)) as [->|Hid].
  - rewrite lookup_insert_eq. intros [= <-]. unfold stamped. simpl.
    rewrite Hst. split; [done|]. by intros [? ?].
  - rewrite lookup_insert_ne by done. apply Ht.
Qed.

(** X7.  The job table keeps [completed_at] consistent with [status]
    across [ProcessJob]: if before the call every row has [completed_at]
    set exactly when its status is [completed] or [failed], the same holds
    after it, whether the call succeeds, fails at the upload or fails at a
    status update. *)
Theorem ProcessJob_keeps_completed_at_consistent p env job w w' os ret :
  all_stamped (jobs w) → ProcessJob p env job w = Some (w', os, ret) →
  all_stamped (jobs w').
Proof.
  intros Ht HP. destruct os as [s|].
  - destruct (ProcessJob_ran _ _ _ _ _ _ _ HP) as (_ & Hrun & _ & _ & ->).
    apply stamped_UpdateJobStatus. eapply stamped_run; [done|]. simpl.
    apply (stamped_UpdateJobStatus DbOk (now_processing env) (ID job)
             StatusProcessing "" "" _ Ht).
  - by destruct (ProcessJob_refused _ _ _ _ _ _ HP) as [-> _].
Qed.

Lemma ProcessJob_keeps_completed_at_consistent_witness :
  all_stamped (jobs (scenario.run_of 1 scenario.env2f scenario.job2
                       (scenario.created scenario.job2)).1.1).
Proof.
  apply (ProcessJob_keeps_completed_at_consistent {| size := 1 |} scenario.env2f
           scenario.job2 (scenario.created scenario.job2) _
           (scenario.run_of 1 scenario.env2f scenario.job2
              (scenario.created scenario.job2)).1.2
           (scenario.run_of 1 scenario.env2f scenario.job2
              (scenario.created scenario.job2)).2).
  - apply (stamped_CreateJob DbOk scenario.job2 ∅); [apply all_stamped_empty|done].
  - vm_compute. reflexivity.
Defined.

Lemma progress_step job a s s' :
  step job a s = Some s' →
  completed s ≤ completed s' ∧
  ∀ c, r_completed <$> pg s !! ID job = Some c →
       r_completed <$> pg s' !! ID job = Some c ∨
       r_completed <$> pg s' !! ID job = Some (completed s').
Proof.
  unfold step. intros Hstep. destruct (panicked s); [done|].
  destruct a; repeat case_match; simplify_eq/=; try (split; [lia|by auto]).
  unfold collect. repeat case_match; simpl; try (split; [lia|by auto]).
  all: unfold UpdateJobProgress; destruct exec; simpl; try (split; [lia|by auto]).
  all: split; [lia|]; intros c; rewrite lookup_alter_eq;
    destruct (pg s !! ID job); simpl; [by auto|done].
Qed.

Lemma progress_run job sched : ∀ s s' c,
  run job sched s = Some s' →
  r_completed <$> pg s !! ID job = Some c → c ≤ completed s →
  ∃ c', r_completed <$> pg s' !! ID job = Some c' ∧ c ≤ c' ≤ completed s'.
Proof.
  induction sched as [|a sched IH]; intros s s' c Hrun Hc Hle; simplify_eq/=.
  { exists c. split; [done|lia]. }
  destruct (step job a s) as [s1|] eqn:Hs; [|done].
  destruct (progress_step _ _ _ _ Hs) as [Hmono Hrow].
  destruct (Hrow _ Hc) as [H1|H1].
  - destruct (IH _ _ _ Hrun H1) as (c' & ? & ?); [lia|]. exists c'. split; [done|lia].
  - destruct (IH _ _ _ Hrun H1) as (c' & ? & ?); [lia|]. exists c'. split; [done|lia].
Qed.

(** X8.  During the first run of a job (its row holding [completed = 0],
    as [CreateJob] writes it) the stored progress is monotone: between any
    two states of the goroutines the [completed] column does not decrease,
    and it never exceeds the number of results collected, hence never
    [len(job.Inputs)] — although progress updates may fail or be skipped. *)
Theorem stored_progress_never_decreases size job t sched1 sched2 s1 s2 c1 :
  r_completed <$> t !! ID job = Some 0 →
  run job sched1 (init size job t) = Some s1 →
  run job sched2 s1 = Some s2 →
  r_completed <$> pg s1 !! ID job = Some c1 →
  ∃ c2, r_completed <$> pg s2 !! ID job = Some c2 ∧
        0 ≤ c1 ≤ c2 ∧ c2 ≤ completed s2 ≤ Z.of_nat (length (Inputs job)).
Proof.
  intros H0 Hrun1 Hrun2 Hc1.
  destruct (progress_run _ _ _ _ _ Hrun1 H0) as (c & Hc & Hle); [simpl; lia|].
  rewrite Hc1 in Hc. injection Hc as <-.
  destruct (progress_run _ _ _ _ _ Hrun2 Hc1) as (c2 & Hc2 & Hle2); [lia|].
  exists c2. split; [done|].
  assert (reachable size job t s2) as Hr.
  { exists (sched1 ++ sched2). by rewrite run_app, Hrun1. }
  pose proof (counters_reach _ _ _ _ Hr). lia.
Qed.

Lemma stored_progress_never_decreases_witness :
  let job := scenario.job3 in
  let t := jobs (scenario.created job) in
  let s1 := default (init 2 job t) (run job (take 11 scenario.out_of_order) (init 2 job t)) in
  let s2 := default s1 (run job (drop 11 scenario.out_of_order) s1) in
  ∃ c2, r_completed <$> pg s2 !! ID job = Some c2 ∧
        0 ≤ 1 ≤ c2 ∧ c2 ≤ completed s2 ≤ Z.of_nat (length (Inputs job)).
Proof.
  intros job t s1 s2.
  apply (stored_progress_never_decreases 2 job t (take 11 scenario.out_of_order)
           (drop 11 scenario.out_of_order) s1 s2 1).
  - vm_compute. reflexivity.
  - vm_compute. reflexivity.
  - vm_compute. reflexivity.
  - vm_compute. reflexivity.
Defined.

Lemma alter_absent {A} (f : A → A) (t : gmap string A) k :
  t !! k = None → alter f k t = t.
Proof.
  intros H. apply map_eq. intros i. destruct (decide (i = k)) as [->|].
  - by rewrite lookup_alter_eq, H.
  - by rewrite lookup_alter_ne.
Qed.

Lemma step_pg_absent job a s s' :
  step job a s = Some s' → pg s !! ID job = None → pg s' = pg s.
Proof.
  unfold step. intros Hstep Hrow. destruct (panicked s); [done|].
  destruct a; repeat case_match; simplify_eq/=; try done.
  unfold collect. repeat case_match; simpl; try done.
  all: unfold UpdateJobProgress; destruct exec; simpl; try done.
  all: by apply alter_absent.
Qed.

Lemma run_pg_absent job sched : ∀ s s',
  run job sched s = Some s' → pg s !! ID job = None → pg s' = pg s.
Proof.
  induction sched as [|a sched IH]; intros s s' Hrun Hrow; simplify_eq/=; [done|].
  destruct (step job a s) as [s1|] eqn:Hs; [|done].
  pose proof (step_pg_absent _ _ _ _ Hs Hrow) as H1.
  rewrite (IH _ _ Hrun) by (by rewrite H1). done.
Qed.

(** X9.  The status and progress updates are UPDATE statements whose
    [WHERE id = ...] may match no row, which is no error: [ProcessJob] called
    for a job that has no row runs the whole job, uploads the manifest and,
    when the upload succeeds and the database answers, returns nil, while
    the table is left exactly as it was. *)
Theorem ProcessJob_without_row_records_nothing p env job w w' s ret :
  jobs w !! ID job = None →
  ProcessJob p env job w = Some (w', Some s, ret) →
  jobs w' = jobs w ∧
  uploads w' = uploads w ++ [(ID job, results s)] ∧
  (exec_final env = DbOk → (∃ u, upload env = Uploaded u) → ret = None).
Proof.
  intros Hrow HP.
  destruct (ProcessJob_ran _ _ _ _ _ _ _ HP) as (Hex & Hrun & Hd & Hup & Hj).
  assert (processing_table env job (jobs w) = jobs w) as Ht
    by (by apply alter_absent).
  rewrite Ht in Hrun. pose proof (run_pg_absent _ _ _ _ Hrun Hrow) as Hpg.
  simpl in Hpg. split_and!; [|done|].
  - rewrite Hj, Hpg. unfold UpdateJobStatus. destruct (exec_final env); [|done].
    simpl. by apply alter_absent.
  - intros Hfin [u Hu]. revert HP. unfold ProcessJob, UpdateJobStatus.
    rewrite Hex, Hfin, Hu. simpl.
    clear. repeat case_match; intros; by simplify_eq.
Qed.

Lemma ProcessJob_without_row_records_nothing_witness :
  let w := {| jobs := ∅; uploads := [] |} in
  let out := scenario.run_of 1 scenario.env2f scenario.job2 w in
  jobs out.1.1 = jobs w ∧
  uploads out.1.1
  = uploads w ++ [(ID scenario.job2, results (scenario.state_of 1 scenario.env2f scenario.job2 w))] ∧
  (exec_final scenario.env2f = DbOk → (∃ u, upload scenario.env2f = Uploaded u) →
   out.2 = None).
Proof.
  intros w out.
  apply (ProcessJob_without_row_records_nothing {| size := 1 |} scenario.env2f
           scenario.job2 w out.1.1).
  - reflexivity.
  - vm_compute. reflexivity.
Defined.

Lemma step_ctx_done job a s s' :
  step job a s = Some s' → ctx_done s' = false → ctx_done s = false.
Proof.
  unfold step. destruct (panicked s); [done|].
  destruct a; repeat case_match; intros; simplify_eq/=; try congruence.
  match goal with H : ctx_done (collect _ _ _ _ _ _ _) = false |- _ =>
    unfold collect in H; revert H end.
  by case_bool_decide.
Qed.

Lemma run_ctx_done job sched : ∀ s s',
  run job sched s = Some s' → ctx_done s' = false → ctx_done s = false.
Proof.
  induction sched as [|a sched IH]; intros s s' Hrun Hctx; simplify_eq/=; [done|].
  destruct (step job a s) as [s1|] eqn:Hs; [|done].
  eapply step_ctx_done; [done|]. by eapply IH.
Qed.

(** In a run that is not cancelled no result is dropped: what has been
    received from [inputChan] is held, queued or collected. *)
Lemma step_in_flight job a s s' :
  step job a s = Some s' → ctx_done s' = false →
  Z.of_nat (length (holding (workers s')) + length (resultChan s')) + completed s'
  = Z.of_nat (length (holding (workers s)) + length (resultChan s)) + completed s
    + Z.b2z (is_receive a)
  ∧ completed s' = completed s + Z.b2z (is_collect a).
Proof.
  unfold step. destruct (panicked s); [done|].
  destruct a as [| | | |w o|w|w|w|exec now]; simpl.
  - by intros [= <-].
  - destruct (sender s) as [[|x rest]|]; try done.
    case_bool_decide; [|done]. intros [= <-] _. simpl. lia.
  - destruct (sender s) as [[|x rest]|]; try done.
    destruct (ctx_done s); [|done]. intros [= <-] _. simpl. lia.
  - destruct (sender s) as [[|x rest]|]; try done. intros [= <-] _. simpl. lia.
  - destruct (workers s !! w) as [[| |]|] eqn:Hw; try done.
    destruct (inputChan s) as [|[i x] rest]; [done|]. intros [= <-] _. simpl.
    pose proof (Permutation_length (holding_take _ _ i (processInference x o) Hw)).
    simpl in *. lia.
  - destruct (workers s !! w) as [[|i r|]|] eqn:Hw; try done.
    case_bool_decide; [|done]. intros [= <-] _. simpl. rewrite length_app. simpl.
    pose proof (Permutation_length (holding_give _ _ _ _ Idle Hw (or_introl eq_refl))).
    simpl in *. lia.
  - destruct (workers s !! w) as [[| |]|] eqn:Hw; try done.
    destruct (inputChan s); [|done]. destruct (inputClosed s); [|done].
    intros [= <-] _. simpl.
    pose proof (Permutation_length (holding_leave _ _ Hw)). simpl in *. lia.
  - destruct (workers s !! w) as [[|i r|]|] eqn:Hw; try done;
      (destruct (ctx_done s) eqn:Hctx; [|done]); intros [= <-]; simpl; congruence.
  - destruct (resultChan s) as [|[i r] rest]; [done|]. intros [= <-] _.
    unfold collect. case_bool_decide; simpl; lia.
Qed.

Lemma run_in_flight job sched : ∀ s s',
  run job sched s = Some s' → ctx_done s' = false →
  Z.of_nat (length (holding (workers s')) + length (resultChan s')) + completed s'
  = Z.of_nat (length (holding (workers s)) + length (resultChan s)) + completed s
    + Z.of_nat (calls sched)
  ∧ completed s' = completed s + Z.of_nat (collections sched).
Proof.
  induction sched as [|a sched IH]; intros s s' Hrun Hctx; simplify_eq/=.
  { unfold calls, collections. simpl. lia. }
  destruct (step job a s) as [s1|] eqn:Hs; [|done].
  destruct (IH _ _ Hrun Hctx) as [H1 H2].
  destruct (step_in_flight _ _ _ _ Hs) as [H3 H4]; [by eapply run_ctx_done|].
  unfold calls, collections in *. simpl.
  destruct (is_receive a), (is_collect a); simpl in *; lia.
Qed.

Lemma drained_holding s : drained s = true → holding (workers s) = [] ∧ resultChan s = [].
Proof.
  unfold drained. intros [[Hw Hc%bool_decide_eq_true]%andb_true_iff _]%andb_true_iff.
  split; [|done]. induction (workers s) as [|[| |] ws IH]; simpl in *; try done.
  by apply IH.
Qed.

Lemma count_all_filled (l : list (option ResultData)) :
  (∀ i, (i < length l)%nat → ∃ d, l !! i = Some (Some d)) →
  count filled l = Z.of_nat (length l).
Proof.
  unfold count. induction l as [|o l IH]; intros H; [done|].
  destruct (H 0%nat) as [d Hd]; [simpl; lia|]. simpl in Hd. injection Hd as ->.
  cbn [List.filter filled length]. rewrite !Nat2Z.inj_succ. f_equal. apply IH.
  intros i Hi. apply (H (S i)). simpl. lia.
Qed.

Lemma completed_all p env job w w' s ret :
  ProcessJob p env job w = Some (w', Some s, ret) →
  0 < size p → ctx_done s = false →
  completed s = Z.of_nat (length (Inputs job)).
Proof.
  intros HP Hsize Hctx. pose proof (ProcessJob_inv _ _ _ _ _ _ _ HP) as I.
  rewrite (inv_completed _ _ I), <-(inv_length _ _ I). apply count_all_filled.
  intros i Hi. rewrite (inv_length _ _ I) in Hi.
  destruct (lookup_lt_is_Some_2 _ _ Hi) as [x Hx].
  destruct (manifest_order_aux _ _ _ _ _ _ _ HP Hsize Hctx i x Hx) as (d & Hd' & _).
  eauto.
Qed.

(** X10.  Each input is sent to the orchestrator exactly once and
    collected exactly once: in every run of [ProcessJob] with at least one
    worker that leaves the collection loop without the context having been
    cancelled, the workers make exactly [len(job.Inputs)] inference calls
    and the loop body runs exactly [len(job.Inputs)] times — no item is
    skipped, none is processed twice, in whatever order the goroutines run. *)
Theorem each_input_is_processed_exactly_once p env job w w' s ret :
  ProcessJob p env job w = Some (w', Some s, ret) →
  0 < size p → ctx_done s = false →
  calls (schedule env) = length (Inputs job) ∧
  collections (schedule env) = length (Inputs job) ∧
  completed s = Z.of_nat (length (Inputs job)).
Proof.
  intros HP Hsize Hctx.
  destruct (ProcessJob_ran _ _ _ _ _ _ _ HP) as (_ & Hrun & Hd & _ & _).
  pose proof (ProcessJob_inv _ _ _ _ _ _ _ HP) as I.
  destruct (run_in_flight _ _ _ _ Hrun Hctx) as [H1 H2].
  destruct (drained_holding _ Hd) as [Hh Hc]. rewrite Hh, Hc in H1.
  simpl in H1, H2. rewrite holding_replicate_Idle in H1. simpl in H1.
  pose proof (completed_all _ _ _ _ _ _ _ HP Hsize Hctx) as Hall.
  split_and!; [lia|lia|done].
Qed.

Lemma each_input_is_processed_exactly_once_witness :
  let w := scenario.created scenario.job3 in
  let out := scenario.run_of 2 scenario.env3 scenario.job3 w in
  let s := scenario.state_of 2 scenario.env3 scenario.job3 w in
  calls (schedule scenario.env3) = length (Inputs scenario.job3) ∧
  collections (schedule scenario.env3) = length (Inputs scenario.job3) ∧
  completed s = Z.of_nat (length (Inputs scenario.job3)).
Proof.
  intros w out s.
  apply (each_input_is_processed_exactly_once {| size := 2 |} scenario.env3
           scenario.job3 w out.1.1 s out.2).
  - vm_compute. reflexivity.
  - done.
  - vm_compute. reflexivity.
Defined.

Lemma final_progress_step job a s s' :
  inv job s → progress_stored a = true → step job a s = Some s' →
  final_progress_inv job s → final_progress_inv job s'.
Proof.
  intros I Hok Hstep J. destruct (decide (is_collect a = true)) as [Hc|Hc].
  - destruct a as [| | | | | | | |exec now]; try done. destruct exec; [|done].
    destruct (step_pending _ _ _ _ Hstep) as (i & r & rest & Hch & -> & _).
    destruct (inv_item _ _ I i (Input r)) as [Hin Hnone].
    { unfold pending. rewrite Hch, fmap_cons. rewrite !elem_of_app. do 3 right.
      apply list_elem_of_here. }
    assert (i < length (results s))%nat as Hlt by (by eapply lookup_lt_Some).
    unfold final_progress_inv, collect. rewrite bool_decide_true by done. simpl.
    intros Hfull. rewrite (bool_decide_true (completed s + 1 = TotalItems job)) by done.
    rewrite orb_true_r. simpl. intros r1. rewrite lookup_alter_eq.
    destruct (pg s !! ID job); simpl; [|done]. by intros [= <-].
  - assert (pg s' = pg s ∧ completed s' = completed s) as [Hpg Hcm].
    { revert Hstep. unfold step. destruct (panicked s); [done|].
      destruct a; repeat case_match; intros; simplify_eq/=; done. }
    unfold final_progress_inv. by rewrite Hpg, Hcm.
Qed.

Lemma final_progress_run job sched : ∀ s s',
  inv job s → forallb progress_stored sched = true → run job sched s = Some s' →
  final_progress_inv job s → final_progress_inv job s'.
Proof.
  induction sched as [|a sched IH]; intros s s' I Hok Hrun J; simplify_eq/=; [done|].
  apply andb_true_iff in Hok as [Ha Hok].
  destruct (step job a s) as [s1|] eqn:Hs; [|done].
  eapply (IH s1); [by eapply inv_step|done|done|]. by eapply final_progress_step.
Qed.

(** X11.  A job that has run to its end reads back as fully processed:
    for a job whose [TotalItems] is the number of its inputs (as the consumer
    builds it) and whose row started at [completed = 0], when at least one
    worker ran, the context was not cancelled and the progress updates
    reached the database, the row holds [completed = TotalItems] after
    [ProcessJob], whether the final status is [completed] or [failed] and
    whether or not the final status update succeeded. *)
Theorem finished_job_reads_fully_processed p env job w w' s ret r0 :
  ProcessJob p env job w = Some (w', Some s, ret) →
  0 < size p → ctx_done s = false →
  TotalItems job = Z.of_nat (length (Inputs job)) →
  jobs w !! ID job = Some r0 → r_completed r0 = 0 →
  forallb progress_stored (schedule env) = true →
  ∃ r, jobs w' !! ID job = Some r ∧ r_completed r = TotalItems job.
Proof.
  intros HP Hsize Hctx Htot Hr0 Hc0 Hok.
  destruct (ProcessJob_ran _ _ _ _ _ _ _ HP) as (_ & Hrun & _ & _ & ->).
  pose proof (completed_all _ _ _ _ _ _ _ HP Hsize Hctx) as Hall.
  destruct (run_row _ _ _ _ _ _ Hrun Hr0) as (r1 & Hr1 & _).
  assert (r_completed r1 = TotalItems job) as Hfull.
  { eapply (final_progress_run _ _ _ _ (inv_init _ _ _) Hok Hrun); [|lia|done].
    intros Hz r. simpl. unfold processing_table. rewrite lookup_alter_eq, Hr0.
    simpl in *. intros [= <-]. simpl. lia. }
  unfold UpdateJobStatus. destruct (exec_final env); simpl; [|by eauto].
  rewrite lookup_alter_eq, Hr1. simpl. eauto.
Qed.

Lemma finished_job_reads_fully_processed_witness :
  let w := scenario.created scenario.job3 in
  let out := scenario.run_of 2 scenario.env3 scenario.job3 w in
  ∃ r, jobs out.1.1 !! ID scenario.job3 = Some r ∧
       r_completed r = TotalItems scenario.job3.
Proof.
  intros w out.
  eapply (finished_job_reads_fully_processed {| size := 2 |} scenario.env3
            scenario.job3 w out.1.1
            (scenario.state_of 2 scenario.env3 scenario.job3 w) out.2).
  - vm_compute. reflexivity.
  - done.
  - vm_compute. reflexivity.
  - reflexivity.
  - vm_compute. reflexivity.
  - reflexivity.
  - reflexivity.
Defined.

End pool_extras.

(** ** The two stores *)

Module store_extras.
Import storage.

(** X12.  [CreateJob] followed by [GetJob] reads the job back: the columns
    of the INSERT come from the argument, while [progress], [completed],
    [result_url], [error_msg] and [completed_at] of the argument are not
    stored and read back as their defaults.  A successful insert means that
    the id was new, and no other job is affected. *)
Theorem CreateJob_then_GetJob exec job t t' :
  CreateJob exec job t = (t', None) →
  GetJob DbOk (ID job) t'
  = inl {| ID := ID job; Model := Model job; Version := Version job;
           Inputs := Inputs job; Status := Status job; Progress := (0, 1);
           TotalItems := TotalItems job; Completed := 0;
           ResultURL := ""; ErrorMsg := "";
           CreatedAt := CreatedAt job; UpdatedAt := UpdatedAt job;
           CompletedAt := None |}
  ∧ t !! ID job = None
  ∧ ∀ id, id ≠ ID job → GetJob DbOk id t' = GetJob DbOk id t.
Proof.
  unfold CreateJob. destruct exec; [|done].
  destruct (t !! ID job) eqn:Hrow; [done|]. intros [= <-]. split_and!; [|done|].
  - unfold GetJob. by rewrite lookup_insert_eq.
  - intros id Hid. unfold GetJob. by rewrite lookup_insert_ne.
Qed.

Lemma CreateJob_then_GetJob_witness :
  let job := scenario.job2 in
  GetJob DbOk (ID job) (CreateJob DbOk job ∅).1
  = inl {| ID := ID job; Model := Model job; Version := Version job;
           Inputs := Inputs job; Status := Status job; Progress := (0, 1);
           TotalItems := TotalItems job; Completed := 0;
           ResultURL := ""; ErrorMsg := "";
           CreatedAt := CreatedAt job; UpdatedAt := UpdatedAt job;
           CompletedAt := None |}
  ∧ (∅ : table) !! ID job = None
  ∧ ∀ id, id ≠ ID job → GetJob DbOk id (CreateJob DbOk job ∅).1 = GetJob DbOk id ∅.
Proof.
  intros job. apply (CreateJob_then_GetJob DbOk job ∅). reflexivity.
Defined.

(** X13.  What [GetJob] reads after an update of a stored job.
    [UpdateJobStatus] overwrites status, result URL, error message and
    [updated_at], sets [completed_at] for [completed] and [failed] and clears
    it for every other status, and keeps the progress columns;
    [UpdateJobProgress] overwrites [completed], [progress] and [updated_at]
    and nothing else. *)
Theorem updates_then_GetJob now id st u e c pr t j :
  GetJob DbOk id t = inl j →
  GetJob DbOk id (UpdateJobStatus DbOk now id st u e t).1
  = inl {| ID := ID j; Model := Model j; Version := Version j;
           Inputs := Inputs j; Status := st; Progress := Progress j;
           TotalItems := TotalItems j; Completed := Completed j;
           ResultURL := u; ErrorMsg := e;
           CreatedAt := CreatedAt j; UpdatedAt := snd now;
           CompletedAt := if terminal st then Some (fst now) else None |}
  ∧ GetJob DbOk id (UpdateJobProgress DbOk (fst now) id c pr t).1
  = inl {| ID := ID j; Model := Model j; Version := Version j;
           Inputs := Inputs j; Status := Status j; Progress := pr;
           TotalItems := TotalItems j; Completed := c;
           ResultURL := ResultURL j; ErrorMsg := ErrorMsg j;
           CreatedAt := CreatedAt j; UpdatedAt := fst now;
           CompletedAt := CompletedAt j |}.
Proof.
  unfold GetJob, UpdateJobStatus, UpdateJobProgress. simpl.
  rewrite !lookup_alter_eq.
  destruct (t !! id) as [r|]; [|done]. intros [= <-]. by destruct r.
Qed.

Lemma updates_then_GetJob_witness :
  let t := (CreateJob DbOk scenario.job2 ∅).1 in
  let j := match GetJob DbOk "job-2" t with inl j => j | inr _ => scenario.job2 end in
  GetJob DbOk "job-2" (UpdateJobStatus DbOk (20, 21) "job-2" StatusFailed "" "boom" t).1
  = inl {| ID := ID j; Model := Model j; Version := Version j;
           Inputs := Inputs j; Status := StatusFailed; Progress := Progress j;
           TotalItems := TotalItems j; Completed := Completed j;
           ResultURL := ""; ErrorMsg := "boom";
           CreatedAt := CreatedAt j; UpdatedAt := 21;
           CompletedAt := if terminal StatusFailed then Some 20 else None |}
  ∧ GetJob DbOk "job-2" (UpdateJobProgress DbOk 20 "job-2" 1 (1, 2) t).1
  = inl {| ID := ID j; Model := Model j; Version := Version j;
           Inputs := Inputs j; Status := Status j; Progress := (1, 2);
           TotalItems := TotalItems j; Completed := 1;
           ResultURL := ResultURL j; ErrorMsg := ErrorMsg j;
           CreatedAt := CreatedAt j; UpdatedAt := 20;
           CompletedAt := CompletedAt j |}.
Proof.
  intros t j.
  apply (updates_then_GetJob (20, 21) "job-2" StatusFailed "" "boom" 1 (1, 2) t j).
  vm_compute. reflexivity.
Defined.

End store_extras.

Module objstore_extras.
Import objstore.

Lemma append_cons c (a b : string) : String c a +:+ b = String c (a +:+ b).
Proof. reflexivity. Qed.

Lemma length_append (a b : string) :
  String.length (a +:+ b) = (String.length a + String.length b)%nat.
Proof.
  induction a as [|c a IH]; [done|]. rewrite append_cons. simpl. by rewrite IH.
Qed.

Lemma append_inj_r (q a b : string) : a +:+ q = b +:+ q → a = b.
Proof.
  revert b. induction a as [|c a IH]; intros [|d b] H; [done| | |].
  - apply (f_equal String.length) in H. rewrite !length_append in H. simpl in H. lia.
  - apply (f_equal String.length) in H. rewrite !length_append in H. simpl in H. lia.
  - rewrite !append_cons in H. injection H as -> H. f_equal. by apply IH.
Qed.

Lemma objectName_inj a b :
  "results/" +:+ a +:+ ".json" = "results/" +:+ b +:+ ".json" → a = b.
Proof. intros H%String.app_inj. by eapply append_inj_r. Qed.

(** X14.  Once marshalling and [PutObject] succeed, the manifest is stored
    and [GetResults] for the same job id returns exactly it, replacing what
    an earlier upload for that id had stored — whatever [UploadResults]
    itself returns after the put. *)
Theorem UploadResults_then_GetResults {M} env jobID (results : M) s :
  marshal_error env = None → put_error env = None →
  GetResults None jobID (UploadResults env jobID results s).1 = inl results.
Proof.
  intros Hm Hp. unfold UploadResults, GetResults. rewrite Hm, Hp.
  destruct (PresignedGetObject _ _ _); simpl; by rewrite lookup_insert_eq.
Qed.

Lemma UploadResults_then_GetResults_witness :
  let env := {| marshal_error := None; put_error := None |} in
  let old : worker.manifest := [None; None] in
  let s := {| bucket := "batch-results"; objects := {[ "results/job-1.json" := old ]} |} in
  GetResults None "job-1" (UploadResults env "job-1" [None] s).1 = inl [None].
Proof.
  intros env old s.
  apply (UploadResults_then_GetResults env "job-1" [None] s); reflexivity.
Defined.

(** X15.  Results of different jobs never overwrite each other: an upload
    for one job id leaves what [GetResults] returns for every other job id
    unchanged: the object names [results/{jobID}.json] of two ids differ. *)
Theorem UploadResults_is_per_job {M} env get_error jobID jobID' (results : M) s :
  jobID' ≠ jobID →
  GetResults get_error jobID' (UploadResults env jobID results s).1
  = GetResults get_error jobID' s.
Proof.
  intros Hne. unfold UploadResults, GetResults.
  destruct (marshal_error env); [done|]. destruct (put_error env); [done|].
  destruct (PresignedGetObject _ _ _); simpl; destruct get_error; try done.
  all: rewrite lookup_insert_ne; [done|]; by intros ?%objectName_inj.
Qed.

Lemma UploadResults_is_per_job_witness :
  let env := {| marshal_error := None; put_error := None |} in
  let old : worker.manifest := [None; None] in
  let s := {| bucket := "batch-results"; objects := {[ "results/job-1.json" := old ]} |} in
  GetResults None "job-1" (UploadResults env "job-10" [None] s).1 = GetResults None "job-1" s.
Proof.
  intros env old s.
  apply (UploadResults_is_per_job env None "job-10" "job-1" [None] s). done.
Defined.

End objstore_extras.

(** ** The consumer loop *)

Module consumer_extras.
Import storage worker consumer pool_extras.

Lemma ConsumeClaim_effect pool env m s s' :
  ConsumeClaim pool env m s = Some s' →
  marked s' = marked s ++ [Offset m] ∧
  (∀ id, is_Some (jobs (store s) !! id) → is_Some (jobs (store s') !! id)) ∧
  ∃ calls, uploads (store s') = uploads (store s) ++ calls ∧
           (length calls ≤ 1)%nat ∧
           ∀ c, c ∈ calls →
                jobs (store s) !! c.1 = None ∧ is_Some (jobs (store s') !! c.1).
Proof.
  assert (∀ w : world, ∃ calls, uploads w = uploads w ++ calls ∧
            (length calls ≤ 1)%nat ∧
            ∀ c, c ∈ calls → jobs w !! c.1 = None ∧ is_Some (jobs w !! c.1)) as Hnil.
  { intros w. exists []. rewrite app_nil_r. split; [done|]. split; [simpl; lia|].
    by intros c ?%elem_of_nil. }
  unfold ConsumeClaim. destruct (Value m) as [jobMsg|].
  2:{ intros [= <-]. simpl. split_and!; [done|done|apply Hnil]. }
  unfold CreateJob. destruct (exec_create env).
  2:{ intros [= <-]. simpl. split_and!; [done|done|apply Hnil]. }
  destruct (jobs (store s) !! ID (job_of jobMsg (now_create env))) eqn:Hrow.
  { intros [= <-]. simpl. split_and!; [done|done|apply Hnil]. }
  destruct (ProcessJob _ _ _ _) as [[[w' os] ret]|] eqn:HP; [|done].
  intros [= <-]. simpl. split; [done|].
  pose proof (λ id, ProcessJob_dom _ _ _ _ _ _ _ id HP) as Hdom.
  destruct (ProcessJob_uploads _ _ _ _ _ _ _ HP) as (calls & Hup & Hlen & Hid).
  simpl in *. split.
  - intros id Hsome. apply Hdom.
    destruct (decide (id = ID (job_of jobMsg (now_create env)))) as [->|Hne].
    + rewrite lookup_insert_eq. eauto.
    + by rewrite lookup_insert_ne.
  - exists calls. split_and!; [done|done|]. intros c Hc. rewrite (Hid c Hc).
    split; [done|]. apply Hdom. rewrite lookup_insert_eq. eauto.
Qed.

Lemma ConsumeClaims_effect pool deliveries : ∀ s s',
  ConsumeClaims pool deliveries s = Some s' →
  marked s' = marked s ++ ((λ d, Offset d.2) <$> deliveries) ∧
  (∀ id, is_Some (jobs (store s) !! id) → is_Some (jobs (store s') !! id)) ∧
  ∃ calls, uploads (store s') = uploads (store s) ++ calls ∧
           NoDup calls.*1 ∧ (length calls ≤ length deliveries)%nat ∧
           ∀ c, c ∈ calls →
                jobs (store s) !! c.1 = None ∧ is_Some (jobs (store s') !! c.1).
Proof.
  induction deliveries as [|[env m] rest IH]; intros s s'; simpl.
  { intros [= <-]. rewrite app_nil_r. split_and!; [done|done|].
    exists []. rewrite app_nil_r. split_and!; [done|constructor|done|].
    by intros c ?%elem_of_nil. }
  destruct (ConsumeClaim pool env m s) as [s1|] eqn:H1; [|done]. intros H2.
  destruct (ConsumeClaim_effect _ _ _ _ _ H1) as (Hm1 & Hd1 & calls1 & Hu1 & Hl1 & Hc1).
  destruct (IH _ _ H2) as (Hm2 & Hd2 & calls2 & Hu2 & Hn2 & Hl2 & Hc2).
  split_and!.
  - by rewrite Hm2, Hm1, <-app_assoc.
  - intros id Hs. by apply Hd2, Hd1.
  - exists (calls1 ++ calls2). split_and!.
    + by rewrite Hu2, Hu1, <-app_assoc.
    + rewrite fmap_app. apply NoDup_app. split_and!; [| |done].
      * destruct calls1 as [|c1 [|c1' calls1]]; simpl in *;
          [constructor|apply NoDup_singleton|lia].
      * intros id (c1 & -> & Hin1)%list_elem_of_fmap (c2 & Heq & Hin2)%list_elem_of_fmap.
        destruct (Hc1 _ Hin1) as [_ [r Hr]]. destruct (Hc2 _ Hin2) as [Hnone _].
        rewrite <-Heq in Hnone. congruence.
    + rewrite length_app. simpl. lia.
    + intros c [Hin|Hin]%elem_of_app.
      * destruct (Hc1 _ Hin) as [? ?]. split; [done|]. by apply Hd2.
      * destruct (Hc2 _ Hin) as [Hnone ?]. split; [|done].
        destruct (jobs (store s) !! c.1) eqn:Hrow; [|done].
        destruct (Hd1 c.1) as [r1 Hr1]; [eauto|]. congruence.
Qed.

(** X16.  Over a whole session of the consumer, whatever happens to each
    message: every delivered message is acknowledged, in delivery order,
    also when its job failed; and every job id is executed at most once — the
    manifests uploaded during the session are for pairwise distinct job ids,
    each one an id that had no row when the session began and has one at its
    end.  A descriptor delivered again, or naming a stored id, is not run. *)
Theorem session_runs_each_job_at_most_once pool deliveries s s' :
  ConsumeClaims pool deliveries s = Some s' →
  marked s' = marked s ++ ((λ d, Offset d.2) <$> deliveries) ∧
  ∃ calls, uploads (store s') = uploads (store s) ++ calls ∧
           NoDup calls.*1 ∧ (length calls ≤ length deliveries)%nat ∧
           ∀ c, c ∈ calls →
                jobs (store s) !! c.1 = None ∧ is_Some (jobs (store s') !! c.1).
Proof. intros H. destruct (ConsumeClaims_effect _ _ _ _ H) as (? & _ & ?). done. Qed.

Lemma session_runs_each_job_at_most_once_witness :
  let pool := {| size := 1 |} in
  let s := scenario_consumer.fresh in
  let s' := default s (ConsumeClaims pool scenario_consumer.redelivered s) in
  marked s' = marked s ++ ((λ d, Offset d.2) <$> scenario_consumer.redelivered) ∧
  ∃ calls, uploads (store s') = uploads (store s) ++ calls ∧
           NoDup calls.*1 ∧
           (length calls ≤ length scenario_consumer.redelivered)%nat ∧
           ∀ c, c ∈ calls →
                jobs (store s) !! c.1 = None ∧ is_Some (jobs (store s') !! c.1).
Proof.
  intros pool s s'.
  apply (session_runs_each_job_at_most_once pool scenario_consumer.redelivered s s').
  vm_compute. reflexivity.
Defined.

Lemma omap_JObj (inputs : list payload) :
  omap (λ input, match input with JObj inputMap => Some inputMap | _ => None end)
       (JObj <$> inputs) = inputs.
Proof. induction inputs as [|x l IH]; csimpl; [done|by f_equal]. Qed.

(** X17.  The descriptor the gateway publishes for an accepted batch
    whose inputs are JSON objects is read back by the consumer as the job
    that was submitted: the job id of the 202 response and of the message
    key, the model, the version (["v1"] when none was given), the inputs in
    their order and their number as [TotalItems], in status [pending]. *)
Theorem published_descriptor_is_read_back h env r log log' resp now :
  gateway.BatchInference h env (inl r) log = (log', resp) →
  status resp = 202 →
  ∃ m inputs, log' = log ++ [m] ∧ gateway.Inputs r = Some inputs ∧
    gateway.Key m = gateway.jobID env ∧
    jget "job_id" (body_fields resp) = Some (JStr (gateway.jobID env)) ∧
    job_of (gateway.Value m) now
    = {| ID := gateway.jobID env; Model := gateway.bModel r;
         Version := if bool_decide (gateway.bVersion r = "") then "v1"
                    else gateway.bVersion r;
         Inputs := inputs; Status := StatusPending; Progress := (0, 1);
         TotalItems := Z.of_nat (length inputs); Completed := 0;
         ResultURL := ""; ErrorMsg := "";
         CreatedAt := fst now; UpdatedAt := snd now; CompletedAt := None |}.
Proof.
  unfold gateway.BatchInference, gateway.bind_batch.
  destruct (bool_decide (gateway.bModel r = "")); simpl.
  { repeat case_match; intros; simplify_eq/=; done. }
  destruct (gateway.Inputs r) as [inputs|] eqn:Hin; simpl.
  2:{ intros; simplify_eq/=; done. }
  destruct (gateway.batch_marshal_error env); [intros; simplify_eq/=; done|].
  destruct (gateway.send_error env); [intros; simplify_eq/=; done|].
  intros [= <- <-] _. eexists _, inputs. split_and!; try done.
  unfold job_of, inputs_of, jstring. simpl. rewrite Hin. simpl. by rewrite omap_JObj.
Qed.

Lemma published_descriptor_is_read_back_witness :
  let r := {| gateway.bModel := "m"; gateway.bVersion := "";
              gateway.Inputs := Some [scenario.input 1; scenario.input 2] |} in
  let env := scenario_gateway.submit in
  let out := gateway.BatchInference scenario_gateway.handler env (inl r) [] in
  ∃ m inputs, out.1 = [] ++ [m] ∧ gateway.Inputs r = Some inputs ∧
    gateway.Key m = gateway.jobID env ∧
    jget "job_id" (body_fields out.2) = Some (JStr (gateway.jobID env)) ∧
    job_of (gateway.Value m) (5, 6)
    = {| ID := gateway.jobID env; Model := gateway.bModel r;
         Version := if bool_decide (gateway.bVersion r = "") then "v1"
                    else gateway.bVersion r;
         Inputs := inputs; Status := StatusPending; Progress := (0, 1);
         TotalItems := Z.of_nat (length inputs); Completed := 0;
         ResultURL := ""; ErrorMsg := "";
         CreatedAt := fst (5, 6); UpdatedAt := snd (5, 6); CompletedAt := None |}.
Proof.
  intros r env out.
  apply (published_descriptor_is_read_back scenario_gateway.handler env r []
           out.1 out.2 (5, 6)); reflexivity.
Defined.

End consumer_extras.

(** ** The router's registry and breakers *)

Module router_extras.
Import gotime router.

Lemma executeRequest_URL env backend :
  URL (executeRequest env backend).1.1 = URL backend.
Proof.
  unfold executeRequest. destruct (outcome env) as [| | |code raw [res|e]]; simpl;
    try case_bool_decide; done.
Qed.

Lemma executeRequest_fails env backend :
  (executeRequest env backend).2 ≠ None ↔ fails (outcome env) = true.
Proof.
  unfold executeRequest, fails. destruct (outcome env) as [| | |code raw [res|e]]; simpl;
    try case_bool_decide; simpl; naive_solver.
Qed.

Lemma guarded_URL env backend cb b res err :
  guarded env backend = (cb, Some (b, res), err) → URL b = URL backend.
Proof.
  unfold guarded, gobreaker.Execute.
  destruct (gobreaker.beforeRequest _ _) as [[cb0 g] [e|]]; [done|].
  pose proof (executeRequest_URL env backend) as HU.
  destruct (executeRequest env backend) as [[b0 res0] err0]. simpl in HU.
  by intros [= _ <- _ _].
Qed.

(** The registry after [RouteRequest]: the selected backend replaced at
    its index, or nothing changed. *)
Lemma RouteRequest_registry env model version r :
  (RouteRequest env model version r).1 = r ∨
  ∃ versions backends i b b',
    r !! model = Some versions ∧ versions !! version = Some backends ∧
    backends !! i = Some b ∧ URL b' = URL b ∧
    (RouteRequest env model version r).1
    = <[model := <[version := <[i := b']> backends]> versions]> r.
Proof.
  unfold RouteRequest. destruct (r !! model) as [versions|] eqn:Hm; [|by left].
  destruct (versions !! version) as [backends|] eqn:Hv; [|by left].
  destruct backends as [|b0 bs]; [by left|]. set (backends := b0 :: bs) in *.
  destruct (backends !! selectBackend env backends) as [b|] eqn:Hi; [|by left].
  destruct (guarded env b) as [[cb result] err] eqn:Hg.
  right. exists versions, backends, (selectBackend env backends), b.
  eexists (match result with Some (b1, _) => with_breaker b1 cb | None => with_breaker b cb end).
  split_and!; try done.
  - destruct result as [[b1 res]|]; simpl; [|done]. by eapply guarded_URL.
  - by destruct err, result as [[? [?|]]|].
Qed.

(** X18.  Routing never changes which targets are registered: after
    [RouteRequest], whatever the backend answered and whatever its breaker
    did, every (model, version) key lists the same target URLs in the same
    order, and the backends of every key other than the requested one are
    untouched, breakers included. *)
Theorem RouteRequest_keeps_the_targets env model version r m v :
  (fmap (M := list) URL <$> lookup m v (RouteRequest env model version r).1
   = fmap URL <$> lookup m v r)
  ∧ ((m, v) ≠ (model, version) →
     lookup m v (RouteRequest env model version r).1 = lookup m v r).
Proof.
  destruct (RouteRequest_registry env model version r)
    as [->|(versions & backends & i & b & b' & Hm & Hv & Hi & HU & ->)]; [done|].
  unfold lookup. destruct (decide (m = model)) as [->|Hne].
  - rewrite lookup_insert_eq, Hm. simpl.
    destruct (decide (v = version)) as [->|Hnv].
    + rewrite lookup_insert_eq, Hv. simpl. split; [|done].
      f_equal. rewrite list_fmap_insert, HU. apply list_insert_id.
      by rewrite list_lookup_fmap, Hi.
    + by rewrite lookup_insert_ne.
  - by rewrite lookup_insert_ne.
Qed.

(** X19.  While the breaker of the selected backend is open and its
    timeout has not passed, [RouteRequest] fails at once with the breaker's
    error: the backend is not called (the outcome a call would have had
    plays no role) and nothing in the registry changes. *)
Theorem open_breaker_fails_fast env model version r backends b e :
  lookup model version r = Some backends →
  backends !! selectBackend env backends = Some b →
  gobreaker.state (CircuitBreaker b) = gobreaker.StateOpen →
  gobreaker.expiry (CircuitBreaker b) = Some e →
  t_before env ≤ e →
  RouteRequest env model version r = (r, inr gobreaker.ErrOpenState).
Proof.
  unfold lookup. intros Hl Hi Hst He Hle.
  destruct (r !! model) as [versions|] eqn:Hm; [|done]. simpl in Hl.
  unfold RouteRequest. rewrite Hm, Hl.
  destruct backends as [|b0 bs]; [done|]. set (backends := b0 :: bs) in *. rewrite Hi.
  unfold guarded, gobreaker.Execute, gobreaker.beforeRequest, gobreaker.currentState.
  rewrite Hst, He. rewrite (bool_decide_false (e < t_before env)) by lia.
  rewrite Hst. simpl.
  f_equal. assert (with_breaker b (CircuitBreaker b) = b) as -> by (by destruct b).
  rewrite (list_insert_id _ _ _ Hi). rewrite (insert_id versions) by done.
  by rewrite insert_id.
Qed.

Lemma open_breaker_fails_fast_witness :
  let r := scenario_router.after_404s 3 in
  let env := scenario_router.call_at 20 scenario_router.answer in
  RouteRequest env "m" "1" r = (r, inr gobreaker.ErrOpenState).
Proof.
  intros r env.
  eapply (open_breaker_fails_fast env "m" "1" r).
  - vm_compute. reflexivity.
  - vm_compute. reflexivity.
  - vm_compute. reflexivity.
  - vm_compute. reflexivity.
  - vm_compute. discriminate.
Defined.

(** X20.  A closed breaker is transparent: when the breaker of the
    selected backend is closed, [RouteRequest] calls the backend and returns
    what [executeRequest] returned for it — the decoded body of a 200
    response, or the error — also after the breaker's counting interval has
    passed. *)
Theorem closed_breaker_is_transparent env model version r backends b :
  lookup model version r = Some backends →
  backends !! selectBackend env backends = Some b →
  gobreaker.state (CircuitBreaker b) = gobreaker.StateClosed →
  (RouteRequest env model version r).2
  = match executeRequest env b with
    | (_, _, Some err) => inr err
    | (_, Some res, None) => inl res
    | (_, None, None) => inl []
    end.
Proof.
  unfold lookup. intros Hl Hi Hst.
  destruct (r !! model) as [versions|] eqn:Hm; [|done]. simpl in Hl.
  unfold RouteRequest. rewrite Hm, Hl.
  destruct backends as [|b0 bs]; [done|]. set (backends := b0 :: bs) in *. rewrite Hi.
  unfold guarded, gobreaker.Execute, gobreaker.beforeRequest.
  assert (gobreaker.state (gobreaker.currentState (CircuitBreaker b) (t_before env))
          = gobreaker.StateClosed) as Hcur.
  { unfold gobreaker.currentState. rewrite Hst.
    destruct (gobreaker.expiry _); [|done]. case_bool_decide; [|done].
    unfold gobreaker.toNewGeneration. simpl. done. }
  rewrite Hcur. simpl.
  destruct (executeRequest env b) as [[b1 [res|]] [err|]]; done.
Qed.

Lemma closed_breaker_is_transparent_witness :
  let r := scenario_router.registry in
  let env := scenario_router.call_at 60 scenario_router.answer in
  ∃ b, lookup "m" "1" r = Some [b] ∧
  (RouteRequest env "m" "1" r).2
  = match executeRequest env b with
    | (_, _, Some err) => inr err
    | (_, Some res, None) => inl res
    | (_, None, None) => inl []
    end.
Proof.
  intros r env. eexists. split; [vm_compute; reflexivity|].
  eapply (closed_breaker_is_transparent env "m" "1" r).
  - vm_compute. reflexivity.
  - vm_compute. reflexivity.
  - vm_compute. reflexivity.
Defined.

(** X21.  [RegisterBackend] touches one key only: the backends listed
    under every other (model, version), their breakers and health flags
    included, are what they were. *)
Theorem RegisterBackend_leaves_other_keys now model version url r m v :
  (m, v) ≠ (model, version) →
  lookup m v (RegisterBackend now model version url r) = lookup m v r.
Proof.
  intros Hne. unfold lookup, RegisterBackend.
  destruct (decide (m = model)) as [->|Hm].
  - rewrite lookup_insert_eq. simpl. rewrite lookup_insert_ne by congruence.
    by destruct (r !! model).
  - by rewrite lookup_insert_ne.
Qed.

Lemma RegisterBackend_leaves_other_keys_witness :
  lookup "m" "1" (RegisterBackend 5 "m" "2" "http://b2:8082" scenario_router.registry)
  = lookup "m" "1" scenario_router.registry.
Proof.
  apply (RegisterBackend_leaves_other_keys 5 "m" "2" "http://b2:8082"
           scenario_router.registry "m" "1").
  intros [= ?].
Defined.

(** X22.  Recovery of a tripped breaker, as [RegisterBackend] configures
    it ([MaxRequests] 3, no [IsSuccessful]): once the timeout of an open
    breaker has passed, the next request is let through to the backend as a
    probe and its own result is returned; if the probe fails the breaker is
    open again for a full timeout counted from the end of the call, if it
    succeeds the breaker is half-open with one success counted. *)
Theorem expired_open_breaker_probes env b e :
  gobreaker.state (CircuitBreaker b) = gobreaker.StateOpen →
  gobreaker.expiry (CircuitBreaker b) = Some e →
  e < t_before env →
  gobreaker.maxRequests (CircuitBreaker b) = 3 →
  gobreaker.isSuccessful (CircuitBreaker b) = gobreaker.defaultIsSuccessful →
  (guarded env b).2 = (executeRequest env b).2 ∧
  (guarded env b).1.2 = Some (executeRequest env b).1 ∧
  let cb' := (guarded env b).1.1 in
  if fails (outcome env) then
    gobreaker.state cb' = gobreaker.StateOpen ∧
    gobreaker.expiry cb' = Some (t_after env + gobreaker.timeout (CircuitBreaker b))
  else
    gobreaker.state cb' = gobreaker.StateHalfOpen ∧
    gobreaker.ConsecutiveSuccesses (gobreaker.counts cb') = 1.
Proof.
  intros Hst He Hlt Hmax Hsucc.
  pose proof (executeRequest_fails env b) as Hf.
  unfold guarded, gobreaker.Execute, gobreaker.beforeRequest, gobreaker.currentState.
  rewrite Hst, He. rewrite (bool_decide_true (e < t_before env)) by done.
  unfold gobreaker.setState. rewrite Hst. simpl. rewrite Hmax. simpl.
  destruct (executeRequest env b) as [[b1 res] err]. simpl in *.
  split; [done|]. split; [done|].
  unfold gobreaker.afterRequest, gobreaker.currentState. simpl.
  rewrite bool_decide_false by (by intros []). rewrite Hsucc.
  destruct (fails (outcome env)).
  - destruct err as [err|]; [|by destruct Hf as [_ Hf]; specialize (Hf eq_refl)].
    simpl. unfold gobreaker.onFailure, gobreaker.setState. simpl. done.
  - destruct err as [err|]; [by destruct Hf as [Hf _]; specialize (Hf ltac:(done))|].
    simpl. unfold gobreaker.onSuccess. simpl. rewrite Hmax. simpl. done.
Qed.

Lemma expired_open_breaker_probes_witness :
  ∃ b, lookup "m" "1" (scenario_router.after_404s 3) = Some [b] ∧
  let env := scenario_router.call_at 40 scenario_router.answer in
  (guarded env b).2 = (executeRequest env b).2 ∧
  (guarded env b).1.2 = Some (executeRequest env b).1 ∧
  let cb' := (guarded env b).1.1 in
  if fails (outcome env) then
    gobreaker.state cb' = gobreaker.StateOpen ∧
    gobreaker.expiry cb' = Some (t_after env + gobreaker.timeout (CircuitBreaker b))
  else
    gobreaker.state cb' = gobreaker.StateHalfOpen ∧
    gobreaker.ConsecutiveSuccesses (gobreaker.counts cb') = 1.
Proof.
  eexists. split; [vm_compute; reflexivity|].
  eapply (expired_open_breaker_probes (scenario_router.call_at 40 scenario_router.answer)).
  - vm_compute. reflexivity.
  - vm_compute. reflexivity.
  - vm_compute. reflexivity.
  - vm_compute. reflexivity.
  - reflexivity.
Defined.

End router_extras.

(** ** The gateway's middleware and handlers *)

Module gateway_extras.
Import gotime gateway.

Lemma RateLimit_counter limit window env s u :
  incr_error env = None →
  counters (RateLimit limit window env s).1 !! ("ratelimit:" +:+ u)
  = if decide (principal env = u)
    then Some (default 0 (counters s !! ("ratelimit:" +:+ u)) + 1)
    else counters s !! ("ratelimit:" +:+ u).
Proof.
  intros Herr. unfold RateLimit, Incr, Expire. rewrite Herr. fold (principal env).
  destruct (decide (principal env = u)) as [->|Hne];
    repeat case_bool_decide; simpl; rewrite ?lookup_insert_eq; try done;
    rewrite lookup_insert_ne; try done; by intros ?%String.app_inj.
Qed.

Lemma RateLimit_admits limit window env s :
  incr_error env = None →
  admitted (RateLimit limit window env s).2
  = bool_decide (default 0 (counters s !! ("ratelimit:" +:+ principal env)) + 1 ≤ limit).
Proof.
  intros Herr. unfold RateLimit, Incr. rewrite Herr. fold (principal env).
  repeat case_bool_decide; simpl; try done; lia.
Qed.

(** X23.  The limit is enforced per principal, whatever the interleaving:
    while the store answers and no counter expires, a request is admitted
    exactly when the counter
    its principal started with, plus the earlier requests of the same
    principal in the sequence, plus this one, does not exceed the limit;
    requests of other principals in between do not count. *)
Theorem RateLimit_counts_per_principal limit window envs : ∀ s k env,
  Forall (λ e, incr_error e = None) envs →
  envs !! k = Some env →
  admitted <$> (RateLimits limit window envs s).2 !! k
  = Some (bool_decide
            (default 0 (counters s !! ("ratelimit:" +:+ principal env))
             + Z.of_nat (length (filter (λ e, principal e = principal env) (take k envs)))
             + 1 ≤ limit)).
Proof.
  induction envs as [|env0 rest IH]; intros s k env Hall Hk; [done|].
  apply Forall_cons in Hall as [H0 Hall]. simpl.
  pose proof (RateLimit_counter limit window env0 s (principal env) H0) as Hc.
  pose proof (RateLimit_admits limit window env0 s H0) as Ha.
  destruct (RateLimit limit window env0 s) as [s1 d] eqn:HR.
  pose proof (IH s1) as IH1.
  destruct (RateLimits limit window rest s1) as [s2 ds] eqn:HRs. simpl in *.
  destruct k as [|k]; simpl in *.
  - injection Hk as ->. rewrite Ha. f_equal. apply bool_decide_ext. lia.
  - rewrite (IH1 k env Hall Hk). f_equal. rewrite Hc.
    rewrite filter_cons. destruct (decide (principal env0 = principal env)); simpl;
      apply bool_decide_ext; lia.
Qed.

Lemma RateLimit_counts_per_principal_witness :
  admitted <$> (RateLimits 2 Minute scenario_gateway.interleaved
                  scenario_gateway.empty_store).2 !! 4%nat
  = Some (bool_decide
            (default 0 (counters scenario_gateway.empty_store
                          !! ("ratelimit:" +:+ principal (scenario_gateway.from (Some "alice") "10.0.0.1")))
             + Z.of_nat (length (filter (λ e, principal e
                                            = principal (scenario_gateway.from (Some "alice") "10.0.0.1"))
                                   (take 4 scenario_gateway.interleaved)))
             + 1 ≤ 2)).
Proof.
  apply (RateLimit_counts_per_principal 2 Minute scenario_gateway.interleaved
           scenario_gateway.empty_store 4
           (scenario_gateway.from (Some "alice") "10.0.0.1")).
  - repeat constructor.
  - reflexivity.
Defined.

(** X24.  The window is fixed, not sliding: the expiry of a counter is set
    by the request that creates it (count 1) and by no later one — a request
    that finds the counter of its principal at a non-zero value leaves every
    expiry as it is, admitted or not, so traffic during the window does not
    extend it. *)
Theorem RateLimit_window_is_fixed limit window env s c :
  counters s !! ("ratelimit:" +:+ principal env) = Some c → c ≠ 0 →
  ttl (RateLimit limit window env s).1 = ttl s.
Proof.
  intros Hc Hne. unfold RateLimit, Incr. fold (principal env).
  destruct (incr_error env); [done|]. rewrite Hc. simpl.
  rewrite (bool_decide_false (c + 1 = 1)) by lia. by case_bool_decide.
Qed.

Lemma RateLimit_window_is_fixed_witness :
  ttl (RateLimit 3 Minute scenario_gateway.store_up scenario_gateway.at_limit).1
  = ttl scenario_gateway.at_limit.
Proof.
  apply (RateLimit_window_is_fixed 3 Minute scenario_gateway.store_up
           scenario_gateway.at_limit 3); [reflexivity|lia].
Defined.

Lemma split_no_space x : no_space x = true → split_space x = [x].
Proof.
  induction x as [|c x IH]; simpl; [done|].
  case_bool_decide; simpl; [done|]. intros Hx. by rewrite (IH Hx).
Qed.

Lemma token_of_bare x : no_space x = true → token_of x = x.
Proof. intros Hx. unfold token_of. by rewrite (split_no_space x Hx). Qed.

Lemma token_of_Bearer x : no_space x = true → token_of ("Bearer " +:+ x) = x.
Proof.
  intros Hx. unfold token_of.
  rewrite !objstore_extras.append_cons. change ("" +:+ x) with x.
  simpl. by rewrite (split_no_space x Hx).
Qed.

(** X25.  The [Bearer] prefix is optional: for every token without a
    space, sending [Authorization: Bearer <token>] or the bare token has the
    same outcome — the same rejection, or the same user id. *)
Theorem Auth_Bearer_prefix_is_optional parse x :
  x ≠ "" → no_space x = true →
  Auth parse ("Bearer " +:+ x) = Auth parse x.
Proof.
  intros Hne Hx. unfold Auth.
  rewrite (token_of_Bearer x Hx), (token_of_bare x Hx).
  rewrite (bool_decide_false (x = "")) by done.
  by rewrite (bool_decide_false ("Bearer " +:+ x = "")).
Qed.

Lemma Auth_Bearer_prefix_is_optional_witness :
  Auth scenario_gateway.parse ("Bearer " +:+ "abc.def.ghi")
  = Auth scenario_gateway.parse "abc.def.ghi".
Proof.
  apply (Auth_Bearer_prefix_is_optional scenario_gateway.parse "abc.def.ghi");
    [done|reflexivity].
Defined.

(** X26.  [BatchInference] answers 202 exactly when it has appended one
    message to the job log, keyed by the job id it returns; a request
    answered 400 or 500 leaves the log as it was, and there is no other
    answer. *)
Theorem BatchInference_publishes_iff_accepted h env req log :
  let out := BatchInference h env req log in
  (status out.2 = 202 ∧
   ∃ descriptor,
     out.1 = log ++ [{| Topic := kafkaTopic h; Key := jobID env; Value := descriptor |}] ∧
     jget "job_id" descriptor = Some (JStr (jobID env)) ∧
     jget "job_id" (body_fields out.2) = Some (JStr (jobID env)))
  ∨ ((status out.2 = 400 ∨ status out.2 = 500) ∧ out.1 = log).
Proof.
  unfold BatchInference. destruct (bind_batch req) as [r|details]; simpl; [|by auto].
  destruct (batch_marshal_error env); simpl; [by auto|].
  destruct (send_error env); simpl; [by auto|].
  left. split; [done|]. eexists. split_and!; reflexivity.
Qed.

(** X27.  A synchronous request end to end, gateway to router to backend:
    for a request the gateway admits and forwards, the client gets 200 with
    the backend's result as [prediction] exactly when [RouteRequest]
    returned a result; every routing failure (unknown target, open breaker,
    failing backend) reaches the client as 503 with the fixed body
    [{"error": "inference failed"}], the router's error text being dropped. *)
Theorem sync_request_end_to_end h env cenv registry r :
  bind_infer (inl r) = inl r →
  marshal_error env = None →
  request_error env = None →
  let version := if bool_decide (Version r = "") then "v1" else Version r in
  RealTimeInference h env (via_router None cenv registry) (inl r)
  = match (router.RouteRequest cenv (Model r) version registry).2 with
    | inl result =>
        {| status := 200;
           body := JObj [("request_id", JStr (requestID env));
                         ("model", JStr (Model r));
                         ("version", JStr version);
                         ("prediction", JObj result);
                         ("latency_ms", JNum (elapsed_ms env))] |}
    | inr _ => {| status := 503; body := error_body "inference failed" |}
    end.
Proof.
  intros Hbind Hmar Hreq version.
  assert (Model r ≠ "" ∧ Input r ≠ None) as [Hm Hi].
  { unfold bind_infer in Hbind. repeat case_bool_decide; simpl in Hbind; done. }
  assert (version ≠ "") as Hv by (unfold version; by case_bool_decide).
  unfold RealTimeInference. rewrite Hbind, Hmar, Hreq. fold version.
  unfold via_router, router.RouteInference, router.bind. simpl.
  rewrite (bool_decide_true (Model r ≠ "")), (bool_decide_true (Input r ≠ None)) by done.
  simpl. rewrite (bool_decide_false (version = "")) by done.
  destruct (router.RouteRequest cenv (Model r) version registry) as [r' [result|err]];
    simpl; done.
Qed.

Lemma sync_request_end_to_end_witness :
  let r := {| Model := "m"; Version := "1"; Input := Some [("data", JArr [JNum 1])] |} in
  let env := scenario_gateway.infer in
  let cenv := scenario_router.call_at 1 scenario_router.answer in
  let registry := scenario_router.registry in
  let version := if bool_decide (Version r = "") then "v1" else Version r in
  RealTimeInference scenario_gateway.handler env (via_router None cenv registry) (inl r)
  = match (router.RouteRequest cenv (Model r) version registry).2 with
    | inl result =>
        {| status := 200;
           body := JObj [("request_id", JStr (requestID env));
                         ("model", JStr (Model r));
                         ("version", JStr version);
                         ("prediction", JObj result);
                         ("latency_ms", JNum (elapsed_ms env))] |}
    | inr _ => {| status := 503; body := error_body "inference failed" |}
    end.
Proof.
  intros r env cenv registry.
  apply (sync_request_end_to_end scenario_gateway.handler env cenv registry r);
    reflexivity.
Defined.

End gateway_extras.
